(** * WebsiteCloner (index.js): a shallow embedding and its properties

    The development follows [src/index.js].  JavaScript strings are modelled
    as [string] (code units below 256), the [Set] of downloaded URLs as a
    [gset string], the file system as a [gmap] from paths to contents, the
    cheerio document as a list of elements addressed by position, and the
    cooperative scheduling of the download queue as a step function on an
    explicit state whose pending promises are a list of suspended tasks. *)

From Stdlib Require Import ZArith Ascii String.
From stdpp Require Import base decidable option list gmap strings.

Local Open Scope Z_scope.

(** ** JavaScript string primitives *)

Module JS.

Definition chars (s : string) : list ascii := String.list_ascii_of_string s.
Definition str (l : list ascii) : string := String.string_of_list_ascii l.

(** [s.startsWith(p)] *)
Definition startsWith (p s : string) : bool :=
  bool_decide (chars p `prefix_of` chars s).

(** [s.endsWith(p)] *)
Definition endsWith (p s : string) : bool :=
  bool_decide (chars p `suffix_of` chars s).

(** [s.substring(n)] *)
Definition substring_from (n : nat) (s : string) : string :=
  str (drop n (chars s)).

(** [s.slice(a, b)] for [0 <= a <= b <= s.length] *)
Definition slice (s : string) (a b : Z) : string :=
  str (take (Z.to_nat (b - a)) (drop (Z.to_nat a) (chars s))).

(** A value used as a condition: the empty string is falsy. *)
Definition truthy (s : string) : bool := negb (bool_decide (s = "")).

(** [s.split(sep)] for a one-character separator; never the empty list. *)
Fixpoint split_chars (sep : ascii) (cs : list ascii) : list (list ascii) :=
  match cs with
  | [] => [[]]
  | c :: cs' =>
    if bool_decide (c = sep) then [] :: split_chars sep cs'
    else match split_chars sep cs' with
         | piece :: pieces => (c :: piece) :: pieces
         | [] => [[c]]
         end
  end.
Definition split (sep : ascii) (s : string) : list string :=
  str <$> split_chars sep (chars s).

(** White space of [trim()] and of the regular expression class [\s],
    among the code units below 256. *)
Definition is_space (c : ascii) : bool :=
  match nat_of_ascii c with
  | 9%nat | 10%nat | 11%nat | 12%nat | 13%nat | 32%nat | 160%nat => true
  | _ => false
  end.

Fixpoint trim_start (cs : list ascii) : list ascii :=
  match cs with
  | c :: cs' => if is_space c then trim_start cs' else cs
  | [] => []
  end.

(** [s.trim()] *)
Definition trim (s : string) : string :=
  str (rev (trim_start (rev (trim_start (chars s))))).

End JS.

(** ** [path.extname] (Node, POSIX flavour)

    The backward scan of Node's implementation, with its five loop
    variables; [-1] marks what has not been seen yet, as in the original. *)

Definition CHAR_FORWARD_SLASH : ascii := "/"%char.
Definition CHAR_DOT : ascii := "."%char.

Record extname_state := ExtSt {
  startDot : Z;
  startPart : Z;
  end_ : Z;
  matchedSlash : bool;
  preDotState : Z
}.

(** The body of the loop for a character that is not the separator. *)
Definition extname_body (code : ascii) (i : Z) (st : extname_state)
  : extname_state :=
  let st1 :=
    if end_ st =? -1
    then ExtSt (startDot st) (startPart st) (i + 1) false (preDotState st)
    else st in
  if bool_decide (code = CHAR_DOT) then
    if startDot st1 =? -1
    then ExtSt i (startPart st1) (end_ st1) (matchedSlash st1) (preDotState st1)
    else if negb (preDotState st1 =? 1)
    then ExtSt (startDot st1) (startPart st1) (end_ st1) (matchedSlash st1) 1
    else st1
  else if negb (startDot st1 =? -1)
    then ExtSt (startDot st1) (startPart st1) (end_ st1) (matchedSlash st1) (-1)
    else st1.

(** [codes] are the characters at indices [i], [i-1], ..., [0]. *)
Fixpoint extname_scan (codes : list ascii) (i : Z) (st : extname_state)
  : extname_state :=
  match codes with
  | [] => st
  | code :: more =>
    if bool_decide (code = CHAR_FORWARD_SLASH) then
      if negb (matchedSlash st) then
        ExtSt (startDot st) (i + 1) (end_ st) (matchedSlash st) (preDotState st)
      else extname_scan more (i - 1) st
    else extname_scan more (i - 1) (extname_body code i st)
  end.

Definition extname_init : extname_state := ExtSt (-1) 0 (-1) true 0.

Definition extname_none (st : extname_state) : bool :=
  (startDot st =? -1) || (end_ st =? -1) || (preDotState st =? 0)
  || ((preDotState st =? 1) && (startDot st =? end_ st - 1)
      && (startDot st =? startPart st + 1)).

Definition path_extname (path : string) : string :=
  let cs := JS.chars path in
  let st := extname_scan (rev cs) (Z.of_nat (length cs) - 1) extname_init in
  if extname_none st then "" else JS.slice path (startDot st) (end_ st).

(** ** The [URL] class

    [new URL(input, base)] is the platform's WHATWG parser; it is an
    interface of the embedding.  [None] stands for the [TypeError] thrown on
    an invalid URL.  A URL object passed where a string is expected is
    stringified to its [href], and parsing a serialised URL gives the same
    URL back. *)

Record URL := mkURL {
  href : string;
  origin : string;
  pathname : string;
  search : string;
  hash : string
}.

Global Instance URL_eq_dec : EqDecision URL.
Proof. solve_decision. Defined.

Class URLApi := {
  URL_new : string → option string → option URL;
  URL_new_href input base u :
    URL_new input base = Some u → URL_new (href u) None = Some u
}.

(** ** [WebsiteCloner.getLocalPath] (index.js:162-182) *)

Definition localPathOf (pathname : string) : string :=
  let pathname :=
    if JS.startsWith "/" pathname then JS.substring_from 1 pathname
    else pathname in
  let pathname :=
    if bool_decide (pathname = "") || JS.endsWith "/" pathname
    then pathname +:+ "index.html" else pathname in
  let pathname :=
    if negb (JS.truthy (path_extname pathname))
    then pathname +:+ ".html" else pathname in
  pathname.

Definition getLocalPath `{URLApi} (url : URL) : option string :=
  urlObj ← URL_new (href url) None;
  Some (localPathOf (pathname urlObj)).

(** ** Node's [path] module (POSIX flavour)

    [dirname] is the backward scan of the original.  [normalize], [join],
    [resolve] and [relative] are given on the list of segments of a path,
    which is what the character loops of the original compute. *)

Module Path.

Definition segments (p : string) : list string := JS.split CHAR_FORWARD_SLASH p.

Fixpoint unsegments (l : list string) : string :=
  match l with
  | [] => ""
  | [x] => x
  | x :: l' => x +:+ "/" +:+ unsegments l'
  end.

Definition isAbsolute (p : string) : bool := JS.startsWith "/" p.

(** One segment of [normalizeString]; [res] is the result so far, last
    segment first. *)
Definition normalize_step (allowAboveRoot : bool) (res : list string)
    (seg : string) : list string :=
  if bool_decide (seg = "") || bool_decide (seg = ".") then res
  else if bool_decide (seg = "..") then
    match res with
    | last :: res' =>
        if bool_decide (last = "..")
        then (if allowAboveRoot then seg :: res else res)
        else res'
    | [] => if allowAboveRoot then [seg] else []
    end
  else seg :: res.

Definition normalize_segments (allowAboveRoot : bool) (segs : list string)
  : list string :=
  rev (foldl (normalize_step allowAboveRoot) [] segs).

Definition normalize (p : string) : string :=
  if bool_decide (p = "") then "." else
  let isAbs := isAbsolute p in
  let trailingSeparator := JS.endsWith "/" p in
  let p' := unsegments (normalize_segments (negb isAbs) (segments p)) in
  if bool_decide (p' = "") then
    (if isAbs then "/" else if trailingSeparator then "./" else ".")
  else
    let p' := if trailingSeparator then p' +:+ "/" else p' in
    if isAbs then "/" +:+ p' else p'.

(** [path.join(a, b)] *)
Definition join (a b : string) : string :=
  if bool_decide (a = "") then
    (if bool_decide (b = "") then "." else normalize b)
  else if bool_decide (b = "") then normalize a
  else normalize (a +:+ "/" +:+ b).

(** The segments of [path.resolve(p)] below the root, for a process whose
    working directory is [cwd]. *)
Definition resolve_segments (cwd p : string) : list string :=
  normalize_segments false
    (if isAbsolute p then segments p else segments cwd ++ segments p).

Definition resolve (cwd p : string) : string :=
  "/" +:+ unsegments (resolve_segments cwd p).

Fixpoint strip_common (f t : list string) : list string * list string :=
  match f, t with
  | a :: f', b :: t' =>
      if bool_decide (a = b) then strip_common f' t' else (f, t)
  | _, _ => (f, t)
  end.

(** [path.relative(from, to)] *)
Definition relative (cwd from to : string) : string :=
  if bool_decide (from = to) then "" else
  let '(f, t) := strip_common (resolve_segments cwd from)
                              (resolve_segments cwd to) in
  unsegments (replicate (length f) ".." ++ t).

(** [codes] are the characters at indices [i], [i-1], ..., [1]. *)
Fixpoint dirname_scan (codes : list ascii) (i : Z) (matchedSlash : bool) : Z :=
  match codes with
  | [] => -1
  | code :: more =>
    if bool_decide (code = CHAR_FORWARD_SLASH) then
      if negb matchedSlash then i
      else dirname_scan more (i - 1) matchedSlash
    else dirname_scan more (i - 1) false
  end.

(** [path.dirname(p)] *)
Definition dirname (p : string) : string :=
  if bool_decide (p = "") then "." else
  let cs := JS.chars p in
  let hasRoot := isAbsolute p in
  let end_ := dirname_scan (rev (drop 1 cs)) (Z.of_nat (length cs) - 1) true in
  if end_ =? -1 then (if hasRoot then "/" else ".")
  else if hasRoot && (end_ =? 1) then "//"
  else JS.slice p 0 end_.

End Path.

(** ** The regular expression of [processCSSFile] and [String.replace]

    [urlRegex] (index.js:238, flag [g]) reads: the four characters [url(],
    an optional single or double quote, one or more characters that are
    neither a quote, a closing parenthesis nor white space (the captured
    group), an optional quote, a closing parenthesis.  Every piece of it is
    deterministic: a quote, when present, can only be taken by the optional
    quote, and the character class stops exactly at a quote, a closing
    parenthesis, white space or the end, so no backtracking alternative can
    succeed where the greedy one fails. *)

Definition CHAR_DQUOTE : ascii := ascii_of_nat 34.
Definition CHAR_SQUOTE : ascii := ascii_of_nat 39.
Definition CHAR_RPAREN : ascii := ascii_of_nat 41.
Definition CHAR_BACKSLASH : ascii := ascii_of_nat 92.
Definition CHAR_DOLLAR : ascii := ascii_of_nat 36.

Definition is_quote (c : ascii) : bool :=
  bool_decide (c = CHAR_SQUOTE) || bool_decide (c = CHAR_DQUOTE).

(** The character class of the captured group. *)
Definition url_char (c : ascii) : bool :=
  negb (is_quote c || bool_decide (c = CHAR_RPAREN) || JS.is_space c).

Fixpoint take_class (cs : list ascii) : list ascii * list ascii :=
  match cs with
  | c :: cs' =>
      if url_char c then let '(run, rest) := take_class cs' in (c :: run, rest)
      else ([], cs)
  | [] => ([], [])
  end.

Definition opt_quote (cs : list ascii) : list ascii * list ascii :=
  match cs with
  | c :: cs' => if is_quote c then ([c], cs') else ([], cs)
  | [] => ([], [])
  end.

(** A match of [urlRegex] starting at the head of [cs]: [match[0]] and
    [match[1]]. *)
Definition match_here (cs : list ascii) : option (list ascii * list ascii) :=
  if bool_decide (JS.chars "url(" `prefix_of` cs) then
    let '(q1, r1) := opt_quote (drop 4 cs) in
    let '(body, r2) := take_class r1 in
    let '(q2, r3) := opt_quote r2 in
    match body, r3 with
    | _ :: _, c :: _ =>
        if bool_decide (c = CHAR_RPAREN)
        then Some (JS.chars "url(" ++ q1 ++ body ++ q2 ++ [c], body)
        else None
    | _, _ => None
    end
  else None.

(** The successive results of [urlRegex.exec(cs)]; [skip] characters of the
    previous match are still to be passed. *)
Fixpoint exec_all (cs : list ascii) (skip : nat) : list (string * string) :=
  match cs with
  | [] => []
  | _ :: rest =>
    match skip with
    | S k => exec_all rest k
    | O =>
      match match_here cs with
      | Some (m0, m1) => (JS.str m0, JS.str m1) :: exec_all rest (length m0 - 1)
      | None => exec_all rest 0
      end
    end
  end.

Definition urlRegex_matches (cssContent : string) : list (string * string) :=
  exec_all (JS.chars cssContent) 0.

(** The first occurrence of [pat]: what precedes it and what follows it. *)
Fixpoint find_first (pat cs : list ascii) : option (list ascii * list ascii) :=
  if bool_decide (pat `prefix_of` cs) then Some ([], drop (length pat) cs)
  else match cs with
       | [] => None
       | c :: cs' => (λ '(before, after), (c :: before, after)) <$> find_first pat cs'
       end.

(** [GetSubstitution] for a string pattern: a dollar followed by a dollar,
    an ampersand, a backquote or a single quote is expanded; there are no
    captures, so any other dollar stands for itself. *)
Fixpoint getSubstitution (matched before after repl : list ascii) : list ascii :=
  match repl with
  | [] => []
  | c :: repl' =>
    if bool_decide (c = CHAR_DOLLAR) then
      match repl' with
      | d :: repl'' =>
          if bool_decide (d = CHAR_DOLLAR) then
            c :: getSubstitution matched before after repl''
          else if bool_decide (d = "&"%char) then
            matched ++ getSubstitution matched before after repl''
          else if bool_decide (d = "`"%char) then
            before ++ getSubstitution matched before after repl''
          else if bool_decide (d = CHAR_SQUOTE) then
            after ++ getSubstitution matched before after repl''
          else c :: getSubstitution matched before after repl'
      | [] => [c]
      end
    else c :: getSubstitution matched before after repl'
  end.

(** [s.replace(pat, repl)] with a string pattern: the first occurrence only. *)
Definition replace (s pat repl : string) : string :=
  match find_first (JS.chars pat) (JS.chars s) with
  | Some (before, after) =>
      JS.str (before
              ++ getSubstitution (JS.chars pat) before after (JS.chars repl)
              ++ after)
  | None => s
  end.

(** [s.replace(/\\/g, '/')] *)
Definition slashes (s : string) : string :=
  JS.str ((λ c, if bool_decide (c = CHAR_BACKSLASH) then CHAR_FORWARD_SLASH else c)
            <$> JS.chars s).

Definition DQUOTE : string := String CHAR_DQUOTE "".

(** ** The cheerio document

    Elements in document order; an element handle is its position.  The
    attributes of an element are a JavaScript object, hence a finite map. *)

Record element := Element {
  tagName : string;
  attribs : gmap string string
}.

Definition document := list element.

(** [$(el).attr(name)]: [None] is [undefined]. *)
Definition attr (el : element) (name : string) : option string :=
  attribs el !! name.

(** [$(el).attr(name, value)] on the element at handle [el]. *)
Definition set_attr (el : nat) (name value : string) (doc : document)
  : document :=
  alter (λ e, Element (tagName e) (<[name := value]> (attribs e))) el doc.

(** [$(selector)]: the handles of the matching elements, in document order. *)
Definition select (matches : element → bool) (doc : document) : list nat :=
  fst <$> filter (λ ie, matches ie.2 = true) (imap pair doc).

Definition sel_stylesheet (e : element) : bool :=
  bool_decide (tagName e = "link") && bool_decide (attr e "rel" = Some "stylesheet").
Definition sel_with (tag name : string) (e : element) : bool :=
  bool_decide (tagName e = tag) && bool_decide (is_Some (attr e name)).

(** A value read from an attribute and used as a condition. *)
Definition attr_truthy (doc : document) (el : nat) (name : string)
  : option string :=
  e ← doc !! el;
  v ← attr e name;
  if JS.truthy v then Some v else None.

(** ** Assets and work items *)

Inductive kind := css | js | img | other_asset.

Global Instance kind_eq_dec : EqDecision kind.
Proof. solve_decision. Defined.

Record asset := Asset {
  asset_type : kind;
  asset_url : string;
  asset_element : nat
}.

Record item := Item {
  item_url : string;
  item_localPath : string;
  item_type : kind
}.

Global Instance item_eq_dec : EqDecision item.
Proof. solve_decision. Defined.

(** index.js:98: the URL of each candidate of a [srcset], that is what
    precedes the first space of the trimmed candidate. *)
Definition srcset_urls (srcset : string) : list string :=
  (λ s, default "" (head (JS.split " "%char (JS.trim s))))
    <$> JS.split ","%char srcset.

(** index.js:79-103: the four selections, in the order they are made. *)
Definition find_assets (doc : document) : list asset :=
  omap (λ el, (λ v, Asset css v el) <$> attr_truthy doc el "href")
       (select sel_stylesheet doc)
  ++ omap (λ el, (λ v, Asset js v el) <$> attr_truthy doc el "src")
       (select (sel_with "script" "src") doc)
  ++ omap (λ el, (λ v, Asset img v el) <$> attr_truthy doc el "src")
       (select (sel_with "img" "src") doc)
  ++ mbind (λ el,
        match attr_truthy doc el "srcset" with
        | Some srcset =>
            (λ u, Asset img u el) <$> filter (λ u, JS.truthy u = true) (srcset_urls srcset)
        | None => []
        end)
       (select (sel_with "img" "srcset") doc).

(** ** The cloner, the world it acts on, and its pending promises *)

Inductive log_entry :=
| LogStart (url dir : string)
| LogPage (url : string)
| LogInvalidAsset (raw : string)
| LogDownloading (url : string)
| LogError (url message : string)
| LogCSSError (filePath message : string)
| LogCompleted
| LogSaved (dir : string).

(** Result of an awaited operation, as the environment settles it. *)
Inductive io :=
| Resolved (data : string)
| Rejected (message : string).

(** The [await] a call of [downloadAsset] is suspended at. *)
Inductive phase :=
| AwaitGet
| AwaitEnsureDir (data : string)
| AwaitWriteFile (data : string)
| AwaitReadCSS
| AwaitWriteCSS (updatedCSS : string).

Record task := Task {
  task_item : item;
  task_phase : phase
}.

(** The [while] loop of [processDownloadQueue]: running synchronous code,
    suspended at its [setTimeout], or left. *)
Inductive loop_status := Running | Sleeping | Exited.

Global Instance loop_status_eq_dec : EqDecision loop_status.
Proof. solve_decision. Defined.

(** [baseUrl] ... [activeDownloads] are the fields of the [WebsiteCloner]
    object; [cwd], [files], [dirs] are the process and its file system,
    [requests] the GET requests issued so far (oldest first), [console] what
    was logged; [pending] are the suspended calls of [downloadAsset] and
    [settled] counts calls that returned and whose [finally] callback is
    still in the microtask queue. *)
Record state := State {
  baseUrl : URL;
  outputDir : string;
  downloadedFiles : gset string;
  downloadQueue : list item;
  maxConcurrent : Z;
  activeDownloads : Z;
  cwd : string;
  files : gmap string string;
  dirs : gset string;
  requests : list string;
  console : list log_entry;
  loop : loop_status;
  pending : list task;
  settled : nat
}.

Definition upd_downloadedFiles (f : gset string → gset string) (s : state) : state :=
  let 'State b o d q m a w fs ds rq c l p n := s in
  State b o (f d) q m a w fs ds rq c l p n.
Definition upd_downloadQueue (f : list item → list item) (s : state) : state :=
  let 'State b o d q m a w fs ds rq c l p n := s in
  State b o d (f q) m a w fs ds rq c l p n.
Definition upd_activeDownloads (f : Z → Z) (s : state) : state :=
  let 'State b o d q m a w fs ds rq c l p n := s in
  State b o d q m (f a) w fs ds rq c l p n.
Definition upd_files (f : gmap string string → gmap string string) (s : state) : state :=
  let 'State b o d q m a w fs ds rq c l p n := s in
  State b o d q m a w (f fs) ds rq c l p n.
Definition upd_dirs (f : gset string → gset string) (s : state) : state :=
  let 'State b o d q m a w fs ds rq c l p n := s in
  State b o d q m a w fs (f ds) rq c l p n.
Definition upd_requests (f : list string → list string) (s : state) : state :=
  let 'State b o d q m a w fs ds rq c l p n := s in
  State b o d q m a w fs ds (f rq) c l p n.
Definition upd_console (f : list log_entry → list log_entry) (s : state) : state :=
  let 'State b o d q m a w fs ds rq c l p n := s in
  State b o d q m a w fs ds rq (f c) l p n.
Definition upd_loop (f : loop_status → loop_status) (s : state) : state :=
  let 'State b o d q m a w fs ds rq c l p n := s in
  State b o d q m a w fs ds rq c (f l) p n.
Definition upd_pending (f : list task → list task) (s : state) : state :=
  let 'State b o d q m a w fs ds rq c l p n := s in
  State b o d q m a w fs ds rq c l (f p) n.
Definition upd_settled (f : nat → nat) (s : state) : state :=
  let 'State b o d q m a w fs ds rq c l p n := s in
  State b o d q m a w fs ds rq c l p (f n).

Definition log (e : log_entry) : state → state := upd_console (λ l, l ++ [e]).
Definition push (it : item) : state → state := upd_downloadQueue (λ q, q ++ [it]).
Definition has (url : string) (s : state) : bool :=
  bool_decide (url ∈ downloadedFiles s).

(** index.js:17-25 *)
Definition constructor `{URLApi} (baseUrl outputDir cwd : string) : option state :=
  base ← URL_new baseUrl None;
  Some (State base outputDir ∅ [] 5 0 cwd ∅ ∅ [] [] Running [] 0).

(** ** [updateAssetReference] (index.js:129-139) *)

Definition updateAssetReference (doc : document) (a : asset) (localPath : string)
  : document :=
  let relativePath := "./" +:+ localPath in
  match asset_type a with
  | css => set_attr (asset_element a) "href" relativePath doc
  | js => set_attr (asset_element a) "src" relativePath doc
  | img => set_attr (asset_element a) "src" relativePath doc
  | other_asset => doc
  end.

(** ** [processAssets] (index.js:75-127) *)

(** The body of the [for] loop, with its [try]/[catch]: both [new URL] and
    [getLocalPath] throw before anything is changed. *)
Definition process_asset `{URLApi} (basePageUrl : URL) (ds : document * state)
    (a : asset) : document * state :=
  let '(doc, s) := ds in
  match
    assetUrl ← URL_new (asset_url a) (Some (href basePageUrl));
    localPath ← getLocalPath assetUrl;
    Some (assetUrl, localPath)
  with
  | Some (assetUrl, localPath) =>
      let s :=
        if negb (has (href assetUrl) s)
        then push (Item (href assetUrl) localPath (asset_type a)) s
        else s in
      (updateAssetReference doc a localPath, s)
  | None => (doc, log (LogInvalidAsset (asset_url a)) s)
  end.

Definition processAssets `{URLApi} (doc : document) (pageUrl : string)
    (s : state) : option (document * state) :=
  basePageUrl ← URL_new pageUrl None;
  Some (foldl (process_asset basePageUrl) (doc, s) (find_assets doc)).

(** ** [rewriteLinks] (index.js:141-160) *)

Definition rewrite_link `{URLApi} (basePageUrl : URL) (s : state)
    (doc : document) (el : nat) : document :=
  match attr_truthy doc el "href" with
  | Some h =>
      if negb (JS.startsWith "#" h) && negb (JS.startsWith "mailto:" h)
         && negb (JS.startsWith "tel:" h)
      then
        match URL_new h (Some (href basePageUrl)) with
        | Some linkUrl =>
            if bool_decide (origin linkUrl = origin (baseUrl s)) then
              match getLocalPath linkUrl with
              | Some localPath => set_attr el "href" ("./" +:+ localPath) doc
              | None => doc
              end
            else doc
        | None => doc
        end
      else doc
  | None => doc
  end.

Definition rewriteLinks `{URLApi} (doc : document) (pageUrl : string)
    (s : state) : option document :=
  basePageUrl ← URL_new pageUrl None;
  Some (foldl (rewrite_link basePageUrl s) doc (select (sel_with "a" "href") doc)).

(** ** [cheerio.load] and [$.html()]: the HTML parser and serialiser *)

Class Cheerio := {
  cheerio_load : string → document;
  cheerio_html : document → string
}.

(** ** [processCSSFile] (index.js:232-273) *)

(** The body of the [while] loop over the matches, with its [try]/[catch]. *)
Definition processCSSFile_match `{URLApi} (cssBaseUrl : URL) (filePath : string)
    (acc : string * state) (m : string * string) : string * state :=
  let '(updatedCSS, s) := acc in
  let assetUrl := m.2 in
  match
    fullAssetUrl ← URL_new assetUrl (Some (href cssBaseUrl));
    localPath ← getLocalPath fullAssetUrl;
    Some (fullAssetUrl, localPath)
  with
  | Some (fullAssetUrl, localPath) =>
      let s' :=
        if negb (has (href fullAssetUrl) s)
        then push (Item (href fullAssetUrl) localPath other_asset) s
        else s in
      let relativePath :=
        Path.relative (cwd s) (Path.dirname filePath)
                      (Path.join (outputDir s) localPath) in
      (replace updatedCSS m.1
         ("url(" +:+ DQUOTE +:+ slashes relativePath +:+ DQUOTE +:+ ")"), s')
  | None => acc
  end.

(** From the text read to the text to be written. *)
Definition processCSSFile_rewrite `{URLApi} (cssBaseUrl : URL) (filePath cssContent : string)
    (s : state) : string * state :=
  foldl (processCSSFile_match cssBaseUrl filePath) (cssContent, s) (urlRegex_matches cssContent).

(** ** [downloadAsset] (index.js:200-230) and [processDownloadQueue]
       (index.js:184-198) *)

Definition filePathOf (s : state) (it : item) : string :=
  Path.join (outputDir s) (item_localPath it).

(** [downloadAsset(item)] up to its first [await]. *)
Definition downloadAsset_begin (it : item) (s : state) : state :=
  if has (item_url it) s then upd_settled S s
  else
    upd_pending (λ p, p ++ [Task it AwaitGet])
      (upd_requests (λ r, r ++ [item_url it])
         (log (LogDownloading (item_url it)) s)).

(** The loop reaches [await new Promise(...)]: the microtask queue is run,
    that is the [finally] callbacks of the calls that returned at once. *)
Definition processDownloadQueue_wait (s : state) : state :=
  upd_loop (λ _, Sleeping)
    (upd_settled (λ _, 0%nat)
       (upd_activeDownloads (λ a, a - Z.of_nat (settled s)) s)).

(** One evaluation of the loop condition and of the loop body. *)
Definition processDownloadQueue_turn (s : state) : state :=
  if bool_decide (0 < Z.of_nat (length (downloadQueue s)))
     || bool_decide (0 < activeDownloads s)
  then
    match downloadQueue s with
    | it :: rest =>
        if bool_decide (activeDownloads s < maxConcurrent s) then
          downloadAsset_begin it
            (upd_activeDownloads (λ a, a + 1) (upd_downloadQueue (λ _, rest) s))
        else processDownloadQueue_wait s
    | [] => processDownloadQueue_wait s
    end
  else upd_loop (λ _, Exited) s.

(** The pending call number [i] is resumed with the result [r] of the
    operation it awaits and runs to its next [await] or to its end; at its
    end the [finally] callback decrements [activeDownloads].  A write takes
    effect when it is resolved, and [readFile] gives what the file system
    holds at the path. *)
Definition downloadAsset_resume `{URLApi} (i : nat) (r : io) (s : state) : option state :=
  t ← pending s !! i;
  let it := task_item t in
  let filePath := filePathOf s it in
  let suspend ph := upd_pending (λ p, <[i := Task it ph]> p) in
  let finish s' := upd_activeDownloads (λ a, a - 1) (upd_pending (λ p, delete i p) s') in
  let caught msg := finish (log (LogError (item_url it) msg) s) in
  let css_caught msg := finish (log (LogCSSError filePath msg) s) in
  Some
    match task_phase t, r with
    | AwaitGet, Resolved data => suspend (AwaitEnsureDir data) s
    | AwaitGet, Rejected msg => caught msg
    | AwaitEnsureDir data, Resolved _ =>
        suspend (AwaitWriteFile data)
          (upd_dirs (λ d, {[Path.dirname filePath]} ∪ d) s)
    | AwaitEnsureDir _, Rejected msg => caught msg
    | AwaitWriteFile data, Resolved _ =>
        let s' := upd_downloadedFiles (λ d, {[item_url it]} ∪ d)
                    (upd_files (λ f, <[filePath := data]> f) s) in
        if bool_decide (item_type it = css) then suspend AwaitReadCSS s'
        else finish s'
    | AwaitWriteFile _, Rejected msg => caught msg
    | AwaitReadCSS, Resolved _ =>
        match files s !! filePath with
        | Some cssContent =>
            match URL_new (item_url it) None with
            | Some cssBaseUrl =>
                let '(updatedCSS, s') := processCSSFile_rewrite cssBaseUrl filePath cssContent s in
                suspend (AwaitWriteCSS updatedCSS) s'
            | None => css_caught "Invalid URL"
            end
        | None => css_caught "ENOENT"
        end
    | AwaitReadCSS, Rejected msg => css_caught msg
    | AwaitWriteCSS updatedCSS, Resolved _ =>
        finish (upd_files (λ f, <[filePath := updatedCSS]> f) s)
    | AwaitWriteCSS _, Rejected msg => css_caught msg
    end.

(** What the event loop can do next: run the loop of
    [processDownloadQueue] while it is running synchronous code; while it
    sleeps, settle an awaited operation of a pending download, or fire the
    timer that wakes the loop. *)
Inductive action :=
| Tick
| Timer
| Settle (i : nat) (r : io).

Definition step `{URLApi} (a : action) (s : state) : option state :=
  match a, loop s with
  | Tick, Running => Some (processDownloadQueue_turn s)
  | Timer, Sleeping => Some (upd_loop (λ _, Running) s)
  | Settle i r, Sleeping => downloadAsset_resume i r s
  | _, _ => None
  end.

Fixpoint run `{URLApi} (acts : list action) (s : state) : option state :=
  match acts with
  | [] => Some s
  | a :: acts' => s' ← step a s; run acts' s'
  end.

(** ** [downloadPage] (index.js:44-73)

    Nothing else is pending while the page is downloaded, so its awaits are
    taken in sequence, each with the result the environment gives it. *)

Record page_io := PageIO {
  page_get : io;
  page_ensureDir : io;
  page_writeFile : io
}.

Definition downloadPage `{URLApi} `{Cheerio} (url filename : string)
    (env : page_io) (s : state) : state :=
  let s := upd_requests (λ r, r ++ [url]) (log (LogPage url) s) in
  match page_get env with
  | Rejected msg => log (LogError url msg) s
  | Resolved data =>
    let doc := cheerio_load data in
    match processAssets doc url s with
    | None => log (LogError url "Invalid URL") s
    | Some (doc, s) =>
      match rewriteLinks doc url s with
      | None => log (LogError url "Invalid URL") s
      | Some doc =>
        let filePath := Path.join (outputDir s) filename in
        match page_ensureDir env with
        | Rejected msg => log (LogError url msg) s
        | Resolved _ =>
          let s := upd_dirs (λ d, {[Path.dirname filePath]} ∪ d) s in
          match page_writeFile env with
          | Rejected msg => log (LogError url msg) s
          | Resolved _ =>
              upd_downloadedFiles (λ d, {[url]} ∪ d)
                (upd_files (λ f, <[filePath := cheerio_html doc]> f) s)
          end
        end
      end
    end
  end.

(** ** [clone] (index.js:27-42) *)

(** How the promise returned by [clone()] ends, when it does. *)
Inductive outcome :=
| Fulfilled (s : state)
| Thrown (message : string) (s : state)
| Unsettled (s : state).

(** [clone()] up to the call of [processDownloadQueue]. *)
Definition clone_page `{URLApi} `{Cheerio} (ensureOut : io) (env : page_io)
    (s : state) : string * state + state :=
  let s := log (LogStart (href (baseUrl s)) (outputDir s)) s in
  match ensureOut with
  | Rejected msg => inl (msg, s)
  | Resolved _ =>
      inr (downloadPage (href (baseUrl s)) "index.html" env
             (upd_dirs (λ d, {[outputDir s]} ∪ d) s))
  end.

Definition clone `{URLApi} `{Cheerio} (ensureOut : io) (env : page_io)
    (acts : list action) (s : state) : outcome :=
  match clone_page ensureOut env s with
  | inl (msg, s) => Thrown msg s
  | inr s =>
      match run acts s with
      | Some s' =>
          if bool_decide (loop s' = Exited)
          then Fulfilled (log (LogSaved (Path.resolve (cwd s') (outputDir s')))
                            (log LogCompleted s'))
          else Unsettled s'
      | None => Unsettled s
      end
  end.

(** ** [serveWebsite] (index.js:276-307): the route for all paths

    The handler registered with [app.get] for every path, which answers
    what [express.static] has not answered.  [access] tells whether
    [fs.access] resolves for a path, [lookup] is [mime.lookup], whose
    [false] for an unknown extension is [None] here.  The answer is the absolute path
    handed to [res.sendFile] and the content type set before, if one is
    set. *)

Record response := Response {
  contentType : option string;
  sentFile : string
}.

Definition serve_route (access : string → bool) (lookup : string → option string)
    (cwd directory reqPath : string) : response :=
  let filePath := Path.join directory reqPath in
  if access filePath then
    let mimeType := default "text/html" (lookup filePath) in
    Response (Some mimeType) (Path.resolve cwd filePath)
  else
    let indexPath := Path.join directory "index.html" in
    Response None (Path.resolve cwd indexPath).

(** ** The path resolver as the specification words it

    Take the path component; strip a leading path separator; if the result
    is empty or ends in a path separator, append the default document name;
    if the remaining name has no extension, append [.html]. *)

Definition strip_leading_separator (p : string) : string :=
  match p with
  | String c rest => if bool_decide (c = CHAR_FORWARD_SLASH) then rest else p
  | EmptyString => p
  end.

Fixpoint ends_in_separator (p : string) : bool :=
  match p with
  | EmptyString => false
  | String c EmptyString => bool_decide (c = CHAR_FORWARD_SLASH)
  | String _ rest => ends_in_separator rest
  end.

Definition has_extension (name : string) : bool :=
  negb (bool_decide (path_extname name = "")).

Definition resolve_spec (path : string) : string :=
  let stripped := strip_leading_separator path in
  let named :=
    match stripped with
    | EmptyString => "index.html"
    | _ => if ends_in_separator stripped then stripped +:+ "index.html"
           else stripped
    end in
  if has_extension named then named else named +:+ ".html".

(** ** A small web: the site [https://ex.test/]

    The values [new URL] takes on the strings that occur in the example
    pages below.  On any other argument the lookup fails; the examples rely
    on that only for the reference made of [http://] and an opening square
    bracket, an IPv6 host that is never closed, on which [new URL] throws. *)

Module Example.

Definition https (host path search hash : string) : URL :=
  mkURL ("https://" +:+ host +:+ path +:+ search +:+ hash)
        ("https://" +:+ host) path search hash.

Definition page : string := "https://ex.test/".
Definition sheet : string := "https://ex.test/css/s.css".

Definition urls : list (string * option string * URL) := [
  ("https://ex.test/", None, https "ex.test" "/" "" "");
  ("/s.css", Some page, https "ex.test" "/s.css" "" "");
  ("https://ex.test/s.css", None, https "ex.test" "/s.css" "" "");
  ("pic.png", Some page, https "ex.test" "/pic.png" "" "");
  ("https://ex.test/pic.png", None, https "ex.test" "/pic.png" "" "");
  ("bg.png", Some "https://ex.test/s.css", https "ex.test" "/bg.png" "" "");
  ("https://ex.test/bg.png", None, https "ex.test" "/bg.png" "" "");
  ("a.png", Some page, https "ex.test" "/a.png" "" "");
  ("https://ex.test/a.png", None, https "ex.test" "/a.png" "" "");
  ("b.png", Some page, https "ex.test" "/b.png" "" "");
  ("https://ex.test/b.png", None, https "ex.test" "/b.png" "" "");
  ("/css/s.css", Some page, https "ex.test" "/css/s.css" "" "");
  ("https://ex.test/css/s.css", None, https "ex.test" "/css/s.css" "" "");
  ("/img/bg.png", Some sheet, https "ex.test" "/img/bg.png" "" "");
  ("https://ex.test/img/bg.png", None, https "ex.test" "/img/bg.png" "" "");
  ("/docs/intro?lang=en#top", Some page,
     https "ex.test" "/docs/intro" "?lang=en" "#top");
  ("https://ex.test/docs/intro?lang=en#top", None,
     https "ex.test" "/docs/intro" "?lang=en" "#top");
  ("/docs/intro", Some page, https "ex.test" "/docs/intro" "" "");
  ("https://ex.test/docs/intro", None, https "ex.test" "/docs/intro" "" "");
  ("https://ex.test//x.png", Some page, https "ex.test" "//x.png" "" "");
  ("https://ex.test//x.png", None, https "ex.test" "//x.png" "" "");
  ("https://other.test/", Some page, https "other.test" "/" "" "");
  ("#top", Some page, https "ex.test" "/" "" "#top");
  ("https://ex.test/#top", None, https "ex.test" "/" "" "#top");
  ("https://other.test/", None, https "other.test" "/" "" "")
].

Definition new_URL (input : string) (base : option string) : option URL :=
  snd <$> (snd <$> list_find (λ e, e.1 = (input, base)) urls).

Lemma new_URL_listed input base u :
  new_URL input base = Some u → u ∈ snd <$> urls.
Proof.
  unfold new_URL. generalize urls. intros l E.
  destruct (list_find _ l) as [[k [key v]]|] eqn:F; [|done].
  injection E as <-.
  apply list_find_Some in F as (F & _). apply list_elem_of_fmap.
  exists (key, v). split; [done|]. by eapply list_elem_of_lookup_2.
Qed.

Lemma new_URL_href input base u :
  new_URL input base = Some u → new_URL (href u) None = Some u.
Proof.
  intros E%new_URL_listed. revert u E. apply Forall_forall.
  refine (bool_decide_unpack (Forall _ (snd <$> urls)) _). vm_compute. exact I.
Qed.

Global Instance url_api : URLApi := Build_URLApi new_URL new_URL_href.

(** The entry page of the end-to-end scenario and its stylesheet. *)
Definition link (rel h : string) : element :=
  Element "link" {[ "rel" := rel; "href" := h ]}.
Definition img_src (src : string) : element :=
  Element "img" {[ "src" := src ]}.

Definition entry_html : string := "<link rel=stylesheet href=/s.css><img src=pic.png>".
Definition entry_doc : document := [link "stylesheet" "/s.css"; img_src "pic.png"].

(** A page that refers to the same stylesheet from two elements. *)
Definition twice_html : string :=
  "<link rel=stylesheet href=/s.css><link rel=stylesheet href=/s.css>".
Definition twice_doc : document :=
  [link "stylesheet" "/s.css"; link "stylesheet" "/s.css"].

Definition load (data : string) : document :=
  if bool_decide (data = entry_html) then entry_doc
  else if bool_decide (data = twice_html) then twice_doc
  else [].

(** Tags and attributes, one element after the other. *)
Definition html (doc : document) : string :=
  foldr (λ e acc,
           "<" +:+ tagName e
           +:+ foldr (λ kv a, " " +:+ kv.1 +:+ "=" +:+ kv.2 +:+ a) ""
                 (map_to_list (attribs e))
           +:+ ">" +:+ acc) "" doc.

Global Instance cheerio : Cheerio := Build_Cheerio load html.

(** A clone of [page] into [out] whose entry page answers [data], up to
    the call of [processDownloadQueue]. *)
Definition start (data : string) : option state :=
  s0 ← constructor page "out" "/home/u";
  match clone_page (Resolved "")
          (PageIO (Resolved data) (Resolved "") (Resolved "")) s0 with
  | inr s1 => Some s1
  | inl _ => None
  end.

Definition s_css : item := Item "https://ex.test/s.css" "s.css" css.
Definition pic_png : item := Item "https://ex.test/pic.png" "pic.png" img.
Definition bg_png : item := Item "https://ex.test/bg.png" "bg.png" other_asset.

(** Both assets of the entry page are started; the stylesheet arrives
    and is written. *)
Definition until_written : list action :=
  [Tick; Tick; Tick;
   Settle 0 (Resolved "background: url(bg.png)");
   Settle 0 (Resolved ""); Settle 0 (Resolved "")].

(** The rewritten stylesheet is written, the picture arrives and is
    written, the loop wakes up, starts what the stylesheet referred to,
    sleeps until that is written too, and finds nothing left. *)
Definition until_exit : list action :=
  [Settle 0 (Resolved "");
   Settle 0 (Resolved "PNG"); Settle 0 (Resolved ""); Settle 0 (Resolved "");
   Timer; Tick; Tick;
   Settle 0 (Resolved "PNG"); Settle 0 (Resolved ""); Settle 0 (Resolved "");
   Timer; Tick].

(** The states the scenario goes through. *)
Definition created : state :=
  State (https "ex.test" "/" "" "") "out" ∅ [] 5 0 "/home/u" ∅ ∅ [] []
        Running [] 0.
Definition the (o : option state) : state := default created o.

Definition s_page : state := the (start entry_html).
Definition s_fetching : state := the (run [Tick; Tick; Tick] s_page).
Definition s_written : state := the (run until_written s_page).
Definition s_extracted : state := the (step (Settle 0 (Resolved "")) s_written).
Definition s_exit : state := the (run until_exit s_extracted).


(** An image with a source and a one-candidate responsive set. *)
Definition picture_doc : document :=
  [Element "img" {[ "src" := "a.png"; "srcset" := "b.png 2x" ]}].

(** An internal link, an external one and a fragment. *)
Definition anchor (h : string) : element := Element "a" {[ "href" := h ]}.
Definition links_doc : document :=
  [anchor "/docs/intro?lang=en#top"; anchor "https://other.test/"; anchor "#top"].

(** A stylesheet link whose address does not parse, before an image. *)
Definition broken_doc : document :=
  [link "stylesheet" "http://["; img_src "pic.png"].

(** A stylesheet in a subdirectory, and one whose reference does not parse. *)
Definition sheet_url : URL := https "ex.test" "/css/s.css" "" "".
Definition sheet_text : string := "body{background:url(/img/bg.png)}".

(** The entry page answers 404. *)
Definition not_found : page_io :=
  PageIO (Rejected "Request failed with status code 404") (Resolved "") (Resolved "").
Definition fulfilled (o : outcome) : state :=
  match o with Fulfilled s => s | _ => created end.
Definition s_404 : state := fulfilled (clone (Resolved "") not_found [Tick] created).


Definition links_local : document :=
  default [] (rewriteLinks links_doc page created).
(** The whole drain of the end-to-end scenario. *)
Definition drain : list action :=
  until_written ++ Settle 0 (Resolved "") :: until_exit.

End Example.

(** ** Notions used to state the properties of the scheduler *)

Global Instance phase_eq_dec : EqDecision phase.
Proof. solve_decision. Defined.

(** The GET requests that have been issued and are not settled yet. *)
Definition in_flight (s : state) : nat :=
  length (filter (λ t, task_phase t = AwaitGet) (pending s)).

(** The scheduler before [processDownloadQueue] is entered. *)
Definition quiescent (s : state) : Prop :=
  activeDownloads s = 0 ∧ pending s = [] ∧ settled s = 0%nat
  ∧ loop s = Running ∧ 0 ≤ maxConcurrent s.


(** ** Notions used in the proofs *)

(** The name the resolver settles on before it looks for an extension. *)
Definition named_of (p : string) : string :=
  let stripped := strip_leading_separator p in
  match stripped with
  | EmptyString => "index.html"
  | _ => if ends_in_separator stripped then stripped +:+ "index.html"
         else stripped
  end.

(** What extraction does to the state: it appends to the queue and to the
    console. *)
Definition extend (new : list item) (lines : list log_entry) (s : state)
  : state :=
  upd_console (λ l, l ++ lines) (upd_downloadQueue (λ q, q ++ new) s).

(** What extraction enqueues: items whose URL is not in [downloadedFiles]. *)
Definition unseen (s : state) (new : list item) : Prop :=
  Forall (λ it, item_url it ∉ downloadedFiles s) new.

(** [activeDownloads] counts the calls of [downloadAsset] whose [finally]
    callback has not run; it stays below the ceiling; when the loop is
    left nothing remains. *)
Record sched_inv (s : state) : Prop := SchedInv {
  inv_count :
    activeDownloads s = Z.of_nat (length (pending s)) + Z.of_nat (settled s);
  inv_ceiling : activeDownloads s ≤ maxConcurrent s;
  inv_exited :
    loop s = Exited → downloadQueue s = [] ∧ pending s = [] ∧ settled s = 0%nat
}.

(** The fields the scheduler works on. *)
Definition sched_fields (s : state) : Z * Z * loop_status * list task * nat :=
  (maxConcurrent s, activeDownloads s, loop s, pending s, settled s).

(** Whatever is in [downloadedFiles] was there from the start or has been
    requested, and so has the URL of every pending call. *)
Definition provenance (D0 : gset string) (s : state) : Prop :=
  (∀ u, u ∈ downloadedFiles s → u ∈ D0 ∨ u ∈ requests s)
  ∧ (∀ t, t ∈ pending s → item_url (task_item t) ∈ requests s).

(** A segment holds no separator. *)
Definition noslash (seg : string) : Prop := CHAR_FORWARD_SLASH ∉ JS.chars seg.

(** A segment that names something: neither empty nor a dot segment. *)
Definition plain (seg : string) : Prop := seg ≠ "" ∧ seg ≠ "." ∧ seg ≠ "..".

(** [resolve] continues from the working directory unless the path is
    absolute. *)
Definition resolve_base (cwd p : string) : list string :=
  if Path.isAbsolute p then []
  else foldl (Path.normalize_step false) [] (Path.segments cwd).

(** ** Notions used to state the further properties *)

(** Where an asset was read: the element and the attribute. *)
Definition asset_of (doc : document) (a : asset) : Prop :=
  ∃ e, doc !! asset_element a = Some e ∧ asset_url a ≠ ""
    ∧ match asset_type a with
      | css => tagName e = "link" ∧ attr e "rel" = Some "stylesheet"
               ∧ attr e "href" = Some (asset_url a)
      | js => tagName e = "script" ∧ attr e "src" = Some (asset_url a)
      | img => tagName e = "img"
               ∧ (attr e "src" = Some (asset_url a)
                  ∨ ∃ srcset, attr e "srcset" = Some srcset
                              ∧ asset_url a ∈ srcset_urls srcset)
      | other_asset => False
      end.


(** A link that [rewriteLinks] takes for a link into the site: an anchor
    whose [href] is neither empty, a fragment, a mail nor a telephone
    address, and resolves to [u] on the origin of the clone. *)
Definition internal_link `{URLApi} (base : URL) (s : state) (e : element) (u : URL)
  : Prop :=
  tagName e = "a"
  ∧ ∃ h, attr e "href" = Some h ∧ h ≠ ""
      ∧ JS.startsWith "#" h = false ∧ JS.startsWith "mailto:" h = false
      ∧ JS.startsWith "tel:" h = false
      ∧ URL_new h (Some (href base)) = Some u
      ∧ origin u = origin (baseUrl s).

(** An optional quote, as the regular expression takes it. *)
Definition quote_or_none (q : list ascii) : Prop :=
  q = [] ∨ ∃ c, is_quote c = true ∧ q = [c].

(** A work item as extraction makes it: its URL is a serialised URL and
    its local path is the path resolved for that URL. *)
Definition resolved_item `{URLApi} (it : item) : Prop :=
  ∃ u, URL_new (item_url it) None = Some u
       ∧ item_url it = href u
       ∧ item_localPath it = localPathOf (pathname u).

(** The awaits of [processCSSFile]. *)
Definition css_phase (ph : phase) : Prop :=
  ph = AwaitReadCSS ∨ ∃ updatedCSS, ph = AwaitWriteCSS updatedCSS.

(** ** Notions used in the proofs of the further properties *)


(** The shape of a match of [urlRegex] and of its captured group. *)
Definition url_token (m0 m1 : list ascii) : Prop :=
  ∃ q1 q2,
    m0 = JS.chars "url(" ++ q1 ++ m1 ++ q2 ++ [CHAR_RPAREN]
    ∧ quote_or_none q1 ∧ quote_or_none q2
    ∧ m1 ≠ [] ∧ Forall (λ c, url_char c = true) m1.

(** The drain only adds: to the downloaded set, the files, the
    directories, the requests and the console; it leaves the configuration
    alone. *)
Definition grows (s s' : state) : Prop :=
  baseUrl s' = baseUrl s ∧ outputDir s' = outputDir s ∧ cwd s' = cwd s
  ∧ maxConcurrent s' = maxConcurrent s
  ∧ downloadedFiles s ⊆ downloadedFiles s'
  ∧ dom (files s) ⊆ dom (files s')
  ∧ dirs s ⊆ dirs s'
  ∧ requests s `prefix_of` requests s'
  ∧ console s `prefix_of` console s'.

(** Every queued item and the item of every pending call satisfies [P], and
    only a stylesheet is at an await of [processCSSFile]. *)
Definition items_inv (P : item → Prop) (s : state) : Prop :=
  Forall P (downloadQueue s)
  ∧ Forall (λ t, P (task_item t)
                 ∧ (css_phase (task_phase t) → item_type (task_item t) = css))
      (pending s).

(** The file of a URL is in the output directory. *)
Definition on_disk `{URLApi} (s : state) (url : string) : Prop :=
  ∃ u, URL_new url None = Some u
       ∧ Path.join (outputDir s) (localPathOf (pathname u)) ∈ dom (files s).

(** The awaits of a download that come after its [ensureDir]. *)
Definition dir_ensured (ph : phase) : Prop :=
  (∃ data, ph = AwaitWriteFile data) ∨ css_phase ph.

(** Every file is in a directory that was created, and so will be the
    file of every pending call that is past its [ensureDir]. *)
Definition dirs_inv (s : state) : Prop :=
  (∀ p, p ∈ dom (files s) → Path.dirname p ∈ dirs s)
  ∧ Forall (λ t, dir_ensured (task_phase t) →
                 Path.dirname (filePathOf s (task_item t)) ∈ dirs s)
      (pending s).


(** A loop that is not running its body has no callback left to run. *)
Definition asleep_inv (s : state) : Prop :=
  sched_inv s ∧ (loop s ≠ Running → settled s = 0%nat).

(* ===================================================================== *)
(** * Properties *)
(* ===================================================================== *)

(** ** Strings *)

Lemma str_chars s : JS.str (JS.chars s) = s.
Proof. apply String.string_of_list_ascii_of_string. Qed.

Lemma chars_str l : JS.chars (JS.str l) = l.
Proof. apply String.list_ascii_of_string_of_list_ascii. Qed.

Lemma chars_app a b : JS.chars (a +:+ b) = JS.chars a ++ JS.chars b.
Proof. induction a as [|c a IH]; simpl; [done|]. unfold JS.chars in *. simpl. by rewrite IH. Qed.

Lemma chars_inj a b : JS.chars a = JS.chars b → a = b.
Proof. intros E. by rewrite <- (str_chars a), <- (str_chars b), E. Qed.

Lemma chars_nil s : JS.chars s = [] ↔ s = "".
Proof. split; [|by intros ->]. destruct s; [done|discriminate]. Qed.

(** ** The model of [path] on the examples of Node's documentation *)

Lemma extname_documented :
  path_extname <$> ["index.html"; "index.coffee.md"; "index."; "index";
                    ".index"; ".index.md"; ".."; "a.b/c"; "dir.d/"]
  = [".html"; ".md"; "."; ""; ""; ".md"; ""; ""; ".d"].
Proof. reflexivity. Qed.

Lemma path_documented :
  Path.dirname "/foo/bar/baz/asdf/quux" = "/foo/bar/baz/asdf"
  ∧ Path.normalize "/foo/bar//baz/asdf/quux/.." = "/foo/bar/baz/asdf"
  ∧ Path.join "/foo/bar" "baz/asdf/quux/.." = "/foo/bar/baz/asdf"
  ∧ Path.relative "/" "/data/orandea/test/aaa" "/data/orandea/impl/bbb"
    = "../../impl/bbb"
  ∧ Path.resolve "/home/myself/node" "wwwroot/static_files/../gif/image.gif"
    = "/home/myself/node/wwwroot/gif/image.gif".
Proof. by vm_compute. Qed.

Lemma localPathOf_samples :
  localPathOf <$> ["/"; ""; "/s.css"; "/docs/"; "/about"; "//x.png"; "/foo.";
                   "/.bashrc"]
  = ["index.html"; "index.html"; "s.css"; "docs/index.html"; "about.html";
     "/x.png"; "foo."; ".bashrc.html"].
Proof. reflexivity. Qed.

(** ** [path.extname] *)

Lemma extname_body_first c i p m q :
  c ≠ CHAR_DOT →
  extname_body c i (ExtSt (-1) p (-1) m q) = ExtSt (-1) p (i + 1) false q.
Proof. intros. unfold extname_body. simpl. by rewrite bool_decide_eq_false_2. Qed.

Lemma extname_body_plain c i p e m q :
  c ≠ CHAR_DOT → e ≠ -1 →
  extname_body c i (ExtSt (-1) p e m q) = ExtSt (-1) p e m q.
Proof.
  intros. unfold extname_body. simpl.
  destruct (Z.eqb_spec e (-1)); [done|]. by rewrite bool_decide_eq_false_2.
Qed.

Lemma extname_body_dot i p e m q :
  e ≠ -1 → extname_body CHAR_DOT i (ExtSt (-1) p e m q) = ExtSt i p e m q.
Proof.
  intros. unfold extname_body. simpl. by destruct (Z.eqb_spec e (-1)).
Qed.

Lemma extname_body_before c i d p e m :
  d ≠ -1 → e ≠ -1 →
  extname_body c i (ExtSt d p e m 0)
  = ExtSt d p e m (if bool_decide (c = CHAR_DOT) then 1 else -1).
Proof.
  intros. unfold extname_body. simpl.
  destruct (Z.eqb_spec e (-1)); [done|]. simpl.
  destruct (Z.eqb_spec d (-1)); [done|]. by case_bool_decide.
Qed.

Lemma extname_body_keeps c i st :
  startDot st ≠ -1 → end_ st ≠ -1 → preDotState st ≠ 0 →
  startDot (extname_body c i st) = startDot st
  ∧ end_ (extname_body c i st) = end_ st
  ∧ preDotState (extname_body c i st) ≠ 0.
Proof.
  destruct st as [d p e m q]; simpl; intros Hd He Hq. unfold extname_body; simpl.
  destruct (Z.eqb_spec e (-1)); [done|]. simpl.
  destruct (Z.eqb_spec d (-1)); [done|]. simpl.
  case_bool_decide; [destruct (Z.eqb_spec q 1)|]; simpl; auto with lia.
Qed.

(** Once a dot and a character before it have been seen, the rest of the
    scan leaves the extension where it is. *)
Lemma extname_scan_keeps codes : ∀ i st,
  startDot st ≠ -1 → end_ st ≠ -1 → preDotState st ≠ 0 →
  startDot (extname_scan codes i st) = startDot st
  ∧ end_ (extname_scan codes i st) = end_ st
  ∧ preDotState (extname_scan codes i st) ≠ 0.
Proof.
  induction codes as [|code more IH]; intros i st Hd He Hq; cbn [extname_scan].
  { done. }
  case_bool_decide.
  { destruct (matchedSlash st); simpl; [by apply IH|done]. }
  destruct (extname_body_keeps code i st) as (E1 & E2 & E3); [done..|].
  destruct (IH (i - 1) (extname_body code i st)) as (?&?&?); [congruence..|].
  repeat split; congruence.
Qed.

Lemma extname_scan_html c rest n :
  c ≠ CHAR_FORWARD_SLASH → 5 ≤ n →
  extname_scan ("l"%char :: "m"%char :: "t"%char :: "h"%char :: "."%char :: c :: rest)
    n extname_init
  = extname_scan rest (n - 1 - 1 - 1 - 1 - 1 - 1)
      (ExtSt (n - 1 - 1 - 1 - 1) 0 (n + 1) false
         (if bool_decide (c = CHAR_DOT) then 1 else -1)).
Proof.
  intros Hc Hn. unfold extname_init. cbn [extname_scan].
  rewrite !(bool_decide_eq_false_2 (_ = CHAR_FORWARD_SLASH)) by (first [exact Hc | discriminate]).
  rewrite extname_body_first by discriminate.
  rewrite !extname_body_plain by (first [discriminate | lia]).
  change "."%char with CHAR_DOT.
  rewrite extname_body_dot by lia.
  by rewrite extname_body_before by lia.
Qed.

(** A name that ends in a character other than the separator followed by
    [.html] has the extension [.html]. *)
Lemma extname_html (q : list ascii) (c : ascii) :
  c ≠ CHAR_FORWARD_SLASH →
  path_extname (JS.str (q ++ c :: JS.chars ".html")) = ".html".
Proof.
  intros Hc. unfold path_extname. rewrite chars_str.
  rewrite length_app, rev_app_distr. simpl length. simpl rev.
  set (n := Z.of_nat (length q + 6) - 1).
  assert (Hn : 5 ≤ n) by (unfold n; lia).
  cbn [app].
  rewrite extname_scan_html by done.
  match goal with |- context [extname_scan ?l ?i ?st] =>
    destruct (extname_scan_keeps l i st) as (E1 & E2 & E3);
      [simpl; try case_bool_decide; lia..|];
    destruct (extname_scan l i st) as [d p e m x] end.
  simpl in E1, E2, E3. subst d e.
  unfold extname_none. simpl.
  destruct (Z.eqb_spec (n - 1 - 1 - 1 - 1) (-1)); [lia|].
  destruct (Z.eqb_spec (n + 1) (-1)); [lia|].
  destruct (Z.eqb_spec x 0); [done|].
  destruct (Z.eqb_spec (n - 1 - 1 - 1 - 1) (n + 1 - 1)); [lia|].
  rewrite andb_false_r. simpl.
  unfold JS.slice. rewrite chars_str.
  replace (Z.to_nat (n - 1 - 1 - 1 - 1)) with (length q + 1)%nat by lia.
  replace (Z.to_nat (n + 1 - (n - 1 - 1 - 1 - 1))) with 5%nat by lia.
  rewrite cons_middle, app_assoc.
  rewrite drop_app_length'; [reflexivity|]. rewrite length_app. simpl. lia.
Qed.

Lemma extname_index_html s : path_extname (s +:+ "index.html") = ".html".
Proof.
  rewrite <- (str_chars (s +:+ "index.html")), chars_app.
  change (JS.chars "index.html")
    with (JS.chars "inde" ++ "x"%char :: JS.chars ".html").
  rewrite app_assoc. by apply extname_html.
Qed.

(** ** The path resolver *)

Lemma last_char s :
  s = "" ∨ ∃ q c, JS.chars s = q ++ [c]
               ∧ ends_in_separator s = bool_decide (c = CHAR_FORWARD_SLASH).
Proof.
  induction s as [|a s IH]; [by left|right].
  destruct IH as [->|(q & c & E & F)].
  - by exists [], a.
  - exists (a :: q), c. split.
    + unfold JS.chars in *. simpl. by rewrite E.
    + destruct s; [by destruct q|]. exact F.
Qed.

Lemma startsWith_separator p :
  (if JS.startsWith "/" p then JS.substring_from 1 p else p)
  = strip_leading_separator p.
Proof.
  destruct p as [|c rest]; [done|].
  unfold JS.startsWith, JS.substring_from, strip_leading_separator.
  change (JS.chars (String c rest)) with (c :: JS.chars rest).
  change (JS.chars "/") with [CHAR_FORWARD_SLASH].
  destruct (decide (c = CHAR_FORWARD_SLASH)) as [->|Hc].
  - rewrite bool_decide_eq_true_2 by (by apply prefix_cons, prefix_nil).
    rewrite bool_decide_eq_true_2 by done. simpl. by rewrite drop_0, str_chars.
  - rewrite bool_decide_eq_false_2; [by rewrite bool_decide_eq_false_2|].
    intros [k E]. simplify_eq/=.
Qed.

Lemma endsWith_separator p : JS.endsWith "/" p = ends_in_separator p.
Proof.
  unfold JS.endsWith. change (JS.chars "/") with [CHAR_FORWARD_SLASH].
  destruct (last_char p) as [->|(q & c & E & ->)].
  { apply bool_decide_eq_false_2. intros [k E]. by destruct k. }
  rewrite E. apply bool_decide_ext. split.
  - intros [k Hk]. by apply app_inj_tail in Hk as [_ ->].
  - intros ->. by exists q.
Qed.

Lemma localPathOf_spec p : localPathOf p = resolve_spec p.
Proof.
  unfold localPathOf, resolve_spec, has_extension, JS.truthy.
  rewrite startsWith_separator, endsWith_separator.
  destruct (strip_leading_separator p) as [|c rest] eqn:E; [done|].
  rewrite (bool_decide_eq_false_2 (String c rest = "")) by done.
  generalize (ends_in_separator (String c rest)); intros []; cbn [orb];
    by destruct (bool_decide (path_extname _ = "")).
Qed.

Lemma named_of_last p :
  ∃ q c, JS.chars (named_of p) = q ++ [c] ∧ c ≠ CHAR_FORWARD_SLASH.
Proof.
  unfold named_of.
  destruct (strip_leading_separator p) as [|a rest] eqn:E.
  { exists (JS.chars "index.htm"), "l"%char. split; [reflexivity|discriminate]. }
  destruct (ends_in_separator (String a rest)) eqn:F.
  - exists (JS.chars (String a rest) ++ JS.chars "index.htm"), "l"%char.
    split; [|discriminate]. by rewrite chars_app, <- app_assoc.
  - destruct (last_char (String a rest)) as [?|(q & c & Hq & Hc)]; [done|].
    exists q, c. split; [done|]. rewrite F in Hc. intros ->.
    by rewrite bool_decide_eq_true_2 in Hc.
Qed.

Lemma resolve_spec_named p :
  resolve_spec p = if has_extension (named_of p) then named_of p
                   else named_of p +:+ ".html".
Proof. reflexivity. Qed.

Lemma resolve_spec_extname p : path_extname (resolve_spec p) ≠ "".
Proof.
  rewrite resolve_spec_named. unfold has_extension.
  case_bool_decide as E; simpl; [|done].
  destruct (named_of_last p) as (q & c & Hq & Hc).
  rewrite <- (str_chars (_ +:+ _)), chars_app, Hq, <- app_assoc.
  simpl app. by rewrite extname_html.
Qed.

Lemma resolve_spec_last p :
  ∃ q c, JS.chars (resolve_spec p) = q ++ [c] ∧ c ≠ CHAR_FORWARD_SLASH.
Proof.
  rewrite resolve_spec_named. destruct (has_extension (named_of p)).
  { apply named_of_last. }
  exists (JS.chars (named_of p) ++ JS.chars ".htm"), "l"%char.
  split; [|discriminate]. by rewrite chars_app, <- app_assoc.
Qed.

Lemma startsWith_nil s : JS.startsWith "" s = true.
Proof. apply bool_decide_eq_true_2, prefix_nil. Qed.

Lemma startsWith_cons a t c s :
  JS.startsWith (String a t) (String c s)
  = bool_decide (a = c) && JS.startsWith t s.
Proof.
  unfold JS.startsWith.
  change (JS.chars (String a t)) with (a :: JS.chars t).
  change (JS.chars (String c s)) with (c :: JS.chars s).
  destruct (decide (a = c)) as [->|Hne].
  - rewrite (bool_decide_eq_true_2 (c = c)) by done. simpl.
    apply bool_decide_ext. split; [apply prefix_cons_inv_2|apply prefix_cons].
  - rewrite (bool_decide_eq_false_2 (a = c)) by done. simpl.
    apply bool_decide_eq_false_2. by intros ?%prefix_cons_inv_1.
Qed.

Lemma startsWith_empty a t : JS.startsWith (String a t) "" = false.
Proof. apply bool_decide_eq_false_2. intros [k E]. discriminate. Qed.

Lemma resolve_spec_cons p c s :
  named_of p = String c s → ∃ r, resolve_spec p = String c r.
Proof.
  rewrite resolve_spec_named. intros ->.
  destruct (has_extension _); simpl; eauto.
Qed.

(** The resolved path begins with a separator exactly when the path
    component begins with two of them. *)
Lemma resolve_spec_head p :
  JS.startsWith "/" (resolve_spec p) = JS.startsWith "//" p.
Proof.
  destruct p as [|a p].
  { by rewrite startsWith_empty. }
  destruct (decide (a = CHAR_FORWARD_SLASH)) as [->|Ha].
  - destruct p as [|b p].
    { change (resolve_spec "/") with "index.html".
      by rewrite !startsWith_cons, startsWith_empty. }
    destruct (resolve_spec_cons (String CHAR_FORWARD_SLASH (String b p)) b
                (if ends_in_separator (String b p) then p +:+ "index.html" else p))
      as [r ->].
    { unfold named_of, strip_leading_separator.
      rewrite bool_decide_eq_true_2 by done.
      by destruct (ends_in_separator (String b p)). }
    rewrite !startsWith_cons, !startsWith_nil.
    by rewrite (bool_decide_eq_true_2 (CHAR_FORWARD_SLASH = CHAR_FORWARD_SLASH)).
  - destruct (resolve_spec_cons (String a p) a
                (if ends_in_separator (String a p) then p +:+ "index.html" else p))
      as [r ->].
    { unfold named_of, strip_leading_separator.
      rewrite bool_decide_eq_false_2 by done.
      by destruct (ends_in_separator (String a p)). }
    rewrite !startsWith_cons.
    by rewrite !(bool_decide_eq_false_2 (CHAR_FORWARD_SLASH = a)).
Qed.

Lemma resolve_spec_nonempty p : resolve_spec p ≠ "".
Proof.
  destruct (resolve_spec_last p) as (q & c & E & _). intros F.
  rewrite F in E. by destruct q.
Qed.

Lemma resolve_spec_no_trailing_separator p :
  JS.endsWith "/" (resolve_spec p) = false.
Proof.
  destruct (resolve_spec_last p) as (q & c & E & Hc).
  unfold JS.endsWith. rewrite E. apply bool_decide_eq_false_2.
  intros [k Hk]. apply app_inj_tail in Hk as [_ ?]. by subst.
Qed.

Section PathResolver.
Context `{URLApi}.

Lemma getLocalPath_object input base url :
  URL_new input base = Some url →
  getLocalPath url = Some (localPathOf (pathname url)).
Proof. intros E. unfold getLocalPath. by rewrite (URL_new_href _ _ _ E). Qed.


(** C10 (amended).  The resolved path is never empty, never ends in a
    separator, always has an extension in the sense of [path.extname], and
    begins with a separator exactly when the path component of the URL
    begins with two separators. *)
Theorem getLocalPath_shape input base url :
  URL_new input base = Some url →
  ∃ localPath,
    getLocalPath url = Some localPath
    ∧ localPath ≠ ""
    ∧ JS.endsWith "/" localPath = false
    ∧ path_extname localPath ≠ ""
    ∧ JS.startsWith "/" localPath = JS.startsWith "//" (pathname url).
Proof.
  intros E. exists (resolve_spec (pathname url)).
  rewrite (getLocalPath_object _ _ _ E), localPathOf_spec.
  split_and!; [done|..].
  - apply resolve_spec_nonempty.
  - apply resolve_spec_no_trailing_separator.
  - apply resolve_spec_extname.
  - apply resolve_spec_head.
Qed.

End PathResolver.


Lemma getLocalPath_shape_witness :
  ∃ localPath,
    getLocalPath (Example.https "ex.test" "/s.css" "" "") = Some localPath
    ∧ localPath ≠ ""
    ∧ JS.endsWith "/" localPath = false
    ∧ path_extname localPath ≠ ""
    ∧ JS.startsWith "/" localPath = false.
Proof.
  apply (getLocalPath_shape "/s.css" (Some Example.page)). reflexivity.
Defined.

(** C10, as stated, fails: the path resolved for [https://ex.test//x.png]
    begins with a path separator. *)
Lemma getLocalPath_leading_separator :
  Example.new_URL "https://ex.test//x.png" None
    = Some (Example.https "ex.test" "//x.png" "" "")
  ∧ getLocalPath (Example.https "ex.test" "//x.png" "" "") = Some "/x.png"
  ∧ JS.startsWith "/" "/x.png" = true.
Proof. by vm_compute. Qed.

(** ** Extraction only appends to the queue and to the console *)

Ltac unfold_upd :=
  unfold extend, push, log, upd_downloadedFiles, upd_downloadQueue,
    upd_activeDownloads, upd_files, upd_dirs, upd_requests, upd_console,
    upd_loop, upd_pending, upd_settled;
  cbn [baseUrl outputDir downloadedFiles downloadQueue maxConcurrent
       activeDownloads cwd files dirs requests console loop pending settled].

Lemma extend_nil s : extend [] [] s = s.
Proof. destruct s. unfold_upd. by rewrite !app_nil_r. Qed.

Lemma extend_extend new lines new' lines' s :
  extend new' lines' (extend new lines s) = extend (new ++ new') (lines ++ lines') s.
Proof. destruct s. unfold_upd. by rewrite !app_assoc. Qed.

Lemma push_extend it s : push it s = extend [it] [] s.
Proof. destruct s. unfold_upd. by rewrite app_nil_r. Qed.

Lemma log_extend e s : log e s = extend [] [e] s.
Proof. destruct s. unfold_upd. by rewrite app_nil_r. Qed.

Lemma has_extend u new lines s : has u (extend new lines s) = has u s.
Proof. by destruct s. Qed.

Lemma unseen_extend new lines s l : unseen (extend new lines s) l ↔ unseen s l.
Proof. by destruct s. Qed.

Section Extraction.
Context `{URLApi}.

Lemma process_asset_extend base doc s a :
  ∃ new lines,
    (process_asset base (doc, s) a).2 = extend new lines s ∧ unseen s new.
Proof.
  unfold process_asset.
  destruct (URL_new (asset_url a) _ ≫= _) as [[assetUrl localPath]|]; simpl.
  - unfold has. case_bool_decide as Hin; simpl.
    + exists [], []. rewrite extend_nil. by split; [|apply Forall_nil].
    + eexists [_], []. rewrite push_extend. split; [done|].
      by apply Forall_singleton.
  - exists [], [LogInvalidAsset (asset_url a)]. rewrite log_extend. by split; [|apply Forall_nil].
Qed.

Lemma process_assets_extend base assets : ∀ doc s,
  ∃ new lines,
    (foldl (process_asset base) (doc, s) assets).2 = extend new lines s
    ∧ unseen s new.
Proof.
  induction assets as [|a assets IH]; intros doc s; cbn [foldl].
  { exists [], []. rewrite extend_nil. by split; [|apply Forall_nil]. }
  destruct (process_asset_extend base doc s a) as (new & lines & E & F).
  destruct (process_asset base (doc, s) a) as [doc1 s1]; simpl in E; subst s1.
  destruct (IH doc1 (extend new lines s)) as (new' & lines' & E' & F').
  exists (new ++ new'), (lines ++ lines').
  rewrite E', extend_extend. split; [done|].
  apply Forall_app. split; [done|]. by apply unseen_extend in F'.
Qed.

Lemma css_step_extend base filePath text s m :
  ∃ new,
    (processCSSFile_match base filePath (text, s) m).2 = extend new [] s ∧ unseen s new.
Proof.
  unfold processCSSFile_match.
  destruct (URL_new m.2 _ ≫= _) as [[fullAssetUrl localPath]|]; simpl.
  - unfold has. case_bool_decide as Hin; simpl.
    + exists []. rewrite extend_nil. by split; [|apply Forall_nil].
    + eexists [_]. rewrite push_extend. split; [done|].
      by apply Forall_singleton.
  - exists []. rewrite extend_nil. by split; [|apply Forall_nil].
Qed.

Lemma css_rewrite_extend base filePath cssContent s :
  ∃ new,
    (processCSSFile_rewrite base filePath cssContent s).2 = extend new [] s ∧ unseen s new.
Proof.
  unfold processCSSFile_rewrite. generalize (urlRegex_matches cssContent) as ms.
  generalize cssContent at 1 as text. intros text ms. revert text s.
  induction ms as [|m ms IH]; intros text s; cbn [foldl].
  { exists []. rewrite extend_nil. by split; [|apply Forall_nil]. }
  destruct (css_step_extend base filePath text s m) as (new & E & F).
  destruct (processCSSFile_match base filePath (text, s) m) as [text1 s1]; simpl in E; subst s1.
  destruct (IH text1 (extend new [] s)) as (new' & E' & F').
  exists (new ++ new'). rewrite E', extend_extend. split; [done|].
  apply Forall_app. split; [done|]. by apply unseen_extend in F'.
Qed.

End Extraction.

(** ** The scheduler *)

Section Scheduler.
Context `{URLApi}.

Lemma quiescent_inv s : quiescent s → sched_inv s.
Proof.
  intros (Ha & Hp & Hs & Hl & Hm). split.
  - rewrite Ha, Hp, Hs. done.
  - lia.
  - rewrite Hl. done.
Qed.

(** A resumed call either suspends again, in place, or ends, and then
    [activeDownloads] is decremented. *)
Lemma resume_sched i r s s' :
  downloadAsset_resume i r s = Some s' →
  ∃ t, pending s !! i = Some t
    ∧ maxConcurrent s' = maxConcurrent s ∧ settled s' = settled s
    ∧ loop s' = loop s
    ∧ ((∃ ph, pending s' = <[i := Task (task_item t) ph]> (pending s)
           ∧ activeDownloads s' = activeDownloads s)
       ∨ (pending s' = delete i (pending s)
           ∧ activeDownloads s' = activeDownloads s - 1)).
Proof.
  unfold downloadAsset_resume. destruct (pending s !! i) as [t|] eqn:Ht; [|done].
  intros E. injection E as <-. exists t. split; [done|].
  destruct (task_phase t), r; try case_bool_decide;
    try (destruct (files s !! _) as [cssContent|]);
    try (destruct (URL_new (item_url _) None) as [cssBaseUrl|]);
    try (destruct (css_rewrite_extend cssBaseUrl (filePathOf s (task_item t)) cssContent s)
           as (new & E & _);
         destruct (processCSSFile_rewrite cssBaseUrl _ cssContent s) as [updatedCSS s1];
         simpl in E; subst s1);
    destruct s; unfold_upd; eauto 10.
Qed.

Lemma tick_max s : maxConcurrent (processDownloadQueue_turn s) = maxConcurrent s.
Proof.
  destruct s as [b o d q m a w fs ds rq c l p n].
  unfold processDownloadQueue_turn, processDownloadQueue_wait, downloadAsset_begin, has. unfold_upd.
  destruct (_ || _); [|done].
  destruct q as [|it rest]; [done|].
  destruct (bool_decide (_ < _)); [|done].
  by destruct (bool_decide (_ ∈ d)).
Qed.

Lemma step_max a s s' : step a s = Some s' → maxConcurrent s' = maxConcurrent s.
Proof.
  unfold step. destruct a, (loop s); intros E; simplify_eq; try done.
  - apply tick_max.
  - by destruct s.
  - by apply resume_sched in E as (t & _ & ? & _).
Qed.

Lemma tick_inv s : loop s = Running → sched_inv s → sched_inv (processDownloadQueue_turn s).
Proof.
  destruct s as [b o d q m a w fs ds rq c l p n].
  intros Hl [Hc Hm He]. simpl in *. subst l. clear He.
  unfold processDownloadQueue_turn, processDownloadQueue_wait, downloadAsset_begin, has. unfold_upd.
  destruct (bool_decide (0 < Z.of_nat (length q))) eqn:Hq; simpl.
  - destruct q as [|it rest]; [done|].
    destruct (bool_decide (a < m)) eqn:Hlt.
    + apply bool_decide_eq_true in Hlt.
      destruct (bool_decide (item_url it ∈ d)); split; simpl;
        rewrite ?length_app; simpl; try lia; done.
    + split; simpl; [lia|lia|done].
  - apply bool_decide_eq_false in Hq.
    destruct q; [|simpl in Hq; lia].
    destruct (bool_decide (0 < a)) eqn:Ha; split; simpl; try lia; try done.
    apply bool_decide_eq_false in Ha.
    intros _. destruct p, n; simpl in *; try done; lia.
Qed.

Lemma step_inv a s s' : step a s = Some s' → sched_inv s → sched_inv s'.
Proof.
  unfold step. intros E Hinv.
  destruct a, (loop s) eqn:Hl; simplify_eq.
  - by apply tick_inv.
  - destruct Hinv as [Hc Hm He]. destruct s; split; simpl in *; done.
  - apply resume_sched in E as (t & Ht & Emax & Eset & Eloop & Hcase).
    destruct Hinv as [Hc Hm He].
    apply lookup_lt_Some in Ht as Hlt.
    split.
    + destruct Hcase as [(ph & -> & ->)|[-> ->]].
      * by rewrite length_insert, Eset.
      * rewrite length_delete by eauto. rewrite Eset. lia.
    + destruct Hcase as [(ph & _ & ->)|[_ ->]]; lia.
    + rewrite Eloop, Hl. done.
Qed.

Lemma run_inv acts : ∀ s s', run acts s = Some s' → sched_inv s → sched_inv s'.
Proof.
  induction acts as [|a acts IH]; intros s s' E Hinv; simpl in E.
  { by simplify_eq. }
  destruct (step a s) as [s1|] eqn:Hs; [|done]. simpl in E.
  eauto using step_inv.
Qed.

Lemma run_max acts : ∀ s s', run acts s = Some s' → maxConcurrent s' = maxConcurrent s.
Proof.
  induction acts as [|a acts IH]; intros s s' E; simpl in E.
  { by simplify_eq. }
  destruct (step a s) as [s1|] eqn:Hs; [|done]. simpl in E.
  rewrite (IH _ _ E). by eapply step_max.
Qed.

Lemma in_flight_le s : (in_flight s ≤ length (pending s))%nat.
Proof. apply length_filter. Qed.

(** Only the loop, taking an item from the queue, issues a request, and it
    does so below the ceiling. *)
Lemma step_request a s s' :
  step a s = Some s' → requests s' ≠ requests s →
  a = Tick ∧ activeDownloads s < maxConcurrent s.
Proof.
  unfold step. intros E Hreq.
  destruct a, (loop s) eqn:Hl; simplify_eq.
  - split; [done|]. revert Hreq.
    destruct s as [b o d q m a w fs ds rq c l p n].
    unfold processDownloadQueue_turn, processDownloadQueue_wait. unfold_upd.
    destruct (_ || _); [|done].
    destruct q; [done|].
    by case_bool_decide.
  - by destruct s.
  - exfalso. apply Hreq. revert E. unfold downloadAsset_resume.
    destruct (pending s !! i) as [t|]; [|done]. intros E. injection E as <-.
    destruct (task_phase t), r; try case_bool_decide;
      try (destruct (files s !! _) as [cssContent|]);
      try (destruct (URL_new (item_url _) None) as [cssBaseUrl|]);
      try (destruct (css_rewrite_extend cssBaseUrl (filePathOf s (task_item t)) cssContent s)
             as (new & E & _);
           destruct (processCSSFile_rewrite cssBaseUrl _ cssContent s) as [updatedCSS s1];
           simpl in E; subst s1);
      destruct s; by unfold_upd.
Qed.

End Scheduler.

(** ** The page download leaves the scheduler alone *)

Lemma sched_fields_extend new lines s :
  sched_fields (extend new lines s) = sched_fields s.
Proof. by destruct s. Qed.

Section Page.
Context `{URLApi} `{Cheerio}.

Lemma processAssets_extend doc url s doc' s' :
  processAssets doc url s = Some (doc', s') →
  ∃ new lines, s' = extend new lines s ∧ unseen s new.
Proof.
  unfold processAssets. destruct (URL_new url None) as [base|]; [|done].
  simpl. intros E. injection E as E.
  destruct (process_assets_extend base (find_assets doc) doc s)
    as (new & lines & E' & F).
  rewrite E in E'. simpl in E'. eauto.
Qed.

Lemma downloadPage_sched url filename env s :
  sched_fields (downloadPage url filename env s) = sched_fields s.
Proof.
  unfold downloadPage.
  destruct (page_get env) as [data|msg]; [|by destruct s].
  destruct (processAssets _ url _) as [[doc s1]|] eqn:E; [|by destruct s].
  apply processAssets_extend in E as (new & lines & -> & _).
  destruct (rewriteLinks doc url _), (page_ensureDir env), (page_writeFile env);
    by destruct s.
Qed.

Lemma constructor_quiescent baseUrl outputDir cwd s :
  constructor baseUrl outputDir cwd = Some s →
  quiescent s ∧ maxConcurrent s = 5
  ∧ downloadQueue s = [] ∧ downloadedFiles s = ∅ ∧ requests s = [].
Proof.
  unfold constructor. destruct (URL_new baseUrl None); [|done].
  intros E. injection E as <-. by repeat split.
Qed.

Lemma clone_page_sched ensureOut env s s1 :
  clone_page ensureOut env s = inr s1 → sched_fields s1 = sched_fields s.
Proof.
  unfold clone_page. destruct ensureOut; [|done].
  intros E. injection E as <-. rewrite downloadPage_sched. by destruct s.
Qed.

End Page.

Lemma quiescent_fields s s' :
  sched_fields s' = sched_fields s → quiescent s → quiescent s'.
Proof.
  unfold sched_fields, quiescent. intros E. injection E as -> -> -> -> ->. done.
Qed.

(** ** Bounded concurrency *)

Section Bounded.
Context `{URLApi} `{Cheerio}.

(** C3.  In every state the drain loop of a clone can reach, the fetches
    in flight are at most [activeDownloads], which is at most the ceiling
    of 5 set by the constructor; and a step that issues a request starts
    from a state where [activeDownloads] is strictly below it. *)
Theorem bounded_concurrency baseUrl outputDir cwd ensureOut env acts s0 s1 s :
  constructor baseUrl outputDir cwd = Some s0 →
  clone_page ensureOut env s0 = inr s1 →
  run acts s1 = Some s →
  maxConcurrent s = 5
  ∧ Z.of_nat (in_flight s) ≤ activeDownloads s ≤ maxConcurrent s
  ∧ (∀ a s', step a s = Some s' → requests s' ≠ requests s →
             activeDownloads s < maxConcurrent s).
Proof.
  intros (Hq & Hmax & _)%constructor_quiescent Hpage%clone_page_sched Hrun.
  assert (maxConcurrent s1 = 5) as Hmax1.
  { unfold sched_fields in Hpage. injection Hpage as -> _ _ _ _. exact Hmax. }
  assert (sched_inv s) as [Hc Hm _].
  { eapply run_inv; [done|]. apply quiescent_inv. by eapply quiescent_fields. }
  split; [by rewrite (run_max _ _ _ Hrun)|]. split.
  - split; [|done]. pose proof (in_flight_le s). lia.
  - intros a s' Hstep Hreq. by eapply step_request.
Qed.

End Bounded.

(** Evaluation of the model on closed terms. *)
Ltac by_compute :=
  lazymatch goal with
  | |- ?a = ?b => vm_cast_no_check (@eq_refl _ b)
  end.

Lemma bounded_concurrency_witness :
  constructor Example.page "out" "/home/u" = Some Example.created
  ∧ clone_page (Resolved "")
      (PageIO (Resolved Example.entry_html) (Resolved "") (Resolved ""))
      Example.created
    = inr Example.s_page
  ∧ run [Tick; Tick; Tick] Example.s_page = Some Example.s_fetching
  ∧ maxConcurrent Example.s_fetching = 5
  ∧ Z.of_nat (in_flight Example.s_fetching)
    ≤ activeDownloads Example.s_fetching ≤ maxConcurrent Example.s_fetching.
Proof.
  assert (constructor Example.page "out" "/home/u" = Some Example.created)
    as E0 by by_compute.
  assert (clone_page (Resolved "")
            (PageIO (Resolved Example.entry_html) (Resolved "") (Resolved ""))
            Example.created = inr Example.s_page) as E1 by by_compute.
  assert (run [Tick; Tick; Tick] Example.s_page = Some Example.s_fetching)
    as E2 by by_compute.
  destruct (bounded_concurrency _ _ _ _ _ _ _ _ _ E0 E1 E2) as (Hmax & Hbound & _).
  exact (conj E0 (conj E1 (conj E2 (conj Hmax Hbound)))).
Defined.

(** ** What settling an awaited operation does to the rest of the state *)

Section Settle.
Context `{URLApi}.

(** The case analysis of [downloadAsset_resume]: the phase, the result, and for a
    stylesheet the text read and its base URL. *)
Ltac resume_cases E t Ht :=
  match type of E with
  | downloadAsset_resume ?i ?r ?s = Some _ =>
      unfold downloadAsset_resume in E;
      destruct (pending s !! i) as [t|] eqn:Ht; [|done];
      cbn [mbind option_bind] in E; injection E as <-;
      destruct (task_phase t) eqn:?, r; try case_bool_decide;
      try (destruct (files s !! _));
      try (destruct (URL_new (item_url _) None));
      try match goal with
          | |- context [processCSSFile_rewrite ?b ?fp ?c s] =>
              let E' := fresh "E" in
              let s1 := fresh "s" in
              destruct (css_rewrite_extend b fp c s) as (new & E' & Hnew);
              destruct (processCSSFile_rewrite b fp c s) as [updatedCSS s1];
              simpl in E'; subst s1
          end
  end.

Lemma resume_effect i r s s' :
  downloadAsset_resume i r s = Some s' →
  ∃ t new,
    pending s !! i = Some t
    ∧ downloadQueue s' = downloadQueue s ++ new ∧ unseen s new
    ∧ requests s' = requests s
    ∧ (downloadedFiles s' = downloadedFiles s
       ∨ downloadedFiles s' = {[item_url (task_item t)]} ∪ downloadedFiles s)
    ∧ (new ≠ [] →
         task_phase t = AwaitReadCSS
         ∧ (∃ updatedCSS,
              pending s' = <[i := Task (task_item t) (AwaitWriteCSS updatedCSS)]> (pending s))
         ∧ activeDownloads s' = activeDownloads s).
Proof.
  intros E. resume_cases E t Ht; exists t;
    first [ exists new | exists [] ]; (split; [done|]);
    destruct s; unfold_upd; rewrite ?app_nil_r;
    (split_and!; [done|done || apply Forall_nil|done|auto|]);
    first [ by intros [] | eauto ].
Qed.

(** A failed download is logged and dropped: the queue, the requests,
    the downloaded set, the files and the other pending calls are as they
    were. *)
Lemma resume_rejected i msg s t :
  pending s !! i = Some t →
  (task_phase t = AwaitGet ∨ (∃ data, task_phase t = AwaitEnsureDir data)
   ∨ (∃ data, task_phase t = AwaitWriteFile data)) →
  ∃ s', downloadAsset_resume i (Rejected msg) s = Some s'
    ∧ console s' = console s ++ [LogError (item_url (task_item t)) msg]
    ∧ downloadQueue s' = downloadQueue s
    ∧ requests s' = requests s
    ∧ downloadedFiles s' = downloadedFiles s
    ∧ files s' = files s
    ∧ pending s' = delete i (pending s)
    ∧ activeDownloads s' = activeDownloads s - 1
    ∧ loop s' = loop s.
Proof.
  intros Ht Hph. unfold downloadAsset_resume. rewrite Ht. cbn [mbind option_bind].
  eexists. split; [done|].
  destruct Hph as [->|[[data ->]| [data ->]]]; destruct s; by unfold_upd.
Qed.

(** [downloadedFiles] grows only when a pending download has been
    written. *)
Lemma resume_downloaded i r s s' u :
  downloadAsset_resume i r s = Some s' → u ∈ downloadedFiles s' → u ∉ downloadedFiles s →
  ∃ t data data',
    r = Resolved data' ∧ pending s !! i = Some t
    ∧ task_phase t = AwaitWriteFile data ∧ item_url (task_item t) = u.
Proof.
  intros E. resume_cases E t Ht; destruct s; unfold_upd; intros Hu Hnu;
    try done;
    apply elem_of_union in Hu as [->%elem_of_singleton|Hu]; try done; eauto 10.
Qed.

End Settle.

(** ** One turn of the loop *)

Lemma tick_effect s :
  downloadedFiles (processDownloadQueue_turn s) = downloadedFiles s
  ∧ ((downloadQueue (processDownloadQueue_turn s) = downloadQueue s
      ∧ requests (processDownloadQueue_turn s) = requests s
      ∧ pending (processDownloadQueue_turn s) = pending s)
     ∨ (∃ it rest,
          downloadQueue s = it :: rest ∧ downloadQueue (processDownloadQueue_turn s) = rest
          ∧ activeDownloads s < maxConcurrent s
          ∧ ((item_url it ∈ downloadedFiles s
              ∧ requests (processDownloadQueue_turn s) = requests s
              ∧ pending (processDownloadQueue_turn s) = pending s)
             ∨ ((item_url it ∉ downloadedFiles s)
                ∧ requests (processDownloadQueue_turn s) = requests s ++ [item_url it]
                ∧ pending (processDownloadQueue_turn s) = pending s ++ [Task it AwaitGet])))).
Proof.
  destruct s as [b o d q m a w fs ds rq c l p n].
  unfold processDownloadQueue_turn, processDownloadQueue_wait, downloadAsset_begin, has. unfold_upd.
  destruct (_ || _); [|by auto].
  destruct q as [|it rest]; [by auto|].
  destruct (bool_decide (a < m)) eqn:Hlt; [|by auto].
  apply bool_decide_eq_true in Hlt.
  destruct (bool_decide (item_url it ∈ d)) eqn:Hin.
  - apply bool_decide_eq_true in Hin. split; [done|]. right. eauto 10.
  - apply bool_decide_eq_false in Hin. split; [done|]. right. eauto 10.
Qed.

Section Drain.
Context `{URLApi}.

Lemma step_downloaded a s s' :
  step a s = Some s' → downloadedFiles s ⊆ downloadedFiles s'.
Proof.
  unfold step. intros E. destruct a, (loop s); simplify_eq.
  - by rewrite (proj1 (tick_effect s)).
  - by destruct s.
  - apply resume_effect in E as (t & new & _ & _ & _ & _ & [->| ->] & _);
      set_solver.
Qed.

Lemma step_requests a s s' :
  step a s = Some s' → requests s `prefix_of` requests s'.
Proof.
  unfold step. intros E. destruct a, (loop s); simplify_eq.
  - destruct (tick_effect s) as [_ [(_ & -> & _)|(it & rest & _ & _ & _ & Hc)]];
      [done|].
    destruct Hc as [(_ & -> & _)|(_ & -> & _)]; [done|]. by apply prefix_app_r.
  - by destruct s.
  - by apply resume_effect in E as (t & new & _ & _ & _ & -> & _).
Qed.

Lemma run_downloaded acts : ∀ s s',
  run acts s = Some s' → downloadedFiles s ⊆ downloadedFiles s'.
Proof.
  induction acts as [|a acts IH]; intros s s' E; simpl in E.
  { by simplify_eq. }
  destruct (step a s) as [s1|] eqn:Hs; [|done]. simpl in E.
  etrans; [by eapply step_downloaded|by eapply IH].
Qed.

Lemma run_requests acts : ∀ s s',
  run acts s = Some s' → requests s `prefix_of` requests s'.
Proof.
  induction acts as [|a acts IH]; intros s s' E; simpl in E.
  { by simplify_eq. }
  destruct (step a s) as [s1|] eqn:Hs; [|done]. simpl in E.
  etrans; [by eapply step_requests|by eapply IH].
Qed.

(** A queued item stays queued until it is dequeued, and a dequeued item
    is either requested or already downloaded. *)
Lemma step_queue a s s' it :
  step a s = Some s' → it ∈ downloadQueue s →
  it ∈ downloadQueue s' ∨ item_url it ∈ requests s'
  ∨ item_url it ∈ downloadedFiles s'.
Proof.
  unfold step. intros E Hit. destruct a, (loop s); simplify_eq.
  - destruct (tick_effect s) as [Ed [(Eq & _)|(it' & rest & Hq & Eq & _ & Hc)]].
    { left. congruence. }
    rewrite Hq in Hit. apply elem_of_cons in Hit as [->|Hit].
    + right. destruct Hc as [(Hin & _)|(_ & Er & _)].
      * right. congruence.
      * left. rewrite Er. apply elem_of_app. right. by apply list_elem_of_singleton.
    + left. congruence.
  - left. by destruct s.
  - apply resume_effect in E as (t & new & _ & Eq & _). left.
    rewrite Eq. apply elem_of_app. by left.
Qed.

(** When the loop has been left, everything that was ever in the queue
    has been requested, or was found downloaded when its turn came. *)
Lemma run_drains acts : ∀ s s' it,
  run acts s = Some s' → sched_inv s → loop s' = Exited →
  it ∈ downloadQueue s →
  item_url it ∈ requests s' ∨ item_url it ∈ downloadedFiles s'.
Proof.
  induction acts as [|a acts IH]; intros s s' it E Hinv Hexit Hit; simpl in E.
  { simplify_eq. destruct (inv_exited _ Hinv Hexit) as (Hq & _).
    rewrite Hq in Hit. by apply elem_of_nil in Hit. }
  destruct (step a s) as [s1|] eqn:Hs; [|done]. simpl in E.
  destruct (step_queue _ _ _ _ Hs Hit) as [Hq|[Hr|Hd]].
  - eapply IH; eauto using step_inv.
  - left. by eapply elem_of_prefix, run_requests.
  - right. by eapply run_downloaded.
Qed.

Lemma step_provenance D0 a s s' :
  step a s = Some s' → provenance D0 s → provenance D0 s'.
Proof.
  unfold step. intros E [Hd Hp]. destruct a, (loop s); simplify_eq.
  - destruct (tick_effect s) as [Ed [(_ & Er & Ep)|(it & rest & _ & _ & _ & Hc)]].
    { split; intros x Hx; [rewrite Er|rewrite Er; apply Hp]; [apply Hd|]; congruence. }
    destruct Hc as [(_ & Er & Ep)|(_ & Er & Ep)]; split; intros x Hx.
    + rewrite Er. apply Hd. congruence.
    + rewrite Er. apply Hp. congruence.
    + rewrite Er. destruct (Hd x) as [?|?]; [congruence|by left|].
      right. apply elem_of_app. by left.
    + rewrite Er. apply elem_of_app. rewrite Ep in Hx.
      apply elem_of_app in Hx as [Hx| ->%list_elem_of_singleton].
      * left. by apply Hp.
      * right. by apply list_elem_of_singleton.
  - by destruct s.
  - pose proof (resume_sched _ _ _ _ E) as (t & Ht & _ & _ & _ & Hcase).
    apply resume_effect in E as (t' & new & Ht' & _ & _ & Er & Hdl & _).
    rewrite Ht in Ht'. injection Ht' as <-. unfold provenance. rewrite Er.
    assert (item_url (task_item t) ∈ requests s) as Hreq.
    { apply Hp. by eapply list_elem_of_lookup_2. }
    split.
    + intros u Hu. destruct Hdl as [Hdl|Hdl]; rewrite Hdl in Hu; [by apply Hd|].
      apply elem_of_union in Hu as [->%elem_of_singleton|Hu]; [by right|by apply Hd].
    + intros t2 Ht2. destruct Hcase as [(ph & Ep & _)|(Ep & _)]; rewrite Ep in Ht2.
      * apply list_elem_of_lookup in Ht2 as [k Hk].
        destruct (decide (k = i)) as [->|Hne].
        -- rewrite list_lookup_insert_eq in Hk by (by eapply lookup_lt_Some).
           by simplify_eq.
        -- rewrite list_lookup_insert_ne in Hk by done.
           apply Hp. by eapply list_elem_of_lookup_2.
      * apply Hp. eapply elem_of_sublist; [done|apply sublist_delete].
Qed.

Lemma run_provenance D0 acts : ∀ s s',
  run acts s = Some s' → provenance D0 s → provenance D0 s'.
Proof.
  induction acts as [|a acts IH]; intros s s' E Hp; simpl in E.
  { by simplify_eq. }
  destruct (step a s) as [s1|] eqn:Hs; [|done]. simpl in E.
  eauto using step_provenance.
Qed.

End Drain.

(** ** Failed downloads *)

Section Failure.
Context `{URLApi}.

(** C8.  When the request, the creation of the directory or the write of
    a pending download fails, the error is logged and the call ends: the
    item is not queued again, nothing is requested, the downloaded set,
    the files, the other pending calls and the loop are untouched, and
    [activeDownloads] is decremented.  Whatever the result, a call that
    ends decrements [activeDownloads] and a call that goes on stays
    counted. *)
Theorem asset_failure_is_local i msg s t :
  pending s !! i = Some t →
  (task_phase t = AwaitGet ∨ (∃ data, task_phase t = AwaitEnsureDir data)
   ∨ (∃ data, task_phase t = AwaitWriteFile data)) →
  (∃ s', downloadAsset_resume i (Rejected msg) s = Some s'
     ∧ console s' = console s ++ [LogError (item_url (task_item t)) msg]
     ∧ downloadQueue s' = downloadQueue s
     ∧ requests s' = requests s
     ∧ downloadedFiles s' = downloadedFiles s
     ∧ files s' = files s
     ∧ pending s' = delete i (pending s)
     ∧ activeDownloads s' = activeDownloads s - 1
     ∧ loop s' = loop s)
  ∧ (∀ r s', downloadAsset_resume i r s = Some s' →
       (pending s' = delete i (pending s)
        ∧ activeDownloads s' = activeDownloads s - 1)
       ∨ (∃ ph, pending s' = <[i := Task (task_item t) ph]> (pending s)
                ∧ activeDownloads s' = activeDownloads s)).
Proof.
  intros Ht Hph. split; [by apply resume_rejected|].
  intros r s' E.
  apply resume_sched in E as (t' & Ht' & _ & _ & _ & Hcase).
  rewrite Ht in Ht'. injection Ht' as <-. destruct Hcase; auto.
Qed.

End Failure.

(** ** Draining to a fixpoint *)

Section DrainFixpoint.
Context `{URLApi}.

(** C4.  The loop is left only with an empty queue, no active download
    and no pending call.  Whatever a settled operation appends to the
    queue (the references of a stylesheet) is appended while the call that
    found it is still pending and counted in [activeDownloads], and has
    been requested by the time the loop is left. *)
Theorem drain_is_a_fixpoint acts1 i r acts2 s0 s1 s2 s3 :
  quiescent s0 →
  run acts1 s0 = Some s1 →
  step (Settle i r) s1 = Some s2 →
  run acts2 s2 = Some s3 →
  loop s3 = Exited →
  (downloadQueue s3 = [] ∧ activeDownloads s3 = 0 ∧ pending s3 = [])
  ∧ ∃ new,
      downloadQueue s2 = downloadQueue s1 ++ new
      ∧ (new ≠ [] →
           (∃ t, pending s2 !! i = Some t) ∧ 0 < activeDownloads s2
           ∧ loop s2 ≠ Exited)
      ∧ (∀ it, it ∈ new → item_url it ∈ requests s3).
Proof.
  intros Hq Hrun1 Hstep Hrun2 Hexit.
  pose proof (quiescent_inv _ Hq) as Hinv0.
  pose proof (run_inv _ _ _ Hrun1 Hinv0) as Hinv1.
  pose proof (step_inv _ _ _ Hstep Hinv1) as Hinv2.
  pose proof (run_inv _ _ _ Hrun2 Hinv2) as Hinv3.
  split.
  { destruct (inv_exited _ Hinv3 Hexit) as (Eq & Ep & Es).
    pose proof (inv_count _ Hinv3) as Ec. rewrite Ep, Es in Ec. done. }
  assert (provenance (downloadedFiles s0) s3) as [Hprov _].
  { eapply run_provenance; [done|]. eapply step_provenance; [done|].
    eapply run_provenance; [done|]. destruct Hq as (_ & Hp & _).
    split; [by left|]. rewrite Hp. by intros t ?%elem_of_nil. }
  unfold step in Hstep. destruct (loop s1) eqn:Hl1; try done.
  pose proof (resume_sched _ _ _ _ Hstep) as (t & Ht & _ & _ & Hl2 & _).
  pose proof (resume_effect _ _ _ _ Hstep)
    as (t' & new & _ & Eq & Hnew & _ & _ & Hcss).
  exists new. split; [done|]. split.
  - intros Hne. destruct (Hcss Hne) as (_ & [updatedCSS Ep] & Ea).
    apply lookup_lt_Some in Ht.
    split; [|split].
    + rewrite Ep. eexists. by apply list_lookup_insert_eq.
    + rewrite Ea. pose proof (inv_count _ Hinv1). lia.
    + rewrite Hl2, Hl1. done.
  - intros it Hit.
    destruct (run_drains acts2 s2 s3 it) as [Hr|Hd]; try done.
    { rewrite Eq. apply elem_of_app. by right. }
    destruct (Hprov _ Hd) as [Hd0|Hr]; [|done].
    exfalso. eapply Forall_forall in Hnew; [|done].
    apply Hnew. by eapply run_downloaded.
Qed.

End DrainFixpoint.

(** ** De-duplication *)

Section Dedup.
Context `{URLApi}.




End Dedup.

Lemma asset_failure_is_local_witness :
  ∃ s',
    downloadAsset_resume 1 (Rejected "404") Example.s_fetching = Some s'
    ∧ console s'
      = console Example.s_fetching ++ [LogError "https://ex.test/pic.png" "404"]
    ∧ downloadQueue s' = downloadQueue Example.s_fetching
    ∧ requests s' = requests Example.s_fetching
    ∧ downloadedFiles s' = downloadedFiles Example.s_fetching
    ∧ files s' = files Example.s_fetching
    ∧ pending s' = delete 1%nat (pending Example.s_fetching)
    ∧ activeDownloads s' = activeDownloads Example.s_fetching - 1
    ∧ loop s' = loop Example.s_fetching.
Proof.
  apply (asset_failure_is_local 1 "404" Example.s_fetching
           (Task Example.pic_png AwaitGet)).
  - by_compute.
  - by left.
Defined.

Lemma drain_is_a_fixpoint_witness :
  quiescent Example.s_page
  ∧ run Example.until_written Example.s_page = Some Example.s_written
  ∧ step (Settle 0 (Resolved "")) Example.s_written = Some Example.s_extracted
  ∧ run Example.until_exit Example.s_extracted = Some Example.s_exit
  ∧ loop Example.s_exit = Exited
  ∧ downloadQueue Example.s_extracted
    = downloadQueue Example.s_written ++ [Example.bg_png]
  ∧ "https://ex.test/bg.png" ∈ requests Example.s_exit
  ∧ downloadQueue Example.s_exit = [] ∧ activeDownloads Example.s_exit = 0
  ∧ pending Example.s_exit = [].
Proof.
  assert (quiescent Example.s_page) as Hq.
  { unfold quiescent. split_and!; [by_compute..|]. vm_compute. discriminate. }
  assert (run Example.until_written Example.s_page = Some Example.s_written)
    as E1 by by_compute.
  assert (step (Settle 0 (Resolved "")) Example.s_written = Some Example.s_extracted)
    as E2 by by_compute.
  assert (run Example.until_exit Example.s_extracted = Some Example.s_exit)
    as E3 by by_compute.
  assert (loop Example.s_exit = Exited) as E4 by by_compute.
  assert (downloadQueue Example.s_extracted
          = downloadQueue Example.s_written ++ [Example.bg_png]) as E5
    by by_compute.
  destruct (drain_is_a_fixpoint _ _ _ _ _ _ _ _ Hq E1 E2 E3 E4)
    as [Hexit (new & Eq & _ & Hreq)].
  refine (conj Hq (conj E1 (conj E2 (conj E3 (conj E4 (conj E5 (conj _ Hexit))))))).
  apply (Hreq Example.bg_png).
  rewrite E5 in Eq. apply app_inv_head in Eq. rewrite <- Eq.
  apply list_elem_of_singleton. reflexivity.
Defined.



(** ** Failure of the entry page *)

Section Entry.
Context `{URLApi} `{Cheerio}.

(** With nothing queued and nothing active the loop can only be left. *)
Lemma run_idle acts s s' :
  loop s = Running → downloadQueue s = [] → activeDownloads s = 0 →
  run acts s = Some s' →
  (acts = [] ∧ s' = s) ∨ (acts = [Tick] ∧ s' = upd_loop (λ _, Exited) s).
Proof.
  intros Hl Hq Ha E. destruct acts as [|a acts]; simpl in E.
  { left. by simplify_eq. }
  right. unfold step in E. rewrite Hl in E. destruct a; try done. simpl in E.
  assert (processDownloadQueue_turn s = upd_loop (λ _, Exited) s) as Et.
  { unfold processDownloadQueue_turn. by rewrite Hq, Ha. }
  rewrite Et in E. destruct acts as [|a' acts]; simpl in E.
  { by simplify_eq. }
  unfold step in E. destruct s. by destruct a'.
Qed.

(** C2 (amended).  When the request for the entry page fails, the error is
    logged, no other request is made and no file is written; [clone] does
    not throw: the loop is left at once and the clone is reported as
    completed. *)
Theorem entry_failure_is_logged url dir wd ensured env msg s0 :
  constructor url dir wd = Some s0 →
  page_get env = Rejected msg →
  (∀ acts message s, clone (Resolved ensured) env acts s0 ≠ Thrown message s)
  ∧ (∀ acts s, clone (Resolved ensured) env acts s0 = Fulfilled s → acts = [Tick])
  ∧ ∃ s, clone (Resolved ensured) env [Tick] s0 = Fulfilled s
      ∧ requests s = [href (baseUrl s0)]
      ∧ files s = ∅
      ∧ downloadedFiles s = ∅
      ∧ console s
        = [LogStart (href (baseUrl s0)) dir; LogPage (href (baseUrl s0));
           LogError (href (baseUrl s0)) msg; LogCompleted;
           LogSaved (Path.resolve wd dir)].
Proof.
  unfold constructor. destruct (URL_new url None) as [base|]; [|done].
  intros E Hget. injection E as <-.
  set (s1 := downloadPage (href base) "index.html" env
               (upd_dirs (λ d, {[dir]} ∪ d)
                  (log (LogStart (href base) dir)
                     (State base dir ∅ [] 5 0 wd ∅ ∅ [] [] Running [] 0)))).
  assert (∀ acts, clone (Resolved ensured) env acts
                    (State base dir ∅ [] 5 0 wd ∅ ∅ [] [] Running [] 0)
                  = match run acts s1 with
                    | Some s' =>
                        if bool_decide (loop s' = Exited)
                        then Fulfilled (log (LogSaved (Path.resolve (cwd s') (outputDir s')))
                                          (log LogCompleted s'))
                        else Unsettled s'
                    | None => Unsettled s1
                    end) as Eclone by done.
  assert (s1 = State base dir ∅ [] 5 0 wd ∅ {[dir]}
                 [href base]
                 [LogStart (href base) dir; LogPage (href base);
                  LogError (href base) msg] Running [] 0) as Es1.
  { unfold s1, downloadPage. rewrite Hget. unfold_upd.
    by rewrite (right_id_L ∅ (∪)). }
  clearbody s1. subst s1.
  split; [|split].
  - intros acts message s. rewrite Eclone.
    destruct (run acts _); [case_bool_decide|]; done.
  - intros acts s. rewrite Eclone.
    destruct (run acts _) as [s'|] eqn:Hrun; [|done].
    apply run_idle in Hrun as [[-> ->]|[-> ->]]; done.
  - eexists. rewrite Eclone. simpl. split; [done|]. done.
Qed.

End Entry.

Lemma entry_failure_is_logged_witness :
  ∃ s, clone (Resolved "") Example.not_found [Tick] Example.created = Fulfilled s
    ∧ requests s = ["https://ex.test/"]
    ∧ files s = ∅
    ∧ downloadedFiles s = ∅
    ∧ console s
      = [LogStart "https://ex.test/" "out"; LogPage "https://ex.test/";
         LogError "https://ex.test/" "Request failed with status code 404";
         LogCompleted; LogSaved (Path.resolve "/home/u" "out")].
Proof.
  apply (entry_failure_is_logged Example.page "out" "/home/u" "" Example.not_found
           "Request failed with status code 404" Example.created).
  - by_compute.
  - reflexivity.
Defined.

(** C2, as stated, fails: when the entry page answers 404 the promise
    returned by [clone] is fulfilled, after the completion message has been
    logged; no failure reaches the caller. *)
Lemma entry_404_is_not_reported :
  clone (Resolved "") Example.not_found [Tick] Example.created
    = Fulfilled Example.s_404
  ∧ console Example.s_404
    = [LogStart "https://ex.test/" "out"; LogPage "https://ex.test/";
       LogError "https://ex.test/" "Request failed with status code 404";
       LogCompleted; LogSaved "/home/u/out"].
Proof. split; by_compute. Qed.

(** ** References that do not parse *)

Section Invalid.
Context `{URLApi}.





End Invalid.


(** The reference after the broken one is still rewritten and queued. *)
Lemma broken_doc_processed :
  (prod_map id downloadQueue <$>
     processAssets Example.broken_doc Example.page Example.created)
  = Some ([Example.link "stylesheet" "http://["; Example.img_src "./pic.png"],
          [Example.pic_png]).
Proof. by_compute. Qed.

(** ** Responsive image sets *)

(** C7 fails on the code: a candidate of [srcset] is recorded as an image
    and [updateAssetReference] writes its local path into [src]; the
    [srcset] attribute keeps its remote reference and the path of the
    image's own source is overwritten. *)
Lemma srcset_entry_overwrites_src :
  (prod_map id downloadQueue <$>
     processAssets Example.picture_doc Example.page Example.created)
  = Some ([Element "img" {[ "src" := "./b.png"; "srcset" := "b.png 2x" ]}],
          [Item "https://ex.test/a.png" "a.png" img;
           Item "https://ex.test/b.png" "b.png" img]).
Proof. by_compute. Qed.

(** ** Paths *)

Lemma split_chars_cons sep cs : ∃ piece pieces, JS.split_chars sep cs = piece :: pieces.
Proof.
  induction cs as [|c cs (h & t & IH)]; simpl; [eauto|].
  case_bool_decide; [eauto|]. rewrite IH. eauto.
Qed.

Lemma split_chars_app sep a b :
  JS.split_chars sep (a ++ sep :: b) = JS.split_chars sep a ++ JS.split_chars sep b.
Proof.
  induction a as [|c a IH]; simpl.
  { by rewrite bool_decide_eq_true_2. }
  rewrite IH. case_bool_decide; [done|].
  by destruct (split_chars_cons sep a) as (h & t & ->).
Qed.

Lemma split_chars_none sep cs : sep ∉ cs → JS.split_chars sep cs = [cs].
Proof.
  induction cs as [|c cs IH]; simpl; [done|].
  intros [Hc Hcs]%not_elem_of_cons.
  rewrite bool_decide_eq_false_2 by done. by rewrite IH.
Qed.

Lemma split_chars_pieces sep cs : Forall (λ piece, sep ∉ piece) (JS.split_chars sep cs).
Proof.
  induction cs as [|c cs IH]; simpl.
  { repeat constructor. apply not_elem_of_nil. }
  case_bool_decide.
  { constructor; [apply not_elem_of_nil|done]. }
  destruct (JS.split_chars sep cs) as [|h t]; inversion_clear IH.
  - repeat constructor. by intros ->%list_elem_of_singleton.
  - constructor; [|done]. intros [->|?]%elem_of_cons; done.
Qed.

Lemma segments_noslash p : Forall noslash (Path.segments p).
Proof.
  unfold Path.segments, JS.split. apply Forall_fmap.
  eapply Forall_impl; [apply split_chars_pieces|].
  intros piece Hp. unfold noslash. simpl. by rewrite chars_str.
Qed.

Lemma segments_app a b :
  Path.segments (a +:+ "/" +:+ b) = Path.segments a ++ Path.segments b.
Proof.
  unfold Path.segments, JS.split. rewrite !chars_app.
  change (JS.chars "/" ++ JS.chars b) with (CHAR_FORWARD_SLASH :: JS.chars b).
  by rewrite split_chars_app, fmap_app.
Qed.

Lemma segments_single seg : noslash seg → Path.segments seg = [seg].
Proof.
  intros Hs. unfold Path.segments, JS.split.
  rewrite split_chars_none by done. simpl. by rewrite str_chars.
Qed.

Lemma segments_unsegments l :
  l ≠ [] → Forall noslash l → Path.segments (Path.unsegments l) = l.
Proof.
  induction l as [|x l IH]; [done|]. intros _ Hl. inversion_clear Hl.
  destruct l as [|y l]; [by apply segments_single|].
  change (Path.unsegments (x :: y :: l))
    with (x +:+ "/" +:+ Path.unsegments (y :: l)).
  rewrite segments_app, segments_single by done. simpl. f_equal. by apply IH.
Qed.

Lemma normalize_step_plain above res seg :
  plain seg → Path.normalize_step above res seg = seg :: res.
Proof.
  intros (H1 & H2 & H3). unfold Path.normalize_step.
  by rewrite !bool_decide_eq_false_2.
Qed.

Lemma normalize_step_pop above top res :
  top ≠ ".." → Path.normalize_step above (top :: res) ".." = res.
Proof.
  intros Ht. unfold Path.normalize_step. simpl.
  by rewrite bool_decide_eq_false_2.
Qed.

Lemma normalize_step_cases above res seg :
  (seg = "" ∨ seg = ".") ∧ Path.normalize_step above res seg = res
  ∨ seg = ".." ∨ plain seg.
Proof.
  unfold Path.normalize_step, plain.
  destruct (decide (seg = "")) as [->|?]; [by left; split; [left|]|].
  destruct (decide (seg = ".")) as [->|?]; [by left; split; [right|]|].
  destruct (decide (seg = "..")) as [->|?]; [by right; left|].
  by right; right.
Qed.

Lemma normalize_plain above l : ∀ stack,
  Forall plain l → foldl (Path.normalize_step above) stack l = rev l ++ stack.
Proof.
  induction l as [|x l IH]; intros stack Hl; [done|]. inversion_clear Hl.
  cbn [foldl rev]. rewrite normalize_step_plain, IH by done.
  by rewrite <- app_assoc.
Qed.

Lemma normalize_ups above f : ∀ stack,
  Forall plain f →
  foldl (Path.normalize_step above) (rev f ++ stack) (replicate (length f) "..")
  = stack.
Proof.
  induction f as [|x f IH] using rev_ind; intros stack Hf; [done|].
  apply Forall_app in Hf as [Hf Hx]. inversion_clear Hx as [|?? (_ & _ & Hx') _].
  rewrite length_app, rev_app_distr. simpl length. simpl rev.
  rewrite Nat.add_1_r. cbn [replicate foldl app].
  rewrite normalize_step_pop by done. by apply IH.
Qed.

(** What absolute normalisation leaves on the stack names something. *)
Lemma normalize_false_plain l : ∀ stack,
  Forall plain stack → Forall plain (foldl (Path.normalize_step false) stack l).
Proof.
  induction l as [|x l IH]; intros stack Hs; [done|]. cbn [foldl]. apply IH.
  destruct (normalize_step_cases false stack x) as [[_ ->]|[->|Hx]]; [done|..].
  - unfold Path.normalize_step. simpl.
    destruct Hs as [|top rest Htop Hrest]; [done|].
    case_bool_decide; [by constructor|done].
  - rewrite normalize_step_plain by done. by constructor.
Qed.

Lemma normalize_noslash above l : ∀ stack,
  Forall noslash stack → Forall noslash l →
  Forall noslash (foldl (Path.normalize_step above) stack l).
Proof.
  induction l as [|x l IH]; intros stack Hs Hl; [done|]. inversion_clear Hl.
  cbn [foldl]. apply IH; [|done].
  unfold Path.normalize_step.
  repeat (case_bool_decide || case_match); subst;
    repeat match goal with
           | H : Forall _ (_ :: _) |- _ => inversion_clear H
           end; by repeat constructor.
Qed.

(** Relative normalisation never keeps an empty or a single-dot segment. *)
Lemma normalize_true_named l : ∀ stack,
  Forall (λ x, x ≠ "" ∧ x ≠ ".") stack →
  Forall (λ x, x ≠ "" ∧ x ≠ ".") (foldl (Path.normalize_step true) stack l).
Proof.
  induction l as [|x l IH]; intros stack Hs; [done|]. cbn [foldl]. apply IH.
  unfold Path.normalize_step.
  repeat (case_bool_decide || case_match); subst;
    repeat match goal with
           | H : Forall _ (_ :: _) |- _ => inversion_clear H
           | H : ¬ (_ ∨ _) |- _ => apply Decidable.not_or in H as [??]
           end; by repeat constructor.
Qed.

(** Resolving a relatively normalised path gives what resolving the path
    itself gives. *)
Lemma normalize_true_false segs : ∀ rel stack,
  Forall (λ x, x ≠ "" ∧ x ≠ ".") rel →
  foldl (Path.normalize_step false) stack
    (rev (foldl (Path.normalize_step true) rel segs))
  = foldl (Path.normalize_step false)
      (foldl (Path.normalize_step false) stack (rev rel)) segs.
Proof.
  induction segs as [|seg segs IH]; intros rel stack Hrel; [done|].
  cbn [foldl]. rewrite IH by (by apply (normalize_true_named [seg])).
  f_equal.
  destruct (normalize_step_cases true rel seg) as [[Hskip E]|[->|Hseg]].
  - rewrite E. unfold Path.normalize_step.
    destruct Hskip as [-> | ->]; done.
  - destruct rel as [|top rest].
    { done. }
    destruct (decide (top = "..")) as [->|Htop].
    + unfold Path.normalize_step at 2. simpl.
      simpl rev. by rewrite foldl_app.
    + rewrite normalize_step_pop by done.
      inversion_clear Hrel as [|?? [H1 H2] _].
      simpl rev. rewrite foldl_app. cbn [foldl].
      rewrite (normalize_step_plain false _ top) by done.
      by rewrite normalize_step_pop.
  - rewrite normalize_step_plain by done. simpl rev. by rewrite foldl_app.
Qed.

Lemma isAbsolute_cons c rest :
  Path.isAbsolute (String c rest) = bool_decide (c = CHAR_FORWARD_SLASH).
Proof.
  unfold Path.isAbsolute. rewrite startsWith_cons, startsWith_nil, andb_true_r.
  apply bool_decide_ext. unfold CHAR_FORWARD_SLASH. split; congruence.
Qed.

Lemma isAbsolute_unsegments seg l :
  seg ≠ "" → noslash seg → Path.isAbsolute (Path.unsegments (seg :: l)) = false.
Proof.
  intros Hne Hns. destruct seg as [|c seg]; [done|].
  assert (c ≠ CHAR_FORWARD_SLASH) as Hc.
  { intros ->. apply Hns. unfold JS.chars. simpl. apply elem_of_cons. by left. }
  destruct l as [|y l].
  - cbn [Path.unsegments]. rewrite isAbsolute_cons. by apply bool_decide_eq_false_2.
  - change (Path.unsegments (String c seg :: y :: l))
      with (String c (seg +:+ "/" +:+ Path.unsegments (y :: l))).
    rewrite isAbsolute_cons. by apply bool_decide_eq_false_2.
Qed.

Lemma isAbsolute_app p q : p ≠ "" → Path.isAbsolute (p +:+ q) = Path.isAbsolute p.
Proof.
  destruct p as [|c p]; [done|]. intros _.
  change (String c p +:+ q) with (String c (p +:+ q)). by rewrite !isAbsolute_cons.
Qed.

Lemma unsegments_nonempty seg l : seg ≠ "" → Path.unsegments (seg :: l) ≠ "".
Proof. destruct seg, l; simpl; done. Qed.

Lemma segments_root p : Path.segments ("/" +:+ p) = "" :: Path.segments p.
Proof. apply (segments_app "" p). Qed.

Lemma segments_trailing p : Path.segments (p +:+ "/") = Path.segments p ++ [""].
Proof. apply (segments_app p ""). Qed.

Lemma normalize_skip_empty above stack l :
  foldl (Path.normalize_step above) stack (l ++ [""])
  = foldl (Path.normalize_step above) stack l.
Proof. by rewrite foldl_app. Qed.

Lemma resolve_segments_base cwd p :
  Path.resolve_segments cwd p
  = rev (foldl (Path.normalize_step false) (resolve_base cwd p) (Path.segments p)).
Proof.
  unfold Path.resolve_segments, Path.normalize_segments, resolve_base.
  destruct (Path.isAbsolute p); [done|]. by rewrite foldl_app.
Qed.

Lemma resolve_segments_plain cwd p : Forall plain (Path.resolve_segments cwd p).
Proof.
  unfold Path.resolve_segments, Path.normalize_segments.
  apply Forall_rev, normalize_false_plain. constructor.
Qed.

Lemma resolve_segments_noslash cwd p : Forall noslash (Path.resolve_segments cwd p).
Proof.
  unfold Path.resolve_segments, Path.normalize_segments.
  apply Forall_rev, normalize_noslash; [constructor|].
  destruct (Path.isAbsolute p); [apply segments_noslash|].
  apply Forall_app. split; apply segments_noslash.
Qed.

(** A normalised path resolves to what the path itself resolves to. *)
Lemma resolve_normalize cwd x :
  Path.resolve_segments cwd (Path.normalize x) = Path.resolve_segments cwd x.
Proof.
  unfold Path.normalize. case_bool_decide as Hx.
  { subst. unfold Path.resolve_segments, Path.normalize_segments.
    change (Path.isAbsolute ".") with false. change (Path.isAbsolute "") with false.
    cbv iota. by rewrite !foldl_app. }
  set (l := Path.normalize_segments (negb (Path.isAbsolute x)) (Path.segments x)).
  assert (Forall noslash l) as Hns.
  { apply Forall_rev, normalize_noslash; [constructor|apply segments_noslash]. }
  assert (Forall (λ s, s ≠ "" ∧ s ≠ ".") l) as Hnamed.
  { unfold l, Path.normalize_segments. apply Forall_rev.
    destruct (Path.isAbsolute x); simpl.
    - eapply Forall_impl; [apply normalize_false_plain; constructor|].
      by intros s (? & ? & ?).
    - apply normalize_true_named. constructor. }
  assert (∀ stack, Path.isAbsolute x = false →
            foldl (Path.normalize_step false) stack l
            = foldl (Path.normalize_step false) stack (Path.segments x)) as Hrel.
  { intros stack Habs. unfold l, Path.normalize_segments. rewrite Habs. simpl.
    by rewrite normalize_true_false by constructor. }
  assert (Path.isAbsolute x = true →
            l = rev (foldl (Path.normalize_step false) [] (Path.segments x)))
    as Habs'.
  { intros Habs. unfold l. by rewrite Habs. }
  destruct l as [|seg l'] eqn:El.
  - (* nothing is left of the path *)
    simpl. destruct (Path.isAbsolute x) eqn:Habs.
    + change (Path.resolve_segments cwd "/") with (@nil string).
      rewrite resolve_segments_base. unfold resolve_base. rewrite Habs.
      by apply Habs'.
    + assert (∀ p, p = "./" ∨ p = "." →
                Path.resolve_segments cwd p = Path.resolve_segments cwd x) as Hdot.
      { intros p Hp. rewrite !resolve_segments_base. unfold resolve_base.
        rewrite Habs. rewrite <- Hrel by done.
        by destruct Hp as [-> | ->]. }
      destruct (JS.endsWith "/" x); apply Hdot; auto.
  - inversion_clear Hns as [|?? Hseg Hns']. inversion_clear Hnamed as [|?? [Hne _] _].
    rewrite bool_decide_eq_false_2 by (by apply unsegments_nonempty).
    assert (∀ tail, tail = [] ∨ tail = [""] →
              ∀ stack, foldl (Path.normalize_step false) stack ((seg :: l') ++ tail)
                       = foldl (Path.normalize_step false) stack (seg :: l'))
      as Htail.
    { intros tail [-> | ->] stack; [by rewrite app_nil_r|apply normalize_skip_empty]. }
    set (p' := Path.unsegments (seg :: l')).
    assert (Path.segments p' = seg :: l') as Ep'.
    { apply segments_unsegments; [done|by constructor]. }
    assert (∃ tail, (tail = [] ∨ tail = [""])
              ∧ Path.segments (if JS.endsWith "/" x then p' +:+ "/" else p')
                = (seg :: l') ++ tail
              ∧ Path.isAbsolute (if JS.endsWith "/" x then p' +:+ "/" else p') = false)
      as (tail & Htl & Eseg & Erel).
    { destruct (JS.endsWith "/" x).
      - exists [""]. split; [by right|]. rewrite segments_trailing, Ep'.
        split; [done|]. rewrite isAbsolute_app by (by apply unsegments_nonempty).
        by apply isAbsolute_unsegments.
      - exists []. split; [by left|]. rewrite Ep', app_nil_r.
        split; [done|]. by apply isAbsolute_unsegments. }
    destruct (Path.isAbsolute x) eqn:Habs.
    + rewrite !resolve_segments_base. unfold resolve_base.
      rewrite Habs. change (Path.isAbsolute ("/" +:+ _)) with true. cbv iota.
      rewrite segments_root, Eseg. cbn [foldl].
      change (Path.normalize_step false [] "") with (@nil string).
      rewrite Htail by done. rewrite <- Habs' by done.
      rewrite normalize_plain, app_nil_r.
      * rewrite Habs' at 2 by done. by rewrite rev_involutive.
      * rewrite Habs' by done. apply Forall_rev, normalize_false_plain. constructor.
    + rewrite !resolve_segments_base. unfold resolve_base.
      rewrite Habs, Erel, Eseg, Htail by done. by rewrite Hrel.
Qed.

Lemma strip_common_spec f : ∀ t f' t',
  Path.strip_common f t = (f', t') → ∃ c, f = c ++ f' ∧ t = c ++ t'.
Proof.
  induction f as [|a f IH]; intros t f' t' E; simpl in E.
  { exists []. by simplify_eq. }
  destruct t as [|b t]; [exists []; by simplify_eq|].
  case_bool_decide; [|exists []; by simplify_eq]. subst b.
  destruct (IH _ _ _ E) as (c & -> & ->). by exists (a :: c).
Qed.

(** The path [relative] gives, once joined to [from], resolves to what [to]
    resolves to. *)
Lemma relative_resolves cwd from to :
  Path.resolve_segments cwd (Path.join from (Path.relative cwd from to))
  = Path.resolve_segments cwd to.
Proof.
  assert (Path.resolve_segments cwd (Path.join from "")
          = Path.resolve_segments cwd from) as Hempty.
  { unfold Path.join. case_bool_decide as Hf.
    - subst. apply (resolve_normalize cwd "").
    - simpl. apply resolve_normalize. }
  unfold Path.relative. case_bool_decide as Hft; [by subst|].
  destruct (Path.strip_common _ _) as [f' t'] eqn:Es.
  apply strip_common_spec in Es as (c & EF & ET).
  pose proof (resolve_segments_plain cwd from) as HF.
  pose proof (resolve_segments_plain cwd to) as HT.
  pose proof (resolve_segments_noslash cwd to) as HTs.
  rewrite EF in HF. rewrite ET in HT, HTs.
  apply Forall_app in HF as [_ Hf']. apply Forall_app in HT as [_ Ht'].
  apply Forall_app in HTs as [_ Hts'].
  set (L := replicate (length f') ".." ++ t').
  assert (foldl (Path.normalize_step false) (rev (Path.resolve_segments cwd from)) L
          = rev (Path.resolve_segments cwd to)) as Hwalk.
  { unfold L. rewrite EF, ET, foldl_app, !rev_app_distr.
    by rewrite normalize_ups, normalize_plain. }
  destruct L as [|seg rest] eqn:EL.
  { change (Path.unsegments []) with "". rewrite Hempty. simpl in Hwalk.
    by rewrite <- (rev_involutive (Path.resolve_segments cwd from)), Hwalk,
         rev_involutive. }
  assert (seg ≠ "" ∧ Forall noslash (seg :: rest)) as [Hseg Hns].
  { rewrite <- EL. unfold L. split.
    - destruct f'; simpl in *; [|by simplify_eq].
      destruct Ht' as [|? ? (? & _)]; by simplify_eq/=.
    - apply Forall_app. split; [|done].
      apply Forall_replicate. unfold noslash. vm_compute.
      intros Hin. repeat (apply elem_of_cons in Hin as [Hin|Hin]; [done|]).
      by apply elem_of_nil in Hin. }
  set (R := Path.unsegments (seg :: rest)).
  assert (R ≠ "") as HR by by apply unsegments_nonempty.
  assert (Path.segments R = seg :: rest) as ER by by apply segments_unsegments.
  rewrite <- (rev_involutive (Path.resolve_segments cwd to)), <- Hwalk.
  assert (rev (Path.resolve_segments cwd from)
          = foldl (Path.normalize_step false) (resolve_base cwd from)
              (Path.segments from)) as EFrom.
  { by rewrite resolve_segments_base, rev_involutive. }
  rewrite EFrom. clear Hwalk EFrom EF Hempty.
  unfold Path.join.
  rewrite (bool_decide_eq_false_2 (R = "")) by done.
  case_bool_decide as Hfrom; rewrite resolve_normalize, resolve_segments_base.
  - subst from. rewrite ER. f_equal. f_equal.
    unfold resolve_base. unfold R.
    rewrite isAbsolute_unsegments by (by inversion Hns).
    by change (Path.isAbsolute "") with false.
  - rewrite segments_app, ER, foldl_app. f_equal. f_equal.
    unfold resolve_base. by rewrite isAbsolute_app by done.
Qed.

(** ** Rewriting a stylesheet *)

Lemma prefix_drop (pat cs : list ascii) :
  pat `prefix_of` cs → cs = pat ++ drop (length pat) cs.
Proof. intros [k ->]. by rewrite drop_app_length. Qed.





Section Stylesheet.
Context `{URLApi}.


(** A matched reference whose URL does not resolve is left as it is. *)
Lemma stylesheet_reference_kept base filePath text s m :
  URL_new m.2 (Some (href base)) = None →
  processCSSFile_match base filePath (text, s) m = (text, s).
Proof. intros Hu. unfold processCSSFile_match. by rewrite Hu. Qed.

End Stylesheet.


(** The stylesheet [css/s.css] refers to [/img/bg.png]: the reference
    becomes [../img/bg.png], which is not the local path [img/bg.png]. *)
Lemma sheet_in_subdirectory :
  urlRegex_matches Example.sheet_text = [("url(/img/bg.png)", "/img/bg.png")]
  ∧ Path.relative "/home/u" (Path.dirname "out/css/s.css") (Path.join "out" "img/bg.png")
    = "../img/bg.png"
  ∧ (processCSSFile_rewrite Example.sheet_url "out/css/s.css" Example.sheet_text
       Example.created).1
    = "body{background:url(" +:+ DQUOTE +:+ "../img/bg.png" +:+ DQUOTE +:+ ")}".
Proof. split_and!; by_compute. Qed.


(** ** The end-to-end scenario

    The entry page names [/s.css] and [pic.png]; the stylesheet refers to
    [bg.png].  Three assets are requested, each once; the page and the
    stylesheet are written with their references rewritten. *)

Lemma end_to_end :
  Example.start Example.entry_html = Some Example.s_page
  ∧ run (Example.until_written ++ Settle 0 (Resolved "") :: Example.until_exit)
      Example.s_page
    = Some Example.s_exit
  ∧ loop Example.s_exit = Exited
  ∧ requests Example.s_exit
    = ["https://ex.test/"; "https://ex.test/s.css"; "https://ex.test/pic.png";
       "https://ex.test/bg.png"]
  ∧ files Example.s_exit
    = {[ "out/index.html" := "<link rel=stylesheet href=./s.css><img src=./pic.png>";
         "out/s.css" := "background: url(" +:+ DQUOTE +:+ "bg.png" +:+ DQUOTE +:+ ")";
         "out/pic.png" := "PNG";
         "out/bg.png" := "PNG" ]}.
Proof. split_and!; by_compute. Qed.

(** Links to the site of the clone are rewritten, the others are not. *)
Lemma links_rewritten :
  rewriteLinks Example.links_doc Example.page Example.created
  = Some [Example.anchor "./docs/intro.html";
          Example.anchor "https://other.test/"; Example.anchor "#top"].
Proof. by_compute. Qed.

(* ===================================================================== *)
(** * Further properties *)
(* ===================================================================== *)

(** ** What is collected from a page, and what is rewritten in it *)

Lemma select_spec matches doc el :
  el ∈ select matches doc ↔ ∃ e, doc !! el = Some e ∧ matches e = true.
Proof.
  unfold select. rewrite list_elem_of_fmap. split.
  - intros ([j e] & -> & Hin). apply list_elem_of_filter in Hin as [Hf Hin].
    apply elem_of_lookup_imap in Hin as (k & x & Heq & Hk). simplify_eq/=. eauto.
  - intros (e & He & Hf). exists (el, e). split; [done|].
    apply list_elem_of_filter. split; [done|].
    apply elem_of_lookup_imap. eauto.
Qed.

Lemma select_NoDup matches doc : NoDup (select matches doc).
Proof.
  unfold select. apply (sublist_NoDup _ ((imap pair doc).*1)).
  - rewrite fmap_imap.
    rewrite (imap_ext _ (λ j _, j)) by done.
    rewrite (imap_seq_0 doc (λ j, j)), list_fmap_id. apply NoDup_seq.
  - apply fmap_sublist, sublist_filter.
Qed.

Lemma attr_truthy_spec doc el name v :
  attr_truthy doc el name = Some v
  ↔ ∃ e, doc !! el = Some e ∧ attr e name = Some v ∧ v ≠ "".
Proof.
  unfold attr_truthy, JS.truthy. split.
  - destruct (doc !! el) as [e|]; [|done]. cbn [mbind option_bind].
    destruct (attr e name) as [w|] eqn:Hw; [|done]. cbn [mbind option_bind].
    case_bool_decide; [done|]. intros [= ->]. eauto.
  - intros (e & He & Ha & Hv). rewrite He. cbn [mbind option_bind].
    rewrite Ha. cbn [mbind option_bind]. by rewrite bool_decide_eq_false_2.
Qed.

Lemma sel_stylesheet_spec e :
  sel_stylesheet e = true ↔ tagName e = "link" ∧ attr e "rel" = Some "stylesheet".
Proof.
  unfold sel_stylesheet. rewrite andb_true_iff, !bool_decide_eq_true. done.
Qed.

Lemma sel_with_spec tag name e :
  sel_with tag name e = true ↔ tagName e = tag ∧ is_Some (attr e name).
Proof.
  unfold sel_with. rewrite andb_true_iff, !bool_decide_eq_true. done.
Qed.

Lemma srcset_urls_empty u : u ∈ srcset_urls "" → u = "".
Proof. vm_compute. by intros ->%list_elem_of_singleton. Qed.

Lemma find_assets_spec doc a : a ∈ find_assets doc ↔ asset_of doc a.
Proof.
  unfold find_assets, asset_of. rewrite !elem_of_app, !list_elem_of_omap, list_elem_of_bind.
  setoid_rewrite select_spec. split.
  - intros [(el & (e & He & Hsel) & Ha)|[(el & (e & He & Hsel) & Ha)
            |[(el & (e & He & Hsel) & Ha)|(el & Ha & (e & He & Hsel))]]].
    + apply fmap_Some in Ha as (v & (e' & He' & Hv & Hne)%attr_truthy_spec & ->).
      simplify_eq/=. apply sel_stylesheet_spec in Hsel as [? ?]. eauto 10.
    + apply fmap_Some in Ha as (v & (e' & He' & Hv & Hne)%attr_truthy_spec & ->).
      simplify_eq/=. apply sel_with_spec in Hsel as [? ?]. eauto 10.
    + apply fmap_Some in Ha as (v & (e' & He' & Hv & Hne)%attr_truthy_spec & ->).
      simplify_eq/=. apply sel_with_spec in Hsel as [? ?]. eauto 10.
    + destruct (attr_truthy doc el "srcset") as [srcset|] eqn:Hs;
        [|by apply elem_of_nil in Ha].
      apply attr_truthy_spec in Hs as (e' & He' & Hv & Hne). simplify_eq/=.
      apply list_elem_of_fmap in Ha as (u & -> & Hu).
      apply list_elem_of_filter in Hu as [Hu Hin]. simpl.
      apply sel_with_spec in Hsel as [? ?].
      eexists. split; [eassumption|]. split.
      { unfold JS.truthy in Hu. apply negb_true_iff, bool_decide_eq_false in Hu. done. }
      eauto 10.
  - intros (e & He & Hne & Ha). destruct a as [[] v el]; simpl in *.
    + destruct Ha as (Ht & Hr & Hh). left. exists el. split.
      * exists e. split; [done|]. by apply sel_stylesheet_spec.
      * apply fmap_Some. exists v. split; [|done]. apply attr_truthy_spec. eauto.
    + destruct Ha as (Ht & Hh). right; left. exists el. split.
      * exists e. split; [done|]. apply sel_with_spec. eauto.
      * apply fmap_Some. exists v. split; [|done]. apply attr_truthy_spec. eauto.
    + destruct Ha as (Ht & [Hh|(srcset & Hs & Hin)]).
      * right; right; left. exists el. split.
        -- exists e. split; [done|]. apply sel_with_spec. eauto.
        -- apply fmap_Some. exists v. split; [|done]. apply attr_truthy_spec. eauto.
      * right; right; right. exists el. split.
        -- assert (srcset ≠ "") as Hss.
           { intros ->. by apply srcset_urls_empty in Hin. }
           assert (attr_truthy doc el "srcset" = Some srcset) as ->.
           { apply attr_truthy_spec. eauto. }
           apply list_elem_of_fmap. exists v. split; [done|].
           apply list_elem_of_filter. split; [|done].
           unfold JS.truthy. by rewrite bool_decide_eq_false_2.
        -- exists e. split; [done|]. apply sel_with_spec. eauto.
    + done.
Qed.

(** X1.  What [processAssets] collects from a page.  Every collected
    reference is the non-empty [href] of a [link] element, the non-empty
    [src] of a [script] or of an [img] element, or a non-empty candidate of
    the [srcset] of an [img] element, with the element it was read from
    and the type that goes with it.  Conversely every such reference is
    collected, that of a [link] when its [rel] is [stylesheet]. *)
Theorem find_assets_collects doc type url el :
  (Asset type url el ∈ find_assets doc →
   ∃ e, doc !! el = Some e ∧ url ≠ ""
     ∧ match type with
       | css => tagName e = "link" ∧ attr e "href" = Some url
       | js => tagName e = "script" ∧ attr e "src" = Some url
       | img => tagName e = "img"
                ∧ (attr e "src" = Some url
                   ∨ ∃ srcset, attr e "srcset" = Some srcset
                               ∧ url ∈ srcset_urls srcset)
       | other_asset => False
       end)
  ∧ (∀ e, doc !! el = Some e → url ≠ "" →
       match type with
       | css => tagName e = "link" ∧ attr e "rel" = Some "stylesheet"
                ∧ attr e "href" = Some url
       | js => tagName e = "script" ∧ attr e "src" = Some url
       | img => tagName e = "img"
                ∧ (attr e "src" = Some url
                   ∨ ∃ srcset, attr e "srcset" = Some srcset
                               ∧ url ∈ srcset_urls srcset)
       | other_asset => False
       end →
       Asset type url el ∈ find_assets doc).
Proof.
  split.
  - intros Ha. apply find_assets_spec in Ha as (e & He & Hne & Hkind).
    cbn [asset_type asset_url asset_element] in *.
    exists e. split_and!; [done..|].
    destruct type; [|done..]. by destruct Hkind as (? & _ & ?).
  - intros e He Hne Hkind. apply find_assets_spec. exists e.
    cbn [asset_type asset_url asset_element]. by split_and!.
Qed.

Lemma set_attr_length el name v doc : length (set_attr el name v doc) = length doc.
Proof. apply length_alter. Qed.

Lemma set_attr_other el name v doc i : i ≠ el → set_attr el name v doc !! i = doc !! i.
Proof. intros Hne. unfold set_attr. by apply list_lookup_alter_ne. Qed.

Lemma set_attr_at el name v doc e :
  doc !! el = Some e →
  ∃ e', set_attr el name v doc !! el = Some e'
    ∧ tagName e' = tagName e
    ∧ attr e' name = Some v
    ∧ (∀ n, n ≠ name → attr e' n = attr e n).
Proof.
  intros He. unfold set_attr, document in *. rewrite list_lookup_alter_eq, He. simpl.
  eexists. split; [done|]. unfold attr. simpl. split; [done|]. split.
  - apply lookup_insert_eq.
  - intros n Hn. by rewrite lookup_insert_ne.
Qed.

Section References.
Context `{URLApi}.





(** What [rewriteLinks] does to one link of the page. *)
Lemma rewrite_link_spec base s d el :
  length (rewrite_link base s d el) = length d
  ∧ (∀ i, i ≠ el → rewrite_link base s d el !! i = d !! i)
  ∧ ∀ e, d !! el = Some e →
      ∃ e', rewrite_link base s d el !! el = Some e'
        ∧ tagName e' = tagName e
        ∧ (∀ name, name ≠ "href" → attr e' name = attr e name)
        ∧ (∀ u, tagName e = "a" → internal_link base s e u →
             attr e' "href" = Some ("./" +:+ localPathOf (pathname u)))
        ∧ ((∀ u, ¬ internal_link base s e u) → tagName e = "a" → e' = e).
Proof.
  unfold rewrite_link.
  destruct (attr_truthy d el "href") as [h|] eqn:Hh.
  - apply attr_truthy_spec in Hh as (e0 & He0 & Hattr & Hne).
    destruct (JS.startsWith "#" h) eqn:H1; cbn [negb andb].
    { split; [done|]. split; [done|]. intros e He. exists e.
      split_and!; try done. intros u _ (_ & h' & ? & _ & ? & _). congruence. }
    destruct (JS.startsWith "mailto:" h) eqn:H2; cbn [negb andb].
    { split; [done|]. split; [done|]. intros e He. exists e.
      split_and!; try done. intros u _ (_ & h' & ? & _ & _ & ? & _). congruence. }
    destruct (JS.startsWith "tel:" h) eqn:H3; cbn [negb andb].
    { split; [done|]. split; [done|]. intros e He. exists e.
      split_and!; try done. intros u _ (_ & h' & ? & _ & _ & _ & ? & _). congruence. }
    destruct (URL_new h (Some (href base))) as [u|] eqn:Hu.
    2:{ split; [done|]. split; [done|]. intros e He. exists e.
        split_and!; try done.
        intros u' _ (_ & h' & ? & _ & _ & _ & _ & ? & _). congruence. }
    case_bool_decide as Ho.
    2:{ split; [done|]. split; [done|]. intros e He. exists e.
        split_and!; try done.
        intros u' _ (_ & h' & ? & _ & _ & _ & _ & ? & ?). congruence. }
    rewrite (getLocalPath_object _ _ _ Hu).
    split; [apply set_attr_length|]. split; [by intros; apply set_attr_other|].
    intros e He. assert (e = e0) as -> by congruence.
    destruct (set_attr_at el "href" ("./" +:+ localPathOf (pathname u)) d e0 He0)
      as (e2 & He2 & Htag2 & Hset & Hother).
    exists e2. split_and!; try done.
    + intros u' _ (_ & h' & ? & _ & _ & _ & _ & ? & ?). congruence.
    + intros Hno Ha. destruct (Hno u). split; [done|]. exists h. by split_and!.
  - split; [done|]. split; [done|]. intros e He. exists e. split_and!; try done.
    intros u _ (_ & h & Ha & Hne & _).
    assert (attr_truthy d el "href" = Some h) as Hs by (apply attr_truthy_spec; eauto).
    congruence.
Qed.

Lemma rewrite_links_spec base s els : ∀ d,
  NoDup els →
  length (foldl (rewrite_link base s) d els) = length d
  ∧ (∀ i, i ∉ els → foldl (rewrite_link base s) d els !! i = d !! i)
  ∧ ∀ i e, i ∈ els → d !! i = Some e →
      ∃ e', foldl (rewrite_link base s) d els !! i = Some e'
        ∧ tagName e' = tagName e
        ∧ (∀ name, name ≠ "href" → attr e' name = attr e name)
        ∧ (∀ u, tagName e = "a" → internal_link base s e u →
             attr e' "href" = Some ("./" +:+ localPathOf (pathname u)))
        ∧ ((∀ u, ¬ internal_link base s e u) → tagName e = "a" → e' = e).
Proof.
  induction els as [|el els IH]; intros d Hnd; cbn [foldl].
  { split; [done|]. split; [done|]. by intros i e ?%elem_of_nil. }
  apply NoDup_cons in Hnd as [Hel Hnd].
  destruct (rewrite_link_spec base s d el) as (Hlen & Hother & Hat).
  destruct (IH (rewrite_link base s d el) Hnd) as (Hlen' & Hother' & Hat').
  split; [congruence|]. split.
  - intros i [Hi1 Hi2]%not_elem_of_cons. rewrite Hother' by done. by apply Hother.
  - intros i e [->|Hi]%elem_of_cons He.
    + rewrite Hother' by done. by apply Hat.
    + apply Hat'; [done|]. rewrite Hother; [done|]. by intros ->.
Qed.

(** X3.  [rewriteLinks] keeps the elements of the page, their tags and
    every attribute but [href].  The [href] of an anchor that resolves to
    the origin of the clone becomes [./] followed by the local path of its
    target; an element that is not such an anchor (another element, an
    empty, fragment, mail or telephone link, a link that does not parse or
    that leads to another origin) is left as it is. *)
Theorem rewriteLinks_rewrites_internal doc pageUrl base s doc' :
  URL_new pageUrl None = Some base →
  rewriteLinks doc pageUrl s = Some doc' →
  length doc' = length doc
  ∧ ∀ i e, doc !! i = Some e →
      ∃ e', doc' !! i = Some e' ∧ tagName e' = tagName e
        ∧ (∀ name, name ≠ "href" → attr e' name = attr e name)
        ∧ (∀ u, internal_link base s e u →
             attr e' "href" = Some ("./" +:+ localPathOf (pathname u)))
        ∧ ((∀ u, ¬ internal_link base s e u) → e' = e).
Proof.
  intros Hbase. unfold rewriteLinks. rewrite Hbase. cbn [mbind option_bind].
  intros E. injection E as <-.
  destruct (rewrite_links_spec base s (select (sel_with "a" "href") doc) doc
              (select_NoDup _ _)) as (Hlen & Hother & Hat).
  split; [done|]. intros i e He.
  destruct (decide (i ∈ select (sel_with "a" "href") doc)) as [Hi|Hi].
  - pose proof Hi as Hsel. apply select_spec in Hsel as (e0 & He0 & [Ha _]%sel_with_spec).
    assert (e0 = e) as -> by congruence.
    destruct (Hat i e Hi He) as (e' & He' & Htag & Hnames & Hint & Hext).
    exists e'. split_and!; try done.
    + intros u Hu. by apply Hint.
    + intros Hno. by apply Hext.
  - exists e. rewrite Hother by done. split_and!; try done.
    intros u (Ha & h & Hh & _). destruct Hi. apply select_spec.
    exists e. split; [done|]. apply sel_with_spec. eauto.
Qed.

End References.

(** ** What extraction queues *)

Section Queued.
Context `{URLApi}.



Lemma css_matches_queued base filePath ms : ∀ text s,
  (foldl (processCSSFile_match base filePath) (text, s) ms).2
  = extend
      (omap (λ m : string * string,
               u ← URL_new m.2 (Some (href base));
               if bool_decide (href u ∈ downloadedFiles s) then None
               else Some (Item (href u) (localPathOf (pathname u)) other_asset))
         ms)
      [] s.
Proof.
  induction ms as [|m ms IH]; intros text s; cbn [foldl omap list_omap].
  { by rewrite extend_nil. }
  assert (∃ new,
            (processCSSFile_match base filePath (text, s) m).2 = extend new [] s
            ∧ new = from_option (λ it, [it]) []
                      (u ← URL_new m.2 (Some (href base));
                       if bool_decide (href u ∈ downloadedFiles s) then None
                       else Some (Item (href u) (localPathOf (pathname u))
                                    other_asset))) as (new & E & Enew).
  { unfold processCSSFile_match.
    destruct (URL_new m.2 (Some (href base))) as [u|] eqn:Hu;
      cbn [mbind option_bind].
    2:{ exists []. by rewrite extend_nil. }
    rewrite (getLocalPath_object _ _ _ Hu). cbn [mbind option_bind snd].
    unfold has. case_bool_decide; cbn [negb from_option].
    - exists []. by rewrite extend_nil.
    - eexists [_]. by rewrite push_extend. }
  destruct (processCSSFile_match base filePath (text, s) m) as [text1 s1].
  cbn [snd] in E. subst s1.
  rewrite IH, extend_extend.
  assert (downloadedFiles (extend new [] s) = downloadedFiles s) as ->
    by by destruct s.
  subst new. f_equal.
  by destruct (URL_new m.2 (Some (href base)) ≫= _).
Qed.

(** X5.  What the scan of a stylesheet does to the cloner.  It appends
    to the queue one item of type [asset] for each match of [urlRegex], in
    the order of the matches, whose captured group resolves against the URL
    of the stylesheet and whose URL is not in [downloadedFiles]
    beforehand; a match that does not resolve is passed over in silence.
    Nothing else changes. *)
Theorem processCSSFile_queues_matches base filePath cssContent s :
  (processCSSFile_rewrite base filePath cssContent s).2
  = upd_downloadQueue
      (λ q, q ++ omap (λ m : string * string,
                         u ← URL_new m.2 (Some (href base));
                         if bool_decide (href u ∈ downloadedFiles s) then None
                         else Some (Item (href u) (localPathOf (pathname u))
                                      other_asset))
                   (urlRegex_matches cssContent))
      s.
Proof.
  unfold processCSSFile_rewrite. rewrite css_matches_queued.
  destruct s. unfold_upd. by rewrite app_nil_r.
Qed.

End Queued.

(** ** The path resolver and the regular expression *)

(** ** The local path of a path that is itself a local path *)

Lemma substring_from_root q : JS.substring_from 1 ("/" +:+ q) = q.
Proof.
  unfold JS.substring_from.
  change (JS.chars ("/" +:+ q)) with (CHAR_FORWARD_SLASH :: JS.chars q).
  cbn [drop]. apply str_chars.
Qed.

Lemma startsWith_root q : JS.startsWith "/" ("/" +:+ q) = true.
Proof.
  unfold JS.startsWith. apply bool_decide_eq_true_2.
  change (JS.chars ("/" +:+ q)) with (CHAR_FORWARD_SLASH :: JS.chars q).
  apply prefix_cons, prefix_nil.
Qed.

Lemma localPathOf_named q :
  q ≠ "" → JS.endsWith "/" q = false → path_extname q ≠ "" →
  localPathOf ("/" +:+ q) = q.
Proof.
  intros Hne Hend Hext. unfold localPathOf.
  rewrite startsWith_root.
  rewrite substring_from_root, Hend, (bool_decide_eq_false_2 (q = "")) by done.
  cbn [orb]. unfold JS.truthy. by rewrite bool_decide_eq_false_2.
Qed.

(** X6.  The path resolver is idempotent: the local path of a URL, taken
    as a path component again, resolves to itself. *)
Theorem localPathOf_idempotent p :
  localPathOf ("/" +:+ localPathOf p) = localPathOf p.
Proof.
  rewrite (localPathOf_spec p). apply localPathOf_named.
  - apply resolve_spec_nonempty.
  - apply resolve_spec_no_trailing_separator.
  - apply resolve_spec_extname.
Qed.

(** ** What the pattern of [processCSSFile] matches *)

Lemma opt_quote_spec cs q rest :
  opt_quote cs = (q, rest) → cs = q ++ rest ∧ quote_or_none q.
Proof.
  unfold opt_quote, quote_or_none. destruct cs as [|c cs].
  - intros [= <- <-]. auto.
  - destruct (is_quote c) eqn:Hq; intros [= <- <-]; eauto.
Qed.

Lemma take_class_spec cs : ∀ run rest,
  take_class cs = (run, rest) →
  cs = run ++ rest ∧ Forall (λ c, url_char c = true) run.
Proof.
  induction cs as [|c cs IH]; intros run rest; simpl.
  - intros [= <- <-]. auto.
  - destruct (url_char c) eqn:Hc.
    + destruct (take_class cs) as [run' rest'].
      destruct (IH run' rest' eq_refl) as [-> Hrun].
      intros [= <- <-]. split; [done|]. by constructor.
    + intros [= <- <-]. auto.
Qed.

Lemma match_here_spec cs m0 m1 :
  match_here cs = Some (m0, m1) → url_token m0 m1 ∧ m0 `prefix_of` cs.
Proof.
  unfold match_here. case_bool_decide as Hp; [|done].
  apply prefix_drop in Hp. change (length (JS.chars "url(")) with 4%nat in Hp.
  destruct (opt_quote (drop 4 cs)) as [q1 r1] eqn:E1.
  destruct (take_class r1) as [body r2] eqn:E2.
  destruct (opt_quote r2) as [q2 r3] eqn:E3.
  apply opt_quote_spec in E1 as [E1 Hq1].
  apply take_class_spec in E2 as [E2 Hbody].
  apply opt_quote_spec in E3 as [E3 Hq2].
  destruct body as [|b body]; [done|]. destruct r3 as [|c r3]; [done|].
  case_bool_decide as Hc; [|done]. intros [= <- <-]. subst c. split.
  - exists q1, q2. by split_and!.
  - exists r3. rewrite Hp at 1. rewrite E1, E2, E3.
    cbn [app]. rewrite <- !app_assoc. cbn [app]. by rewrite <- !app_assoc.
Qed.

Lemma exec_all_spec cs : ∀ skip,
  Forall (λ m, url_token (JS.chars m.1) (JS.chars m.2)
               ∧ ∃ before after, cs = before ++ JS.chars m.1 ++ after)
    (exec_all cs skip).
Proof.
  induction cs as [|c cs IH]; intros skip; cbn [exec_all]; [constructor|].
  assert (∀ k, Forall (λ m, url_token (JS.chars m.1) (JS.chars m.2)
                            ∧ ∃ before after,
                                c :: cs = before ++ JS.chars m.1 ++ after)
                 (exec_all cs k)) as Hrest.
  { intros k. eapply Forall_impl; [apply (IH k)|].
    intros m [Ht (before & after & ->)]. split; [done|]. by exists (c :: before), after. }
  destruct skip as [|k]; [|apply Hrest].
  destruct (match_here (c :: cs)) as [[m0 m1]|] eqn:Hm; [|apply Hrest].
  apply match_here_spec in Hm as [Ht [after Hpre]].
  constructor; [|apply Hrest]. cbn [fst snd]. rewrite !chars_str.
  split; [done|]. by exists [], after.
Qed.

(** X7.  Every match of [urlRegex] occurs in the stylesheet and reads
    [url(], an optional quote, the captured group, an optional quote, a
    closing parenthesis; the captured group is not empty and holds no
    quote, no closing parenthesis and no white space. *)
Theorem urlRegex_finds_url_tokens cssContent m :
  m ∈ urlRegex_matches cssContent →
  (∃ q1 q2,
     JS.chars m.1 = JS.chars "url(" ++ q1 ++ JS.chars m.2 ++ q2 ++ [CHAR_RPAREN]
     ∧ quote_or_none q1 ∧ quote_or_none q2)
  ∧ m.2 ≠ ""
  ∧ Forall (λ c, is_quote c = false ∧ c ≠ CHAR_RPAREN ∧ JS.is_space c = false)
      (JS.chars m.2)
  ∧ ∃ before after, JS.chars cssContent = before ++ JS.chars m.1 ++ after.
Proof.
  intros Hm. pose proof (exec_all_spec (JS.chars cssContent) 0) as Hall.
  eapply Forall_forall in Hall as [(q1 & q2 & E & H1 & H2 & Hne & Hbody) Hocc];
    [|exact Hm].
  split_and!; [|..|done].
  - exists q1, q2. exact (conj E (conj H1 H2)).
  - intros E2. by rewrite E2 in Hne.
  - eapply Forall_impl; [exact Hbody|]. intros c Hc. unfold url_char in Hc.
    apply negb_true_iff, orb_false_iff in Hc as [[Hq Hr]%orb_false_iff Hs].
    split_and!; [done|by apply bool_decide_eq_false in Hr|done].
Qed.

(** ** What the drain does to the items and to the world *)

Section Drained.
Context `{URLApi}.

Lemma run_invariant (P : state → Prop) :
  (∀ a s s', step a s = Some s' → P s → P s') →
  ∀ acts s s', run acts s = Some s' → P s → P s'.
Proof.
  intros Hstep. induction acts as [|a acts IH]; intros s s' E Hs; simpl in E.
  { by simplify_eq. }
  destruct (step a s) as [s1|] eqn:Ha; [|done]. simpl in E. eauto.
Qed.

Lemma run_app acts1 acts2 s :
  run (acts1 ++ acts2) s = run acts1 s ≫= run acts2.
Proof.
  revert s. induction acts1 as [|a acts1 IH]; intros s; simpl; [done|].
  destruct (step a s) as [s1|]; simpl; [apply IH|done].
Qed.

(** The three ways a turn of the loop can go. *)
Lemma turn_cases s :
  (downloadQueue s = [] ∧ activeDownloads s ≤ 0
   ∧ processDownloadQueue_turn s = upd_loop (λ _, Exited) s)
  ∨ ((downloadQueue s = [] ∧ 0 < activeDownloads s
      ∨ downloadQueue s ≠ [] ∧ maxConcurrent s ≤ activeDownloads s)
     ∧ processDownloadQueue_turn s = processDownloadQueue_wait s)
  ∨ (∃ it rest,
       downloadQueue s = it :: rest ∧ activeDownloads s < maxConcurrent s
       ∧ processDownloadQueue_turn s
         = downloadAsset_begin it
             (upd_activeDownloads (λ a, a + 1) (upd_downloadQueue (λ _, rest) s))).
Proof.
  unfold processDownloadQueue_turn.
  destruct (downloadQueue s) as [|it rest] eqn:Hq; simpl.
  - case_bool_decide; [right; left|left]; split; auto with lia.
  - right. case_bool_decide; [right|left]; eauto 10 with lia.
Qed.

Lemma css_match_new base filePath text s m :
  ∃ new,
    (processCSSFile_match base filePath (text, s) m).2 = extend new [] s
    ∧ Forall (λ it, resolved_item it ∧ item_type it = other_asset) new.
Proof.
  unfold processCSSFile_match.
  destruct (URL_new m.2 (Some (href base))) as [u|] eqn:Hu; cbn [mbind option_bind].
  2:{ exists []. rewrite extend_nil. by split. }
  rewrite (getLocalPath_object _ _ _ Hu). cbn [mbind option_bind snd].
  destruct (has (href u) s); cbn [negb].
  - exists []. rewrite extend_nil. by split.
  - eexists [_]. rewrite push_extend. split; [done|].
    apply Forall_singleton. split; [|done]. exists u. split_and!; [|done..].
    by eapply URL_new_href.
Qed.

Lemma css_rewrite_new base filePath cssContent s :
  ∃ new,
    (processCSSFile_rewrite base filePath cssContent s).2 = extend new [] s
    ∧ Forall (λ it, resolved_item it ∧ item_type it = other_asset) new.
Proof.
  unfold processCSSFile_rewrite. generalize (urlRegex_matches cssContent) as ms.
  generalize cssContent at 1 as text. intros text ms. revert text s.
  induction ms as [|m ms IH]; intros text s; cbn [foldl].
  { exists []. rewrite extend_nil. by split. }
  destruct (css_match_new base filePath text s m) as (new & E & F).
  destruct (processCSSFile_match base filePath (text, s) m) as [text1 s1];
    simpl in E; subst s1.
  destruct (IH text1 (extend new [] s)) as (new' & E' & F').
  exists (new ++ new'). rewrite E', extend_extend. split; [done|].
  by apply Forall_app.
Qed.

Lemma process_asset_new base doc s a :
  ∃ new lines,
    (process_asset base (doc, s) a).2 = extend new lines s
    ∧ Forall (λ it, resolved_item it ∧ item_type it = asset_type a
                    ∧ item_url it ∉ downloadedFiles s) new.
Proof.
  unfold process_asset.
  destruct (URL_new (asset_url a) (Some (href base))) as [u|] eqn:Hu;
    cbn [mbind option_bind].
  2:{ eexists [], [_]. rewrite log_extend. by split. }
  rewrite (getLocalPath_object _ _ _ Hu). cbn [mbind option_bind snd].
  destruct (has (href u) s) eqn:Hhas; cbn [negb].
  - exists [], []. rewrite extend_nil. by split.
  - eexists [_], []. rewrite push_extend. split; [done|].
    apply Forall_singleton. split_and!; [|done|by apply bool_decide_eq_false in Hhas].
    exists u. split_and!; [|done..]. by eapply URL_new_href.
Qed.

Lemma process_assets_new base assets : ∀ doc s,
  ∃ new lines,
    (foldl (process_asset base) (doc, s) assets).2 = extend new lines s
    ∧ Forall (λ it, resolved_item it
                    ∧ (∃ a, a ∈ assets ∧ item_type it = asset_type a)
                    ∧ item_url it ∉ downloadedFiles s) new.
Proof.
  induction assets as [|a assets IH]; intros doc s; cbn [foldl].
  { exists [], []. rewrite extend_nil. by split. }
  destruct (process_asset_new base doc s a) as (new & lines & E & F).
  destruct (process_asset base (doc, s) a) as [doc1 s1]; simpl in E; subst s1.
  destruct (IH doc1 (extend new lines s)) as (new' & lines' & E' & F').
  exists (new ++ new'), (lines ++ lines').
  rewrite E', extend_extend. split; [done|].
  apply Forall_app. split.
  - eapply Forall_impl; [exact F|]. intros it (? & ? & ?). split_and!; [done| |done].
    exists a. split; [by left|done].
  - eapply Forall_impl; [exact F'|]. intros it (? & (a' & ? & ?) & Hnin).
    split_and!; [done| |by destruct s].
    exists a'. split; [by right|done].
Qed.

End Drained.

(** The case analysis of [downloadAsset_resume]. *)
Ltac settle_cases E t Ht :=
  match type of E with
  | downloadAsset_resume ?i ?r ?s = Some _ =>
      unfold downloadAsset_resume in E;
      destruct (pending s !! i) as [t|] eqn:Ht; [|done];
      cbn [mbind option_bind] in E; injection E as <-;
      destruct (task_phase t) eqn:?, r; try case_bool_decide;
      try (destruct (files s !! _));
      try (destruct (URL_new (item_url _) None));
      try match goal with
          | |- context [processCSSFile_rewrite ?b ?fp ?c s] =>
              let E' := fresh "E" in
              let s1 := fresh "s" in
              destruct (css_rewrite_new b fp c s) as (new & E' & Hnew);
              destruct (processCSSFile_rewrite b fp c s) as [updatedCSS s1];
              simpl in E'; subst s1
          end
  end.

Section Grows.
Context `{URLApi}.

Lemma grows_refl s : grows s s.
Proof. by repeat split. Qed.

Lemma grows_trans s1 s2 s3 : grows s1 s2 → grows s2 s3 → grows s1 s3.
Proof.
  intros (?&?&?&?&?&?&?&?&?) (?&?&?&?&?&?&?&?&?).
  repeat split; try congruence; by etrans.
Qed.

Lemma turn_grows s : grows s (processDownloadQueue_turn s).
Proof.
  destruct (turn_cases s) as [(_ & _ & ->)|[(_ & ->)|(it & rest & _ & _ & ->)]].
  - destruct s. by repeat split.
  - destruct s. by repeat split.
  - unfold downloadAsset_begin, has. destruct s. unfold_upd.
    case_bool_decide; repeat split; try done; by apply prefix_app_r.
Qed.

Lemma resume_grows i r s s' : downloadAsset_resume i r s = Some s' → grows s s'.
Proof.
  intros E. settle_cases E t Ht; destruct s; unfold grows; unfold_upd;
    rewrite ?dom_insert_L, ?app_nil_r;
    repeat split; try done; try set_solver; by apply prefix_app_r.
Qed.

Lemma step_grows a s s' : step a s = Some s' → grows s s'.
Proof.
  unfold step. intros E. destruct a, (loop s); simplify_eq.
  - apply turn_grows.
  - destruct s. by repeat split.
  - by eapply resume_grows.
Qed.

Lemma run_grows acts s s' : run acts s = Some s' → grows s s'.
Proof.
  intros E. eapply (run_invariant (grows s)); [|done|apply grows_refl].
  intros a s1 s2 Hstep Hs1. eapply grows_trans; [done|]. by eapply step_grows.
Qed.

End Grows.

Section Invariants.
Context `{URLApi}.

Lemma step_items P a s s' :
  (∀ it, resolved_item it → item_type it = other_asset → P it) →
  step a s = Some s' → items_inv P s → items_inv P s'.
Proof.
  intros HP E [Hq Hp]. unfold step in E. destruct a, (loop s); simplify_eq.
  - destruct (turn_cases s) as [(_ & _ & ->)|[(_ & ->)|(it & rest & Eq & _ & ->)]].
    + by destruct s.
    + by destruct s.
    + rewrite Eq in Hq. apply Forall_cons in Hq as [Hit Hrest].
      unfold downloadAsset_begin, has. destruct s. unfold items_inv. unfold_upd.
      simpl in Hp. case_bool_decide; (split; [done|]); [done|].
      apply Forall_app. split; [done|]. apply Forall_singleton.
      split; [done|]. by intros [?|[? ?]].
  - by destruct s.
  - settle_cases E t Ht;
      pose proof (Forall_lookup_1 _ _ _ _ Hp Ht) as [HPt Hcss];
      try match goal with Hc : task_phase _ = _ |- _ => rewrite Hc in Hcss end;
      destruct s; unfold items_inv; unfold_upd; simpl in Hq, Hp;
      (split;
       [ first [ done
               | apply Forall_app; split; [done|];
                 eapply Forall_impl; [exact Hnew|]; intros ? [? ?]; by apply HP ]
       | first [ by apply Forall_delete
               | apply Forall_insert; [done|]; split; [done|]; cbn [task_phase task_item];
                 intros Hph;
                 first [ done | by destruct Hph as [?|[? ?]]
                       | apply Hcss; by left ] ] ]).
Qed.

Lemma run_items P acts s s' :
  (∀ it, resolved_item it → item_type it = other_asset → P it) →
  run acts s = Some s' → items_inv P s → items_inv P s'.
Proof.
  intros HP. revert s s'. apply run_invariant. intros a s s'. by apply step_items.
Qed.

(** A settled write is in the file system. *)
Lemma resume_written i r s s' t data :
  downloadAsset_resume i r s = Some s' → pending s !! i = Some t →
  task_phase t = AwaitWriteFile data →
  item_url (task_item t) ∈ downloadedFiles s' →
  item_url (task_item t) ∈ downloadedFiles s
  ∨ filePathOf s (task_item t) ∈ dom (files s').
Proof.
  unfold downloadAsset_resume. intros E Ht Hph. rewrite Ht in E.
  cbn [mbind option_bind] in E. injection E as <-. rewrite Hph.
  destruct r; [|by destruct s; unfold_upd; auto].
  intros _. right. case_bool_decide; destruct s; unfold_upd;
    rewrite dom_insert_L; set_solver.
Qed.

Lemma on_disk_grows s s' u : grows s s' → on_disk s u → on_disk s' u.
Proof.
  intros (_ & Eo & _ & _ & _ & Hf & _) (U & HU & Hin).
  exists U. split; [done|]. rewrite Eo. by apply Hf.
Qed.

Lemma step_on_disk (D0 : gset string) a s s' :
  step a s = Some s' →
  Forall (λ t, resolved_item (task_item t)) (pending s) →
  (∀ u, u ∈ downloadedFiles s → u ∈ D0 ∨ on_disk s u) →
  (∀ u, u ∈ downloadedFiles s' → u ∈ D0 ∨ on_disk s' u).
Proof.
  intros Hstep Hp Hd u Hu. pose proof (step_grows _ _ _ Hstep) as Hg.
  destruct (decide (u ∈ downloadedFiles s)) as [Hold|Hnew].
  { destruct (Hd u Hold) as [?|?]; [by left|right]. by eapply on_disk_grows. }
  right. unfold step in Hstep. destruct a, (loop s); simplify_eq.
  - by rewrite (proj1 (tick_effect s)) in Hu.
  - by destruct s.
  - destruct (resume_downloaded _ _ _ _ _ Hstep Hu Hnew)
      as (t & data & data' & -> & Ht & Hph & <-).
    destruct (resume_written _ _ _ _ _ _ Hstep Ht Hph Hu) as [?|Hin]; [done|].
    destruct (Forall_lookup_1 _ _ _ _ Hp Ht) as (U & HU & _ & Hlp).
    exists U. split; [done|]. destruct Hg as (_ & -> & _).
    unfold filePathOf in Hin. by rewrite Hlp in Hin.
Qed.

Lemma run_on_disk (D0 : gset string) acts : ∀ s s',
  run acts s = Some s' →
  items_inv resolved_item s →
  (∀ u, u ∈ downloadedFiles s → u ∈ D0 ∨ on_disk s u) →
  (∀ u, u ∈ downloadedFiles s' → u ∈ D0 ∨ on_disk s' u).
Proof.
  induction acts as [|a acts IH]; intros s s' E Hi Hd; simpl in E.
  { by simplify_eq. }
  destruct (step a s) as [s1|] eqn:Ha; [|done]. simpl in E.
  eapply IH; [done|..].
  - eapply step_items; [|done..]. by intros.
  - eapply step_on_disk; [done| |done].
    destruct Hi as [_ Hp]. eapply Forall_impl; [exact Hp|]. by intros t [? _].
Qed.

(** The protocol of [downloadAsset]: a file is written only by a call that
    is past its [ensureDir], and a call gets there only through it. *)
Lemma resume_protocol i r s s' :
  downloadAsset_resume i r s = Some s' →
  ∃ t, pending s !! i = Some t
    ∧ (files s' = files s
       ∨ ∃ data, dir_ensured (task_phase t)
           ∧ files s' = <[filePathOf s (task_item t) := data]> (files s))
    ∧ (pending s' = delete i (pending s)
       ∨ ∃ ph, pending s' = <[i := Task (task_item t) ph]> (pending s)
           ∧ (dir_ensured ph →
              dir_ensured (task_phase t)
              ∨ Path.dirname (filePathOf s (task_item t)) ∈ dirs s')).
Proof.
  intros E. settle_cases E t Ht; exists t; (split; [done|]);
    match goal with Hc : task_phase _ = _ |- _ => rewrite Hc end;
    destruct s; unfold filePathOf; unfold_upd;
    (split;
     [ first [ by left | right; eexists; split; [|done]; unfold dir_ensured, css_phase; eauto ]
     | first [ by left
             | right; eexists; split; [done|]; intros Hph;
               first [ by destruct Hph as [[? ?]|[?|[? ?]]]
                     | right; set_solver
                     | left; unfold dir_ensured, css_phase; eauto ] ] ]).
Qed.

Lemma step_dirs a s s' : step a s = Some s' → dirs_inv s → dirs_inv s'.
Proof.
  intros E [Hf Hp]. pose proof (step_grows _ _ _ E) as (_ & Eo & _ & _ & _ & _ & Hd & _).
  unfold step in E. destruct a, (loop s); simplify_eq.
  - destruct (turn_cases s) as [(_ & _ & ->)|[(_ & ->)|(it & rest & Eq & _ & ->)]].
    + by destruct s.
    + by destruct s.
    + unfold downloadAsset_begin, has. destruct s. unfold dirs_inv, filePathOf in *.
      unfold_upd. simpl in Hf, Hp. case_bool_decide; (split; [done|]); [done|].
      apply Forall_app. split; [done|]. apply Forall_singleton.
      by intros [[? ?]|[?|[? ?]]].
  - by destruct s.
  - destruct (resume_protocol _ _ _ _ E) as (t & Ht & Hfiles & Hpend).
    pose proof (Forall_lookup_1 _ _ _ _ Hp Ht) as Hdir.
    assert (Forall (λ t, dir_ensured (task_phase t) →
                         Path.dirname (filePathOf s' (task_item t)) ∈ dirs s')
              (pending s)) as Hp'.
    { eapply Forall_impl; [exact Hp|]. intros t' Ht' Hph.
      unfold filePathOf in *. rewrite Eo. by apply Hd, Ht'. }
    split.
    + intros p Hin. destruct Hfiles as [Ef|(data & Hph & Ef)]; rewrite Ef in Hin;
        [by apply Hd, Hf|].
      rewrite dom_insert_L in Hin.
      apply elem_of_union in Hin as [->%elem_of_singleton|Hin]; [|by apply Hd, Hf].
      by apply Hd, Hdir.
    + destruct Hpend as [->|(ph & -> & Hph)]; [by apply Forall_delete|].
      apply Forall_insert; [done|]. cbn [task_phase task_item]. intros Hph'.
      unfold filePathOf in *. rewrite Eo.
      destruct (Hph Hph') as [Hold|?]; [|done]. by apply Hd, Hdir.
Qed.

End Invariants.

(** ** The page, and how [clone] ends *)

Section PageDownload.
Context `{URLApi} `{Cheerio}.

Lemma processAssets_new doc url s doc' s' :
  processAssets doc url s = Some (doc', s') →
  ∃ new lines,
    s' = extend new lines s
    ∧ Forall (λ it, resolved_item it ∧ item_type it ≠ other_asset
                    ∧ item_url it ∉ downloadedFiles s) new.
Proof.
  unfold processAssets. destruct (URL_new url None) as [base|]; [|done].
  simpl. intros E. injection E as E.
  destruct (process_assets_new base (find_assets doc) doc s)
    as (new & lines & E' & F).
  rewrite E in E'. simpl in E'. exists new, lines. split; [done|].
  eapply Forall_impl; [exact F|]. intros it (? & (a & Ha & Et) & ?).
  split_and!; [done| |done]. rewrite Et.
  apply find_assets_spec in Ha as (e & _ & _ & Hkind).
  intros Eo. by rewrite Eo in Hkind.
Qed.

(** What [downloadPage] does whatever the environment answers. *)
Lemma downloadPage_effect url filename env s :
  ∃ new,
    grows s (downloadPage url filename env s)
    ∧ requests (downloadPage url filename env s) = requests s ++ [url]
    ∧ downloadQueue (downloadPage url filename env s) = downloadQueue s ++ new
    ∧ Forall (λ it, resolved_item it ∧ item_type it ≠ other_asset
                    ∧ item_url it ∉ downloadedFiles s) new
    ∧ ((∃ data html,
          page_get env = Resolved data
          ∧ downloadedFiles (downloadPage url filename env s)
            = {[url]} ∪ downloadedFiles s
          ∧ files (downloadPage url filename env s)
            = <[Path.join (outputDir s) filename := html]> (files s)
          ∧ dirs (downloadPage url filename env s)
            = {[Path.dirname (Path.join (outputDir s) filename)]} ∪ dirs s)
       ∨ (downloadedFiles (downloadPage url filename env s) = downloadedFiles s
          ∧ files (downloadPage url filename env s) = files s
          ∧ ∃ msg, last (console (downloadPage url filename env s))
                   = Some (LogError url msg))).
Proof.
  unfold downloadPage.
  destruct (page_get env) as [data|msg].
  2:{ exists []. destruct s. unfold grows. unfold_upd. rewrite app_nil_r.
      split_and!; try done;
        try (rewrite <- ?app_assoc; by apply prefix_app_r).
      right. split_and!; try done. exists msg. apply last_snoc. }
  destruct (processAssets _ url _) as [[doc s1]|] eqn:E.
  2:{ exists []. destruct s. unfold grows. unfold_upd. rewrite app_nil_r.
      split_and!; try done;
        try (rewrite <- ?app_assoc; by apply prefix_app_r).
      right. split_and!; try done. eexists. apply last_snoc. }
  apply processAssets_new in E as (new & lines & -> & Hnew).
  exists new. split_and!.
  - destruct (rewriteLinks doc url _), (page_ensureDir env), (page_writeFile env);
      destruct s; unfold grows; unfold_upd; rewrite ?dom_insert_L;
      split_and!; try done; try set_solver;
      rewrite <- ?app_assoc; by apply prefix_app_r.
  - destruct (rewriteLinks doc url _), (page_ensureDir env), (page_writeFile env);
      by destruct s.
  - destruct (rewriteLinks doc url _), (page_ensureDir env), (page_writeFile env);
      by destruct s.
  - eapply Forall_impl; [exact Hnew|]. intros it (? & ? & ?). split_and!; try done.
    by destruct s.
  - destruct (rewriteLinks doc url _), (page_ensureDir env), (page_writeFile env);
      destruct s; unfold_upd;
      first [ left; eexists _, _; by split_and!
            | right; split_and!; try done; eexists; apply last_snoc ].
Qed.

(** The state [processDownloadQueue] starts from. *)
Lemma clone_page_effect url dir wd ensureOut env s0 s1 :
  constructor url dir wd = Some s0 →
  clone_page ensureOut env s0 = inr s1 →
  quiescent s1 ∧ maxConcurrent s1 = 5
  ∧ outputDir s1 = dir ∧ cwd s1 = wd ∧ baseUrl s1 = baseUrl s0
  ∧ requests s1 = [href (baseUrl s0)]
  ∧ Forall (λ it, resolved_item it ∧ item_type it ≠ other_asset) (downloadQueue s1)
  ∧ dir ∈ dirs s1
  ∧ ((downloadedFiles s1 = {[href (baseUrl s0)]}
      ∧ dom (files s1) = {[Path.join dir "index.html"]}
      ∧ Path.dirname (Path.join dir "index.html") ∈ dirs s1)
     ∨ (downloadedFiles s1 = ∅ ∧ files s1 = ∅)).
Proof.
  unfold constructor. destruct (URL_new url None) as [base|]; [|done].
  intros E. injection E as <-. unfold clone_page. destruct ensureOut; [|done].
  intros E. injection E as <-. unfold_upd.
  match goal with |- context [downloadPage _ _ _ ?x] => set (s := x) end.
  destruct (downloadPage_effect (href base) "index.html" env s)
    as (new & Hg & Er & Eq & Hnew & Hcase).
  pose proof (downloadPage_sched (href base) "index.html" env s) as Hs.
  destruct Hg as (Eb & Eo & Ec & Em & _ & _ & Hd & _).
  split_and!.
  - eapply quiescent_fields; [exact Hs|]. by unfold s, quiescent.
  - by rewrite Em.
  - by rewrite Eo.
  - by rewrite Ec.
  - by rewrite Eb.
  - by rewrite Er.
  - rewrite Eq. simpl. eapply Forall_impl; [exact Hnew|]. by intros it (? & ? & _).
  - apply Hd. unfold s. apply elem_of_union. left. by apply elem_of_singleton.
  - destruct Hcase as [(body & html & _ & -> & -> & ->)|(-> & -> & _)].
    + left. unfold s. unfold_upd. rewrite dom_insert_L, dom_empty_L.
      rewrite !(right_id_L ∅ (∪)). split_and!; [done..|].
      apply elem_of_union. left. by apply elem_of_singleton.
    + by right.
Qed.

End PageDownload.

Section Outcome.
Context `{URLApi} `{Cheerio}.

(** X8.  [downloadPage] makes exactly one request, for the page.  What it
    appends to the queue are references of the page whose URL is not in
    [downloadedFiles].  Either the page is marked as downloaded, its file
    is in the file system and the directory of that file was created; or
    nothing is marked and nothing is written, and the last line logged is
    the error for the page.  In both cases the references stay queued. *)
Theorem downloadPage_saves_or_reports url filename env s :
  requests (downloadPage url filename env s) = requests s ++ [url]
  ∧ (∃ new,
       downloadQueue (downloadPage url filename env s) = downloadQueue s ++ new
       ∧ Forall (λ it, (item_url it ∉ downloadedFiles s)
                       ∧ item_type it ≠ other_asset) new)
  ∧ ((downloadedFiles (downloadPage url filename env s)
      = {[url]} ∪ downloadedFiles s
      ∧ Path.join (outputDir s) filename ∈ dom (files (downloadPage url filename env s))
      ∧ Path.dirname (Path.join (outputDir s) filename)
        ∈ dirs (downloadPage url filename env s))
     ∨ (downloadedFiles (downloadPage url filename env s) = downloadedFiles s
        ∧ files (downloadPage url filename env s) = files s
        ∧ ∃ msg, last (console (downloadPage url filename env s))
                 = Some (LogError url msg))).
Proof.
  destruct (downloadPage_effect url filename env s)
    as (new & _ & Er & Eq & Hnew & Hcase).
  split; [done|]. split.
  - exists new. split; [done|]. eapply Forall_impl; [exact Hnew|].
    by intros it (_ & ? & ?).
  - destruct Hcase as [(data & html & _ & Ed & Ef & Edirs)|Hfail]; [left|by right].
    rewrite Ed, Ef, Edirs, dom_insert_L. split_and!; [done|..].
    + apply elem_of_union. left. by apply elem_of_singleton.
    + apply elem_of_union. left. by apply elem_of_singleton.
Qed.

(** X9.  How [clone] ends.  It throws exactly when the output directory
    cannot be created, and then nothing was requested or written.  It is
    fulfilled only when the loop has been left with an empty queue and
    nothing pending, and then the last two lines logged are the completion
    message and the resolved output directory.  Otherwise the loop has not
    been left. *)
Theorem clone_settles url dir wd ensureOut env acts s0 :
  constructor url dir wd = Some s0 →
  match clone ensureOut env acts s0 with
  | Thrown msg s =>
      ensureOut = Rejected msg
      ∧ requests s = [] ∧ files s = ∅
      ∧ console s = [LogStart (href (baseUrl s0)) dir]
  | Fulfilled s =>
      (∃ data, ensureOut = Resolved data)
      ∧ loop s = Exited ∧ downloadQueue s = [] ∧ pending s = []
      ∧ ∃ lines,
          console s
          = LogStart (href (baseUrl s0)) dir
            :: lines ++ [LogCompleted; LogSaved (Path.resolve wd dir)]
  | Unsettled s => (∃ data, ensureOut = Resolved data) ∧ loop s ≠ Exited
  end.
Proof.
  intros Hc. unfold clone.
  destruct (clone_page ensureOut env s0) as [[msg s]|s1] eqn:Hp.
  { unfold constructor in Hc. destruct (URL_new url None) as [base|]; [|done].
    injection Hc as <-. unfold clone_page in Hp.
    destruct ensureOut; [done|]. by injection Hp as <- <-. }
  destruct (clone_page_effect _ _ _ _ _ _ _ Hc Hp)
    as (Hq & _ & Eo & Ew & _ & _ & _ & _ & _).
  assert (∃ data, ensureOut = Resolved data) as Hens.
  { unfold clone_page in Hp. destruct ensureOut; [eauto|done]. }
  assert (∃ lines, console s1 = LogStart (href (baseUrl s0)) dir :: lines)
    as (lines1 & Ec1).
  { unfold constructor in Hc. destruct (URL_new url None) as [base|]; [|done].
    injection Hc as <-. unfold clone_page in Hp.
    destruct ensureOut; [|done]. injection Hp as <-.
    match goal with |- context [downloadPage ?u ?f ?e ?s] =>
      destruct (downloadPage_effect u f e s)
        as (_ & (_ & _ & _ & _ & _ & _ & _ & _ & [k Hk]) & _)
    end.
    rewrite Hk. by exists k. }
  destruct (run acts s1) as [s'|] eqn:Hrun.
  2:{ split; [done|]. by destruct Hq as (_ & _ & _ & -> & _). }
  case_bool_decide as Hexit; [|done].
  pose proof (run_grows _ _ _ Hrun) as (_ & Eo' & Ew' & _ & _ & _ & _ & _ & [k Hk]).
  pose proof (run_inv _ _ _ Hrun (quiescent_inv _ Hq)) as Hinv.
  destruct (inv_exited _ Hinv Hexit) as (Eq & Epend & _).
  split_and!; [done|by destruct s'|by destruct s'|by destruct s'|].
  exists (lines1 ++ k). rewrite Eo', Ew', Eo, Ew.
  destruct s'. unfold_upd. simpl in Hk. rewrite Hk, Ec1.
  by rewrite <- !app_assoc.
Qed.

End Outcome.

(** ** The drain of a clone *)

Section Clone.
Context `{URLApi} `{Cheerio}.

(** X10.  Every URL in [downloadedFiles] has its file: the entry page as
    [index.html] in the output directory, any other URL at the local path
    of its path component under the output directory. *)
Theorem downloaded_files_are_on_disk url dir wd ensureOut env acts s0 s1 s :
  constructor url dir wd = Some s0 →
  clone_page ensureOut env s0 = inr s1 →
  run acts s1 = Some s →
  ∀ u, u ∈ downloadedFiles s →
    (u = href (baseUrl s0) ∧ Path.join dir "index.html" ∈ dom (files s))
    ∨ (∃ U, URL_new u None = Some U
            ∧ Path.join dir (localPathOf (pathname U)) ∈ dom (files s)).
Proof.
  intros Hc Hp Hrun u Hu.
  destruct (clone_page_effect _ _ _ _ _ _ _ Hc Hp)
    as (Hq & _ & Eo & _ & _ & _ & Hitems & _ & Hpage).
  pose proof (run_grows _ _ _ Hrun) as (_ & Eo' & _ & _ & _ & Hf & _).
  assert (items_inv resolved_item s1) as Hi.
  { destruct Hq as (_ & Hpend & _). split; [|by rewrite Hpend].
    eapply Forall_impl; [exact Hitems|]. by intros it [? _]. }
  assert (∀ u, u ∈ downloadedFiles s1 → u ∈ downloadedFiles s1 ∨ on_disk s1 u)
    as Hd0 by auto.
  destruct (run_on_disk (downloadedFiles s1) acts s1 s Hrun Hi Hd0 u Hu)
    as [Hin|(U & HU & Hin)].
  - left. destruct Hpage as [(Ed & Ef & _)|(Ed & _)]; rewrite Ed in Hin.
    + apply elem_of_singleton in Hin as ->. split; [done|].
      apply Hf. rewrite Ef. by apply elem_of_singleton.
    + by apply elem_of_empty in Hin.
  - right. exists U. split; [done|]. by rewrite <- Eo, <- Eo'.
Qed.

(** X11.  The output directory was created, and every file of the clone
    is in a directory that was created before the file was written. *)
Theorem files_are_in_created_directories url dir wd ensureOut env acts s0 s1 s :
  constructor url dir wd = Some s0 →
  clone_page ensureOut env s0 = inr s1 →
  run acts s1 = Some s →
  dir ∈ dirs s ∧ ∀ p, p ∈ dom (files s) → Path.dirname p ∈ dirs s.
Proof.
  intros Hc Hp Hrun.
  destruct (clone_page_effect _ _ _ _ _ _ _ Hc Hp)
    as (Hq & _ & _ & _ & _ & _ & _ & Hdir & Hpage).
  pose proof (run_grows _ _ _ Hrun) as (_ & _ & _ & _ & _ & _ & Hd & _).
  split; [by apply Hd|].
  assert (dirs_inv s) as [Hf _]; [|done].
  eapply (run_invariant dirs_inv); [apply step_dirs|done|].
  destruct Hq as (_ & Hpend & _). split; [|by rewrite Hpend].
  intros p Hin. destruct Hpage as [(_ & Ef & Hi)|(_ & Ef)]; rewrite Ef in Hin.
  - by apply elem_of_singleton in Hin as ->.
  - by rewrite dom_empty_L in Hin.
Qed.

Lemma step_requests_resolved a s s' :
  step a s = Some s' →
  Forall resolved_item (downloadQueue s) →
  Forall (λ u, ∃ U, URL_new u None = Some U ∧ href U = u) (requests s) →
  Forall (λ u, ∃ U, URL_new u None = Some U ∧ href U = u) (requests s').
Proof.
  unfold step. intros E Hq Hr. destruct a, (loop s); simplify_eq.
  - destruct (tick_effect s) as [_ [(_ & -> & _)|(it & rest & Eq & _ & _ & Hc)]];
      [done|].
    destruct Hc as [(_ & -> & _)|(_ & -> & _)]; [done|].
    apply Forall_app. split; [done|]. apply Forall_singleton.
    rewrite Eq in Hq. apply Forall_cons in Hq as [(U & HU & Eh & _) _]. eauto.
  - by destruct s.
  - by apply resume_effect in E as (t & new & _ & _ & _ & -> & _).
Qed.

Lemma run_requests_resolved acts : ∀ s s',
  run acts s = Some s' →
  items_inv resolved_item s →
  Forall (λ u, ∃ U, URL_new u None = Some U ∧ href U = u) (requests s) →
  Forall (λ u, ∃ U, URL_new u None = Some U ∧ href U = u) (requests s').
Proof.
  induction acts as [|a acts IH]; intros s s' E Hi Hr; simpl in E.
  { by simplify_eq. }
  destruct (step a s) as [s1|] eqn:Ha; [|done]. simpl in E.
  eapply IH; [done|..].
  - eapply step_items; [|done..]. by intros.
  - eapply step_requests_resolved; [done| |done]. by destruct Hi.
Qed.

(** X12.  Every request of a clone is for the serialisation of a parsed
    URL: the entry page, or a reference once it has been resolved against
    the page or the stylesheet that holds it.  A reference is never
    requested as it is written. *)
Theorem requests_are_serialised_urls url dir wd ensureOut env acts s0 s1 s :
  constructor url dir wd = Some s0 →
  clone_page ensureOut env s0 = inr s1 →
  run acts s1 = Some s →
  ∀ u, u ∈ requests s → ∃ U, URL_new u None = Some U ∧ href U = u.
Proof.
  intros Hc Hp Hrun.
  destruct (clone_page_effect _ _ _ _ _ _ _ Hc Hp)
    as (Hq & _ & _ & _ & _ & Er & Hitems & _).
  apply Forall_forall. eapply run_requests_resolved; [done|..].
  - destruct Hq as (_ & Hpend & _). split; [|by rewrite Hpend].
    eapply Forall_impl; [exact Hitems|]. by intros it [? _].
  - rewrite Er. apply Forall_singleton.
    unfold constructor in Hc. destruct (URL_new url None) as [base|] eqn:Hb; [|done].
    injection Hc as <-. exists base. split; [|done]. by eapply URL_new_href.
Qed.

End Clone.

Section Progress.
Context `{URLApi}.

(** X13.  Only the stylesheets that are queued when the drain begins are
    scanned for references.  Any item of type [css] in the queue, and the
    item of any call at an await of [processCSSFile], was in the queue at
    the start: what a stylesheet refers to is downloaded, never scanned. *)
Theorem only_page_stylesheets_are_scanned acts s1 s :
  pending s1 = [] →
  run acts s1 = Some s →
  (∀ it, it ∈ downloadQueue s → item_type it = css → it ∈ downloadQueue s1)
  ∧ (∀ t, t ∈ pending s → css_phase (task_phase t) →
       item_type (task_item t) = css ∧ task_item t ∈ downloadQueue s1).
Proof.
  intros Hp Hrun.
  assert (items_inv (λ it, item_type it = css → it ∈ downloadQueue s1) s)
    as [Hq' Hp'].
  { eapply run_items; [|done|].
    - intros it _ Ht. by rewrite Ht.
    - split; [by apply Forall_forall|]. by rewrite Hp. }
  split.
  - intros it Hin. by eapply Forall_forall in Hq'.
  - intros t Hin Hph. eapply Forall_forall in Hp' as [Hin1 Hcss]; [|done].
    split; auto.
Qed.

(** X14.  The drain only adds.  Whatever the loop and the settled
    operations do, the base URL, the output directory, the working
    directory and the ceiling stay as they are, no URL leaves
    [downloadedFiles], no file and no directory disappears, and the
    requests and the console only get longer. *)
Theorem drain_only_adds acts s s' :
  run acts s = Some s' →
  baseUrl s' = baseUrl s ∧ outputDir s' = outputDir s ∧ cwd s' = cwd s
  ∧ maxConcurrent s' = maxConcurrent s
  ∧ downloadedFiles s ⊆ downloadedFiles s'
  ∧ dom (files s) ⊆ dom (files s')
  ∧ dirs s ⊆ dirs s'
  ∧ requests s `prefix_of` requests s'
  ∧ console s `prefix_of` console s'.
Proof.
  revert s. induction acts as [|a acts IH]; intros s E; simpl in E.
  { simplify_eq. apply grows_refl. }
  destruct (step a s) as [s1|] eqn:Ha; [|done]. simpl in E.
  apply (grows_trans s s1 s'); [by eapply step_grows|by apply IH].
Qed.

Lemma begin_fields it s :
  loop (downloadAsset_begin it s) = loop s
  ∧ downloadQueue (downloadAsset_begin it s) = downloadQueue s
  ∧ maxConcurrent (downloadAsset_begin it s) = maxConcurrent s.
Proof. unfold downloadAsset_begin. destruct (has _ s); by destruct s. Qed.

Lemma step_asleep a s s' : step a s = Some s' → asleep_inv s → asleep_inv s'.
Proof.
  intros E [Hinv Hs]. split; [by eapply step_inv|].
  unfold step in E. destruct a, (loop s) eqn:Hl; simplify_eq.
  - destruct (turn_cases s) as [(Hq & Ha & ->)|[(_ & ->)|(it & rest & _ & _ & ->)]].
    + intros _. pose proof (inv_count _ Hinv). destruct s. simpl in *. lia.
    + intros _. by destruct s.
    + destruct (begin_fields it
                  (upd_activeDownloads (λ a, a + 1) (upd_downloadQueue (λ _, rest) s)))
        as (-> & _). destruct s. simpl in *. by subst.
  - destruct s. simpl. done.
  - apply resume_sched in E as (t & _ & _ & -> & -> & _). rewrite Hl.
    intros _. by apply Hs.
Qed.

(** X15.  [activeDownloads] never goes below zero, and whenever the loop
    is asleep or has been left it is exactly the number of calls of
    [downloadAsset] that have not ended. *)
Theorem active_counts_pending acts s0 s :
  quiescent s0 →
  run acts s0 = Some s →
  0 ≤ activeDownloads s
  ∧ (loop s ≠ Running → activeDownloads s = Z.of_nat (length (pending s))).
Proof.
  intros Hq Hrun.
  assert (asleep_inv s) as [Hinv Hs].
  { eapply (run_invariant asleep_inv); [apply step_asleep|done|].
    split; [by apply quiescent_inv|]. by destruct Hq as (_ & _ & _ & -> & _). }
  pose proof (inv_count _ Hinv) as Hc. split; [lia|].
  intros Hl. rewrite (Hs Hl) in Hc. lia.
Qed.





(** A pending call whose awaited operation is rejected ends. *)
Lemma resume_rejected_ends i msg s t :
  pending s !! i = Some t →
  ∃ s', downloadAsset_resume i (Rejected msg) s = Some s'
    ∧ pending s' = delete i (pending s)
    ∧ downloadQueue s' = downloadQueue s
    ∧ loop s' = loop s.
Proof.
  intros Ht. unfold downloadAsset_resume. rewrite Ht. cbn [mbind option_bind].
  eexists. split; [done|]. destruct (task_phase t); destruct s; by unfold_upd.
Qed.

Lemma flush n : ∀ s,
  length (pending s) = n → loop s = Sleeping →
  ∃ acts s', run acts s = Some s' ∧ loop s' = Sleeping ∧ pending s' = []
    ∧ downloadQueue s' = downloadQueue s.
Proof.
  induction n as [|n IH]; intros s Hn Hl.
  { exists [], s. split_and!; try done. by apply nil_length_inv. }
  destruct (pending s) as [|t p] eqn:Hp; [done|].
  destruct (resume_rejected_ends 0 "" s t) as (s1 & E1 & Ep & Eq & El).
  { by rewrite Hp. }
  destruct (IH s1) as (acts & s' & Hrun & Hl' & Hp' & Hq').
  { rewrite Ep, Hp. simpl in *. lia. }
  { by rewrite El. }
  exists (Settle 0 (Rejected "") :: acts), s'. split_and!; try done.
  - simpl. unfold step. rewrite Hl, E1. done.
  - by rewrite Hq', Eq.
Qed.

Lemma step_tick s :
  loop s = Running → step Tick s = Some (processDownloadQueue_turn s).
Proof. intros Hl. unfold step. by rewrite Hl. Qed.

(** A turn that takes an item leaves the loop running, with the rest of
    the queue. *)
Lemma turn_takes s it rest :
  loop s = Running →
  processDownloadQueue_turn s
  = downloadAsset_begin it
      (upd_activeDownloads (λ a, a + 1) (upd_downloadQueue (λ _, rest) s)) →
  loop (processDownloadQueue_turn s) = Running
  ∧ downloadQueue (processDownloadQueue_turn s) = rest.
Proof.
  intros Hl ->.
  destruct (begin_fields it
              (upd_activeDownloads (λ a, a + 1) (upd_downloadQueue (λ _, rest) s)))
    as (-> & -> & _).
  by destruct s.
Qed.

(** A loop that goes to sleep can be woken up with nothing pending. *)
Lemma wake s :
  loop s = Running → asleep_inv s →
  processDownloadQueue_turn s = processDownloadQueue_wait s →
  ∃ acts s', run (Tick :: acts) s = Some s'
    ∧ loop s' = Running ∧ asleep_inv s' ∧ activeDownloads s' = 0
    ∧ downloadQueue s' = downloadQueue s ∧ maxConcurrent s' = maxConcurrent s.
Proof.
  intros Hl Hinv Et.
  pose proof (step_tick s Hl) as Hstep. rewrite Et in Hstep.
  pose proof (step_asleep _ _ _ Hstep Hinv) as Hinv1.
  destruct (flush (length (pending (processDownloadQueue_wait s)))
              (processDownloadQueue_wait s))
    as (acts & s2 & Hrun & Hl2 & Hp2 & Hq2); [done|by destruct s|].
  pose proof (run_invariant asleep_inv step_asleep _ _ _ Hrun Hinv1) as Hinv2.
  assert (step Timer s2 = Some (upd_loop (λ _, Running) s2)) as Htimer.
  { unfold step. by rewrite Hl2. }
  exists (acts ++ [Timer]), (upd_loop (λ _, Running) s2). split_and!.
  - cbn [run]. rewrite Hstep. cbn [mbind option_bind].
    rewrite run_app, Hrun. cbn [mbind option_bind run]. by rewrite Htimer.
  - by destruct s2.
  - by eapply step_asleep.
  - destruct Hinv2 as [Hinv2 Hs2]. pose proof (inv_count _ Hinv2) as Hc.
    rewrite Hp2, Hs2 in Hc by (by rewrite Hl2). by destruct s2.
  - transitivity (downloadQueue s2); [by destruct s2|].
    rewrite Hq2. by destruct s.
  - rewrite (step_max _ _ _ Htimer), (run_max _ _ _ Hrun). by destruct s.
Qed.

Lemma drain_running n : ∀ s,
  length (downloadQueue s) = n → loop s = Running → asleep_inv s →
  0 < maxConcurrent s →
  ∃ acts s', run acts s = Some s' ∧ loop s' = Exited.
Proof.
  induction n as [|n IH]; intros s Hn Hl Hinv Hmax.
  - apply nil_length_inv in Hn.
    destruct (turn_cases s) as [(_ & _ & Et)|[(_ & Et)|(it & rest & Hq & _)]];
      [| |congruence].
    + exists [Tick], (processDownloadQueue_turn s). cbn [run].
      rewrite (step_tick s Hl). split; [done|]. rewrite Et. by destruct s.
    + destruct (wake s Hl Hinv Et) as (acts & s3 & Hrun & Hl3 & Hinv3 & Ha3 & Hq3 & Hm3).
      exists ((Tick :: acts) ++ [Tick]), (processDownloadQueue_turn s3). split.
      * rewrite run_app, Hrun. cbn [mbind option_bind run].
        by rewrite (step_tick s3 Hl3).
      * destruct (turn_cases s3)
          as [(_ & _ & Et3)|[([[_ ?]|[? _]] & _)|(it & rest & Hq & _)]].
        -- rewrite Et3. by destruct s3.
        -- lia.
        -- congruence.
        -- congruence.
  - assert (∀ s1 it rest,
              loop s1 = Running → asleep_inv s1 → 0 < maxConcurrent s1 →
              length (downloadQueue s1) = S n →
              downloadQueue s1 = it :: rest →
              processDownloadQueue_turn s1
              = downloadAsset_begin it
                  (upd_activeDownloads (λ a, a + 1)
                     (upd_downloadQueue (λ _, rest) s1)) →
              ∃ acts s', run (Tick :: acts) s1 = Some s' ∧ loop s' = Exited)
      as Htake.
    { intros s1 it rest Hl1 Hinv1 Hmax1 Hn1 Hq1 Et1.
      destruct (turn_takes s1 it rest Hl1 Et1) as [Hl' Hq'].
      pose proof (step_tick s1 Hl1) as Hstep.
      destruct (IH (processDownloadQueue_turn s1)) as (acts & s' & Hrun & Hexit).
      - rewrite Hq'. rewrite Hq1 in Hn1. simpl in Hn1. lia.
      - done.
      - by eapply step_asleep.
      - by rewrite (step_max _ _ _ Hstep).
      - exists acts, s'. cbn [run]. rewrite Hstep. by split. }
    destruct (turn_cases s) as [(Hq & _)|[(_ & Et)|(it & rest & Hq & _ & Et)]].
    + by rewrite Hq in Hn.
    + destruct (wake s Hl Hinv Et) as (acts & s3 & Hrun & Hl3 & Hinv3 & Ha3 & Hq3 & Hm3).
      destruct (turn_cases s3)
        as [(Hq & _)|[([[Hq _]|[_ ?]] & _)|(it & rest & Hq & _ & Et3)]].
      * rewrite Hq3 in Hq. by rewrite Hq in Hn.
      * rewrite Hq3 in Hq. by rewrite Hq in Hn.
      * lia.
      * destruct (Htake s3 it rest) as (acts' & s' & Hrun' & Hexit); try done.
        { by rewrite Hm3. } { by rewrite Hq3. }
        exists ((Tick :: acts) ++ Tick :: acts'), s'. split; [|done].
        by rewrite run_app, Hrun.
    + destruct (Htake s it rest) as (acts' & s' & Hrun' & Hexit); try done.
      by exists (Tick :: acts'), s'.
Qed.

(** X17.  The drain cannot get stuck: from every state it can reach there
    is a continuation, in which the pending operations fail and the timer
    fires, after which the loop is left. *)
Theorem drain_can_finish acts s0 s :
  quiescent s0 → 0 < maxConcurrent s0 →
  run acts s0 = Some s →
  ∃ more s', run (acts ++ more) s0 = Some s' ∧ loop s' = Exited.
Proof.
  intros Hq Hmax Hrun.
  assert (asleep_inv s) as Hinv.
  { eapply (run_invariant asleep_inv); [apply step_asleep|done|].
    split; [by apply quiescent_inv|]. by destruct Hq as (_ & _ & _ & -> & _). }
  assert (0 < maxConcurrent s) as Hmax' by by rewrite (run_max _ _ _ Hrun).
  assert (∃ more s', run more s = Some s' ∧ loop s' = Exited)
    as (more & s' & Hmore & Hexit).
  { destruct (loop s) eqn:Hl.
    - by eapply drain_running.
    - destruct (flush (length (pending s)) s) as (acts1 & s2 & Hrun1 & Hl2 & _);
        [done..|].
      pose proof (run_invariant asleep_inv step_asleep _ _ _ Hrun1 Hinv) as Hinv2.
      assert (step Timer s2 = Some (upd_loop (λ _, Running) s2)) as Htimer.
      { unfold step. by rewrite Hl2. }
      destruct (drain_running (length (downloadQueue (upd_loop (λ _, Running) s2)))
                  (upd_loop (λ _, Running) s2))
        as (acts2 & s' & Hrun2 & Hexit); [done|by destruct s2|by eapply step_asleep| |].
      { by rewrite (step_max _ _ _ Htimer), (run_max _ _ _ Hrun1). }
      exists (acts1 ++ Timer :: acts2), s'. split; [|done].
      rewrite run_app, Hrun1. cbn [mbind option_bind run]. by rewrite Htimer.
    - by exists [], s. }
  exists more, s'. split; [|done]. by rewrite run_app, Hrun.
Qed.

End Progress.

(** ** A download from its request to its end *)

Lemma list_delete_insert_eq {A} (l : list A) i x : delete i (<[i:=x]> l) = delete i l.
Proof. revert i. induction l as [|y l IH]; intros [|i]; simpl; [done..|]. by rewrite IH. Qed.

Section Download.
Context `{URLApi}.

(** One settled operation of a pending call, as a step of the drain. *)
Lemma step_settle i r s :
  loop s = Sleeping → step (Settle i r) s = downloadAsset_resume i r s.
Proof. intros Hl. unfold step. by rewrite Hl. Qed.

(** X18.  A download whose request, [ensureDir] and [writeFile] succeed
    stores the body of the response, unchanged, at the local path of the
    item under the output directory, creates the directory of that file
    and marks the URL as downloaded; nothing is queued, requested or
    logged.  A stylesheet is then at the first await of [processCSSFile];
    any other item ends, and [activeDownloads] is decremented. *)
Theorem download_stores_response i it data d1 d2 s :
  loop s = Sleeping →
  pending s !! i = Some (Task it AwaitGet) →
  ∃ s',
    run [Settle i (Resolved data); Settle i (Resolved d1); Settle i (Resolved d2)] s
    = Some s'
    ∧ files s' = <[filePathOf s it := data]> (files s)
    ∧ dirs s' = {[Path.dirname (filePathOf s it)]} ∪ dirs s
    ∧ downloadedFiles s' = {[item_url it]} ∪ downloadedFiles s
    ∧ downloadQueue s' = downloadQueue s
    ∧ requests s' = requests s
    ∧ console s' = console s
    ∧ (if bool_decide (item_type it = css)
       then pending s' = <[i := Task it AwaitReadCSS]> (pending s)
            ∧ activeDownloads s' = activeDownloads s
       else pending s' = delete i (pending s)
            ∧ activeDownloads s' = activeDownloads s - 1).
Proof.
  intros Hl Ht. pose proof (lookup_lt_Some _ _ _ Ht) as Hi.
  destruct s as [b o d q m a w fs ds rq c l p n]. simpl in Hl, Ht, Hi. subst l.
  cbn [run]. rewrite step_settle by done.
  unfold downloadAsset_resume at 1. cbn [pending]. rewrite Ht.
  cbn [mbind option_bind task_item task_phase]. unfold_upd.
  rewrite step_settle by done.
  unfold downloadAsset_resume at 1. cbn [pending].
  rewrite list_lookup_insert_eq by done.
  cbn [mbind option_bind task_item task_phase]. unfold_upd.
  rewrite list_insert_insert_eq. unfold filePathOf. cbn [outputDir].
  rewrite step_settle by done.
  unfold downloadAsset_resume at 1. cbn [pending].
  rewrite list_lookup_insert_eq by done.
  cbn [mbind option_bind task_item task_phase]. unfold filePathOf. cbn [outputDir].
  case_bool_decide; unfold_upd; eexists; (split; [done|]); unfold_upd;
    rewrite ?list_insert_insert_eq, ?list_delete_insert_eq; by split_and!.
Qed.


(** X20.  When the read or the write of [processCSSFile] fails, the error
    is logged under the path of the file and the call ends: the file keeps
    the text as it was downloaded, the URL stays in [downloadedFiles], the
    queue, the requests and the other pending calls are untouched, and
    [activeDownloads] is decremented. *)
Theorem stylesheet_failure_is_contained i msg s t :
  pending s !! i = Some t →
  css_phase (task_phase t) →
  ∃ s', downloadAsset_resume i (Rejected msg) s = Some s'
    ∧ console s' = console s ++ [LogCSSError (filePathOf s (task_item t)) msg]
    ∧ files s' = files s
    ∧ downloadedFiles s' = downloadedFiles s
    ∧ downloadQueue s' = downloadQueue s
    ∧ requests s' = requests s
    ∧ pending s' = delete i (pending s)
    ∧ activeDownloads s' = activeDownloads s - 1
    ∧ loop s' = loop s.
Proof.
  intros Ht Hph. unfold downloadAsset_resume. rewrite Ht. cbn [mbind option_bind].
  eexists. split; [done|].
  destruct Hph as [->|[updatedCSS ->]]; destruct s; by unfold_upd.
Qed.

End Download.

(** ** The route of [serveWebsite] *)

(** Segments other than the parent directory only add to the stack. *)
Lemma normalize_no_parent l : ∀ stack,
  Forall (λ seg, seg ≠ "..") l →
  ∃ added, foldl (Path.normalize_step false) stack l = added ++ stack.
Proof.
  induction l as [|seg l IH]; intros stack Hl; cbn [foldl].
  { by exists []. }
  apply Forall_cons in Hl as [Hseg Hl].
  destruct (normalize_step_cases false stack seg) as [[_ ->]|[->|Hp]]; [..|done|].
  - by apply IH.
  - rewrite normalize_step_plain by done.
    destruct (IH (seg :: stack) Hl) as (added & ->).
    exists (added ++ [seg]). by rewrite <- app_assoc.
Qed.

(** What [join] gives resolves to what the two paths, one after the other,
    resolve to. *)
Lemma resolve_join cwd a b :
  a ≠ "" →
  Path.resolve_segments cwd (Path.join a b)
  = rev (foldl (Path.normalize_step false)
           (rev (Path.resolve_segments cwd a)) (Path.segments b)).
Proof.
  intros Ha. unfold Path.join. rewrite (bool_decide_eq_false_2 (a = "")) by done.
  case_bool_decide as Hb.
  - subst b. rewrite resolve_normalize. cbn [foldl].
    change (Path.segments "") with [""]. cbn [foldl].
    change (Path.normalize_step false ?s "") with s. by rewrite rev_involutive.
  - rewrite resolve_normalize, !resolve_segments_base, rev_involutive.
    rewrite segments_app, foldl_app. unfold resolve_base.
    by rewrite isAbsolute_app.
Qed.

(** X21.  For a request path without a parent segment, the file that the
    route of [serveWebsite] sends, be it the requested file or
    [index.html], lies in the served directory or below it. *)
Theorem serve_route_stays_below access lookup cwd directory reqPath :
  directory ≠ "" →
  Forall (λ seg, seg ≠ "..") (Path.segments reqPath) →
  ∃ below,
    sentFile (serve_route access lookup cwd directory reqPath)
    = "/" +:+ Path.unsegments (Path.resolve_segments cwd directory ++ below).
Proof.
  intros Hd Hreq.
  assert (∀ b, Forall (λ seg, seg ≠ "..") (Path.segments b) →
            ∃ below, Path.resolve cwd (Path.join directory b)
                     = "/" +:+ Path.unsegments
                                 (Path.resolve_segments cwd directory ++ below))
    as Hjoin.
  { intros b Hb. unfold Path.resolve. rewrite resolve_join by done.
    destruct (normalize_no_parent (Path.segments b)
                (rev (Path.resolve_segments cwd directory)) Hb) as (added & ->).
    exists (rev added). by rewrite rev_app_distr, rev_involutive. }
  unfold serve_route. destruct (access _); cbn [sentFile].
  - by apply Hjoin.
  - apply Hjoin. vm_compute. repeat constructor; discriminate.
Qed.

(** X22.  The route of [serveWebsite] does not confine what it sends to
    the served directory: for every path there is a request path, made of
    parent segments, for which the route sends the file at that path
    whenever it exists. *)
Theorem serve_route_reaches_any_file access lookup cwd directory target :
  directory ≠ "" →
  access (Path.join directory ("/" +:+ Path.relative cwd directory target)) = true →
  sentFile (serve_route access lookup cwd directory
              ("/" +:+ Path.relative cwd directory target))
  = Path.resolve cwd target.
Proof.
  intros Hd Hacc. unfold serve_route. rewrite Hacc. cbn [sentFile].
  unfold Path.resolve. f_equal. f_equal.
  rewrite <- (relative_resolves cwd directory target).
  rewrite !resolve_join by done. rewrite segments_root. cbn [foldl].
  by change (Path.normalize_step false ?s "") with s.
Qed.

(** ** The further properties on the examples *)

Lemma s_page_quiescent : quiescent Example.s_page.
Proof.
  unfold quiescent. split_and!; [by_compute..|]. vm_compute. discriminate.
Qed.

Lemma s_page_cloned :
  constructor Example.page "out" "/home/u" = Some Example.created
  ∧ clone_page (Resolved "")
      (PageIO (Resolved Example.entry_html) (Resolved "") (Resolved ""))
      Example.created
    = inr Example.s_page
  ∧ run Example.drain Example.s_page = Some Example.s_exit.
Proof. split_and!; by_compute. Qed.



Lemma rewriteLinks_rewrites_internal_witness :
  length Example.links_local = length Example.links_doc
  ∧ ∃ e', Example.links_local !! 0%nat = Some e'
      ∧ tagName e' = tagName (Example.anchor "/docs/intro?lang=en#top")
      ∧ (∀ name, name ≠ "href" →
           attr e' name = attr (Example.anchor "/docs/intro?lang=en#top") name)
      ∧ (∀ u, internal_link (Example.https "ex.test" "/" "" "") Example.created
                (Example.anchor "/docs/intro?lang=en#top") u →
           attr e' "href" = Some ("./" +:+ localPathOf (pathname u)))
      ∧ ((∀ u, ¬ internal_link (Example.https "ex.test" "/" "" "") Example.created
                   (Example.anchor "/docs/intro?lang=en#top") u) →
         e' = Example.anchor "/docs/intro?lang=en#top").
Proof.
  destruct (rewriteLinks_rewrites_internal Example.links_doc Example.page
              (Example.https "ex.test" "/" "" "") Example.created
              Example.links_local)
    as [Hlen Hel]; [by_compute|by_compute|].
  split; [exact Hlen|]. apply (Hel 0%nat). reflexivity.
Defined.

Lemma urlRegex_finds_url_tokens_witness :
  (∃ q1 q2,
     JS.chars "url(/img/bg.png)"
     = JS.chars "url(" ++ q1 ++ JS.chars "/img/bg.png" ++ q2 ++ [CHAR_RPAREN]
     ∧ quote_or_none q1 ∧ quote_or_none q2)
  ∧ "/img/bg.png" ≠ ""
  ∧ Forall (λ c, is_quote c = false ∧ c ≠ CHAR_RPAREN ∧ JS.is_space c = false)
      (JS.chars "/img/bg.png")
  ∧ ∃ before after,
      JS.chars Example.sheet_text = before ++ JS.chars "url(/img/bg.png)" ++ after.
Proof.
  apply (urlRegex_finds_url_tokens Example.sheet_text
           ("url(/img/bg.png)", "/img/bg.png")).
  assert (urlRegex_matches Example.sheet_text
          = [("url(/img/bg.png)", "/img/bg.png")]) as E by by_compute.
  rewrite E. apply list_elem_of_singleton. reflexivity.
Defined.

Lemma clone_settles_witness :
  (∃ data, Resolved "" = Resolved data)
  ∧ loop Example.s_404 = Exited ∧ downloadQueue Example.s_404 = []
  ∧ pending Example.s_404 = []
  ∧ ∃ lines,
      console Example.s_404
      = LogStart (href (baseUrl Example.created)) "out"
        :: lines ++ [LogCompleted; LogSaved (Path.resolve "/home/u" "out")].
Proof.
  pose proof (clone_settles Example.page "out" "/home/u" (Resolved "")
                Example.not_found [Tick] Example.created) as Hm.
  assert (clone (Resolved "") Example.not_found [Tick] Example.created
          = Fulfilled Example.s_404) as E by by_compute.
  rewrite E in Hm. apply Hm. by_compute.
Defined.

Lemma drain_only_adds_witness :
  baseUrl Example.s_written = baseUrl Example.s_page
  ∧ outputDir Example.s_written = outputDir Example.s_page
  ∧ cwd Example.s_written = cwd Example.s_page
  ∧ maxConcurrent Example.s_written = maxConcurrent Example.s_page
  ∧ downloadedFiles Example.s_page ⊆ downloadedFiles Example.s_written
  ∧ dom (files Example.s_page) ⊆ dom (files Example.s_written)
  ∧ dirs Example.s_page ⊆ dirs Example.s_written
  ∧ requests Example.s_page `prefix_of` requests Example.s_written
  ∧ console Example.s_page `prefix_of` console Example.s_written.
Proof.
  apply (drain_only_adds Example.until_written Example.s_page Example.s_written).
  by_compute.
Defined.


Lemma active_counts_pending_witness :
  0 ≤ activeDownloads Example.s_fetching
  ∧ (loop Example.s_fetching ≠ Running →
       activeDownloads Example.s_fetching
       = Z.of_nat (length (pending Example.s_fetching))).
Proof.
  apply (active_counts_pending [Tick; Tick; Tick] Example.s_page Example.s_fetching).
  - exact s_page_quiescent.
  - by_compute.
Defined.

Lemma only_page_stylesheets_are_scanned_witness :
  (∀ it, it ∈ downloadQueue Example.s_written → item_type it = css →
         it ∈ downloadQueue Example.s_page)
  ∧ (∀ t, t ∈ pending Example.s_written → css_phase (task_phase t) →
       item_type (task_item t) = css ∧ task_item t ∈ downloadQueue Example.s_page).
Proof.
  apply (only_page_stylesheets_are_scanned Example.until_written
           Example.s_page Example.s_written); by_compute.
Defined.

Lemma downloaded_files_are_on_disk_witness :
  ("https://ex.test/bg.png" = href (baseUrl Example.created)
   ∧ Path.join "out" "index.html" ∈ dom (files Example.s_exit))
  ∨ (∃ U, URL_new "https://ex.test/bg.png" None = Some U
          ∧ Path.join "out" (localPathOf (pathname U)) ∈ dom (files Example.s_exit)).
Proof.
  destruct s_page_cloned as (E0 & E1 & E2).
  apply (downloaded_files_are_on_disk _ _ _ _ _ _ _ _ _ E0 E1 E2).
  assert (has "https://ex.test/bg.png" Example.s_exit = true) as Hd by by_compute.
  unfold has in Hd. by apply bool_decide_eq_true in Hd.
Defined.

Lemma requests_are_serialised_urls_witness :
  ∃ U, URL_new "https://ex.test/bg.png" None = Some U
       ∧ href U = "https://ex.test/bg.png".
Proof.
  destruct s_page_cloned as (E0 & E1 & E2).
  apply (requests_are_serialised_urls _ _ _ _ _ _ _ _ _ E0 E1 E2).
  assert (requests Example.s_exit
          = ["https://ex.test/"; "https://ex.test/s.css"; "https://ex.test/pic.png";
             "https://ex.test/bg.png"]) as Er by by_compute.
  rewrite Er. do 3 apply list_elem_of_further. apply list_elem_of_here.
Defined.

Lemma files_are_in_created_directories_witness :
  "out" ∈ dirs Example.s_exit
  ∧ ∀ p, p ∈ dom (files Example.s_exit) → Path.dirname p ∈ dirs Example.s_exit.
Proof.
  destruct s_page_cloned as (E0 & E1 & E2).
  apply (files_are_in_created_directories _ _ _ _ _ _ _ _ _ E0 E1 E2).
Defined.

Lemma drain_can_finish_witness :
  ∃ more s', run ([Tick; Tick; Tick] ++ more) Example.s_page = Some s'
             ∧ loop s' = Exited.
Proof.
  apply (drain_can_finish [Tick; Tick; Tick] Example.s_page Example.s_fetching).
  - exact s_page_quiescent.
  - reflexivity.
  - by_compute.
Defined.

Lemma download_stores_response_witness :
  ∃ s',
    run [Settle 1 (Resolved "PNG"); Settle 1 (Resolved ""); Settle 1 (Resolved "")]
      Example.s_fetching
    = Some s'
    ∧ files s'
      = <[filePathOf Example.s_fetching Example.pic_png := "PNG"]>
          (files Example.s_fetching)
    ∧ dirs s'
      = {[Path.dirname (filePathOf Example.s_fetching Example.pic_png)]}
        ∪ dirs Example.s_fetching
    ∧ downloadedFiles s'
      = {[item_url Example.pic_png]} ∪ downloadedFiles Example.s_fetching
    ∧ downloadQueue s' = downloadQueue Example.s_fetching
    ∧ requests s' = requests Example.s_fetching
    ∧ console s' = console Example.s_fetching
    ∧ (if bool_decide (item_type Example.pic_png = css)
       then pending s'
            = <[1%nat := Task Example.pic_png AwaitReadCSS]>
                (pending Example.s_fetching)
            ∧ activeDownloads s' = activeDownloads Example.s_fetching
       else pending s' = delete 1%nat (pending Example.s_fetching)
            ∧ activeDownloads s' = activeDownloads Example.s_fetching - 1).
Proof.
  apply (download_stores_response 1 Example.pic_png "PNG" "" "" Example.s_fetching);
    by_compute.
Defined.


Lemma stylesheet_failure_is_contained_witness :
  ∃ s',
    downloadAsset_resume 0 (Rejected "EACCES") Example.s_written = Some s'
    ∧ console s'
      = console Example.s_written
        ++ [LogCSSError (filePathOf Example.s_written Example.s_css) "EACCES"]
    ∧ files s' = files Example.s_written
    ∧ downloadedFiles s' = downloadedFiles Example.s_written
    ∧ downloadQueue s' = downloadQueue Example.s_written
    ∧ requests s' = requests Example.s_written
    ∧ pending s' = delete 0%nat (pending Example.s_written)
    ∧ activeDownloads s' = activeDownloads Example.s_written - 1
    ∧ loop s' = loop Example.s_written.
Proof.
  apply (stylesheet_failure_is_contained 0 "EACCES" Example.s_written
           (Task Example.s_css AwaitReadCSS)).
  - by_compute.
  - by left.
Defined.

Lemma serve_route_stays_below_witness :
  ∃ below,
    sentFile (serve_route (λ _, false) (λ _, None) "/home/u" "site" "/css/s.css")
    = "/" +:+ Path.unsegments (Path.resolve_segments "/home/u" "site" ++ below).
Proof.
  apply serve_route_stays_below; [discriminate|].
  vm_compute. repeat constructor; discriminate.
Defined.

Lemma serve_route_reaches_any_file_witness :
  sentFile (serve_route (λ _, true) (λ _, None) "/home/u" "site"
              ("/" +:+ Path.relative "/home/u" "site" "/etc/passwd"))
  = Path.resolve "/home/u" "/etc/passwd".
Proof.
  apply serve_route_reaches_any_file; [discriminate|reflexivity].
Defined.

(** The request path of the example, and what is sent for it. *)
Lemma serve_route_example :
  "/" +:+ Path.relative "/home/u" "site" "/etc/passwd" = "/../../../etc/passwd"
  ∧ Path.join "site" "/../../../etc/passwd" = "../../etc/passwd"
  ∧ serve_route (λ _, true) (λ _, None) "/home/u" "site" "/../../../etc/passwd"
    = Response (Some "text/html") "/etc/passwd".
Proof. split_and!; by_compute. Qed.
